(** * irmago: configuration store and session state machine

    A shallow embedding of [irmaconfig.go], [session.go] and
    [internal/fs/fs.go].  Go strings are byte strings ([string]), byte
    slices are [list byte], Go maps are [gmap]s, [int] values are [Z].
    A Go function that can panic returns an [outcome]; a function with an
    [error] result returns it as [option goerror] next to its other
    results, as the Go code does. *)

From Stdlib Require Import ZArith Lia List String Ascii DecimalString.
From Stdlib Require Strings.Byte.
From Stdlib Require Import Sorting.Sorted Sorting.Permutation.
From stdpp Require Import gmap strings list sorting.

Local Open Scope string_scope.
Local Open Scope list_scope.
Local Open Scope Z_scope.

(** * Go runtime *)

(** Run-time panics that the embedded code can raise. *)
Inductive panic : Type :=
| IndexOutOfRange (index length : nat)
| SliceBoundsOutOfRange
| NilDereference
| InterfaceConversion
| ExplicitPanic (msg : string).

(** The result of running Go code that may panic. *)
Inductive outcome (A : Type) : Type :=
| Done (a : A)
| Panics (p : panic).
Arguments Done {A} a.
Arguments Panics {A} p.

#[global] Instance outcome_ret : MRet outcome := @Done.
#[global] Instance outcome_bind : MBind outcome := fun A B k m =>
  match m with
  | Done a => k a
  | Panics p => Panics p
  end.

Inductive SchemeManagerStatus : Type :=
| SchemeManagerStatusValid
| SchemeManagerStatusUnprocessed
| SchemeManagerStatusInvalidIndex
| SchemeManagerStatusInvalidSignature
| SchemeManagerStatusParsingError
| SchemeManagerStatusContentParsingError.

(** Values of Go's [error] interface that occur in the embedded code. *)
Inductive numErrorKind : Type := ErrSyntax | ErrRange.

Inductive goerror : Type :=
| NumError (func input : string) (kind : numErrorKind)
| Errorf (msg : string)
| HexInvalidByte (b : ascii)
| HexErrLength
| PathError (op path : string)
| ExternalError (origin : string)
| WrapPrefix (cause : goerror) (prefix : string)
| WrapPrefixNil (prefix : string)
| SchemeManagerError (manager : string) (status : SchemeManagerStatus)
    (cause : goerror).

(** [s[i]] on a string: the byte at position [i], or an index panic. *)
Definition byteAt (s : string) (i : nat) : outcome ascii :=
  match String.get i s with
  | Some c => Done c
  | None => Panics (IndexOutOfRange i (String.length s))
  end.

(** [string(b)] for a byte [b]: the UTF-8 encoding of the code point [b]. *)
Definition string_of_byte (b : ascii) : string :=
  let n := N_of_ascii b in
  if (n <? 128)%N then String b ""
  else String (ascii_of_N (192 + N.shiftr n 6))
         (String (ascii_of_N (128 + N.land n 63)) "").

Definition isDigit (c : ascii) : bool :=
  ((48 <=? N_of_ascii c) && (N_of_ascii c <=? 57))%N.

Definition digitValue (c : ascii) : Z := Z.of_N (N_of_ascii c) - 48.

(** The value of a string of decimal digits, [None] when a byte is not a
    digit. *)
Fixpoint digitsValue (acc : Z) (s : string) : option Z :=
  match s with
  | EmptyString => Some acc
  | String c rest =>
      if isDigit c then digitsValue (acc * 10 + digitValue c) rest else None
  end.

Definition maxInt : Z := 2 ^ 63 - 1.
Definition minInt : Z := - 2 ^ 63.

(** [strconv.Atoi]: an optional sign, then one or more decimal digits; the
    value has to fit a 64-bit [int]. *)
Definition Atoi (s : string) : Z + goerror :=
  match s with
  | EmptyString => inr (NumError "Atoi" s ErrSyntax)
  | String c rest =>
      let signed := (Ascii.eqb c "-" || Ascii.eqb c "+")%bool in
      let body := if signed then rest else s in
      match body with
      | EmptyString => inr (NumError "Atoi" s ErrSyntax)
      | _ =>
          match digitsValue 0 body with
          | None => inr (NumError "Atoi" s ErrSyntax)
          | Some n =>
              let v := if Ascii.eqb c "-" then - n else n in
              if ((minInt <=? v) && (v <=? maxInt))%bool then inl v
              else inr (NumError "Atoi" s ErrRange)
          end
      end
  end.

(** [%d] of [fmt.Sprintf]. *)
Definition Itoa (z : Z) : string := NilZero.string_of_int (Z.to_int z).

(** * session.go *)

(** Modelled from the spec: the [Action] constants are declared outside the
    files at hand; the spec names the actions Disclose, Sign and Issue, and
    the code names a fourth constant [ActionUnknown].  Any other value of the
    QR's [type] field is [ActionOther]. *)
Inductive Action : Type :=
| ActionDisclosing
| ActionSigning
| ActionIssuing
| ActionUnknown
| ActionOther (name : string).

Inductive Status : Type := StatusConnected | StatusCommunicating.

Inductive ErrorCode : Type :=
| ErrorProtocolVersionNotSupported
| ErrorUnknownAction
| ErrorInvalidJWT
| ErrorCrypto
| ErrorKeyshareBlocked
| ErrorKeyshare
| ErrorRejected
| ErrorTransport.

(** The QR payload: [{u, v, vmax, irmaqr}]. *)
Record Qr : Type := mkQr {
  Qr_URL : string;
  ProtocolVersion : string;
  ProtocolMaxVersion : string;
  Qr_Type : Action
}.

(** Supported protocol versions. Minor version numbers should be reverse
    sorted. *)
Definition supportedVersions : gmap Z (list Z) := {[ 2 := [2; 1] ]}.

(** The inner loop of [calcVersion]: the first minor of [major] in range. *)
Fixpoint firstMinor (minmajor minminor maxmajor maxminor major : Z)
    (minors : list Z) : option (Z * Z) :=
  match minors with
  | [] => None
  | minor :: rest =>
      let aboveMinimum :=
        ((major >? minmajor) || ((major =? minmajor) && (minor >=? minminor)))%bool in
      let underMaximum :=
        ((major <? maxmajor) || ((major =? maxmajor) && (minor <=? maxminor)))%bool in
      if (aboveMinimum && underMaximum)%bool then Some (major, minor)
      else firstMinor minmajor minminor maxmajor maxminor major rest
  end.

(** The outer loop of [calcVersion] over the sorted major numbers. *)
Fixpoint firstVersion (supported : gmap Z (list Z))
    (minmajor minminor maxmajor maxminor : Z) (keys : list Z) : option (Z * Z) :=
  match keys with
  | [] => None
  | major :: rest =>
      match firstMinor minmajor minminor maxmajor maxminor major
              (default [] (supported !! major)) with
      | Some v => Some v
      | None => firstVersion supported minmajor minminor maxmajor maxminor rest
      end
  end.

(** [sort.Sort(sort.Reverse(sort.IntSlice(keys)))] of the map's keys. *)
Definition reverseSortedKeys (supported : gmap Z (list Z)) : list Z :=
  merge_sort Z.ge (fst <$> map_to_list supported).

Definition calcVersionIn (supported : gmap Z (list Z)) (qr : Qr)
    : outcome (string * option goerror) :=
  c ← byteAt (ProtocolVersion qr) 0;
  match Atoi (string_of_byte c) with
  | inr err => Done ("", Some err)
  | inl minmajor =>
  c ← byteAt (ProtocolVersion qr) 2;
  match Atoi (string_of_byte c) with
  | inr err => Done ("", Some err)
  | inl minminor =>
  c ← byteAt (ProtocolMaxVersion qr) 0;
  match Atoi (string_of_byte c) with
  | inr err => Done ("", Some err)
  | inl maxmajor =>
  c ← byteAt (ProtocolMaxVersion qr) 2;
  match Atoi (string_of_byte c) with
  | inr err => Done ("", Some err)
  | inl maxminor =>
      match firstVersion supported minmajor minminor maxmajor maxminor
              (reverseSortedKeys supported) with
      | Some (major, minor) => Done (Itoa major +:+ "." +:+ Itoa minor, None)
      | None =>
          Done ("", Some (Errorf ("No supported protocol version between "
                                    +:+ ProtocolVersion qr +:+ " and "
                                    +:+ ProtocolMaxVersion qr)))
      end
  end end end end.

Definition calcVersion (qr : Qr) : outcome (string * option goerror) :=
  calcVersionIn supportedVersions qr.

(** ** The session and its collaborators *)

(** What the handler, the transport and the keyshare session observe of a
    session, in the order in which it happens. *)
Inductive event : Type :=
| EvStatusUpdate (a : Action) (s : Status)
| EvSuccess (a : Action)
| EvCancelled (a : Action)
| EvFailure (a : Action) (code : ErrorCode)
| EvUnsatisfiableRequest (a : Action)
| EvAskIssuancePermission
| EvAskVerificationPermission
| EvAskSignaturePermission
| EvGet (path : string)
| EvPost (path : string)
| EvDelete
| EvStartKeyshareSession
| EvAddLogEntry.

(** The dynamic type of the [interface{}] message that is sent to the server. *)
Inductive message : Type := ProofList | IssueCommitmentMessage | NilMessage.

(** The calls a keyshare session makes back into the session. *)
Inductive keyshareReply : Type :=
| ReplyDone (m : message)
| ReplyCancelled
| ReplyBlocked (duration : Z)
| ReplyError.

(** The answers of the session's collaborators: server, credential manager,
    handler and keyshare session. *)
Record Env : Type := mkEnv {
  getJwtError : option ErrorCode;
  jwtError : bool;
  missing : nat;
  permission : list bool;
  distributed : bool;
  proofsError : bool;
  buildersError : bool;
  keyshareReplies : list keyshareReply;
  postError : option ErrorCode;
  response : string;
  constructError : bool
}.

(** Code that reports to the collaborators: the events so far and how the
    code ended. *)
Definition proc (A : Type) : Type := list event * outcome A.

#[global] Instance proc_ret : MRet proc := fun A a => ([], Done a).
#[global] Instance proc_bind : MBind proc := fun A B k m =>
  match m with
  | (t, Done a) => let '(t', r) := k a in (t ++ t', r)
  | (t, Panics p) => (t, Panics p)
  end.

Definition emit (e : event) : proc unit := ([e], Done tt).
Definition raise {A : Type} (p : panic) : proc A := ([], Panics p).
Definition lift {A : Type} (m : outcome A) : proc A := ([], m).

(** [for _, x := range l { f x }] *)
Fixpoint forEach {A : Type} (f : A -> proc unit) (l : list A) : proc unit :=
  match l with
  | [] => mret tt
  | x :: rest => f x ;; forEach f rest
  end.

Record session : Type := mkSession {
  sAction : Action;
  Version : string;
  ServerURL : string
}.

Definition HasSuffix (s suffix : string) : bool :=
  (String.length suffix <=? String.length s)%nat
  && String.eqb (substring (String.length s - String.length suffix)
                   (String.length suffix) s) suffix.

Definition fail (s : session) (code : ErrorCode) : proc unit :=
  emit EvDelete ;;
  emit (EvFailure (sAction s) code).

Definition sendResponse (env : Env) (s : session) (m : message) : proc unit :=
  match sAction s with
  | ActionSigning | ActionDisclosing =>
      emit (EvPost "proofs") ;;
      match postError env with
      | Some code => fail s code
      | None =>
          if negb (String.eqb (response env) "VALID") then fail s ErrorRejected
          else
            match m with
            | ProofList => emit EvAddLogEntry ;; emit (EvSuccess (sAction s))
            | _ => raise InterfaceConversion
            end
      end
  | ActionIssuing =>
      emit (EvPost "commitments") ;;
      match postError env with
      | Some code => fail s code
      | None =>
          if constructError env then fail s ErrorCrypto
          else
            match m with
            | IssueCommitmentMessage =>
                emit EvAddLogEntry ;; emit (EvSuccess (sAction s))
            | _ => raise InterfaceConversion
            end
      end
  | _ => emit EvAddLogEntry ;; emit (EvSuccess (sAction s))
  end.

Definition KeyshareDone (env : Env) (s : session) (m : message) : proc unit :=
  sendResponse env s m.

Definition KeyshareCancelled (s : session) : proc unit :=
  emit EvDelete ;;
  emit (EvCancelled (sAction s)).

Definition KeyshareBlocked (s : session) (duration : Z) : proc unit :=
  fail s ErrorKeyshareBlocked.

Definition KeyshareError (s : session) : proc unit :=
  fail s ErrorKeyshare.

(** Modelled from the spec: [startKeyshareSession] is defined outside the
    files at hand.  The session delegates to a keyshare sub-session, and
    "when it signals completion it yields the final message"; completion,
    cancellation, blocking and errors arrive through the session's
    [Keyshare...] methods. *)
Definition startKeyshareSession (env : Env) (s : session) : proc unit :=
  emit EvStartKeyshareSession ;;
  forEach (fun r =>
    match r with
    | ReplyDone m => KeyshareDone env s m
    | ReplyCancelled => KeyshareCancelled s
    | ReplyBlocked d => KeyshareBlocked s d
    | ReplyError => KeyshareError s
    end) (keyshareReplies env).

Definition do (env : Env) (s : session) (proceed : bool) : proc unit :=
  if negb proceed then
    emit EvDelete ;;
    emit (EvCancelled (sAction s))
  else
    emit (EvStatusUpdate (sAction s) StatusCommunicating) ;;
    if negb (distributed env) then
      let '(m, err) :=
        match sAction s with
        | ActionSigning | ActionDisclosing => (ProofList, proofsError env)
        | ActionIssuing => (IssueCommitmentMessage, proofsError env)
        | _ => (NilMessage, false)
        end in
      if err then fail s ErrorCrypto
      else sendResponse env s m
    else
      let err :=
        match sAction s with
        | ActionSigning | ActionDisclosing | ActionIssuing => buildersError env
        | _ => false
        end in
      (if err then fail s ErrorCrypto else mret tt) ;;
      startKeyshareSession env s.

(** [start], followed by the [do] goroutines that the handler's calls of
    the permission callback launch. *)
Definition start (env : Env) (s : session) : proc unit :=
  emit (EvStatusUpdate (sAction s) StatusCommunicating) ;;
  emit (EvGet "jwt") ;;
  match getJwtError env with
  | Some code => fail s code
  | None =>
      if jwtError env then fail s ErrorInvalidJWT
      else if (0 <? missing env)%nat then
        emit (EvUnsatisfiableRequest (sAction s))
      else
        emit (EvStatusUpdate (sAction s) StatusConnected) ;;
        match sAction s with
        | ActionDisclosing => emit EvAskVerificationPermission
        | ActionSigning => emit EvAskSignaturePermission
        | ActionIssuing => emit EvAskIssuancePermission
        | _ => raise (ExplicitPanic "Invalid session type")
        end ;;
        forEach (do env s) (permission env)
  end.

(** [NewSession], together with the [start] goroutine it launches. *)
Definition NewSession (env : Env) (qr : Qr) : proc unit :=
  let s := mkSession (Qr_Type qr) "" (Qr_URL qr) in
  '(version, err) ← lift (calcVersion qr);
  match err with
  | Some _ => fail s ErrorProtocolVersionNotSupported
  | None =>
      let s := mkSession (sAction s) version (ServerURL s) in
      match sAction s with
      | ActionDisclosing | ActionSigning | ActionIssuing =>
          let s :=
            if negb (HasSuffix (ServerURL s) "/")
            then mkSession (sAction s) (Version s) (ServerURL s +:+ "/")
            else s in
          start env s
      | _ => fail s ErrorUnknownAction
      end
  end.

(** * crypto/sha256 and encoding/hex *)

Abbreviation byte := Byte.byte.

Definition byte_of_Z (z : Z) : byte :=
  default Byte.x00 (Byte.of_N (Z.to_N (z mod 256))).
Definition Z_of_byte (b : byte) : Z := Z.of_N (Byte.to_N b).

Module Sha256.

(** 32-bit words are [Z]s below [2^32]. *)
Definition wrap (x : Z) : Z := x mod 2 ^ 32.
Definition add (x y : Z) : Z := wrap (x + y).
Definition rotr (n x : Z) : Z :=
  Z.lor (Z.shiftr x n) (wrap (Z.shiftl x (32 - n))).
Definition not32 (x : Z) : Z := Z.lxor x (2 ^ 32 - 1).

Definition Ch (x y z : Z) : Z := Z.lxor (Z.land x y) (Z.land (not32 x) z).
Definition Maj (x y z : Z) : Z :=
  Z.lxor (Z.lxor (Z.land x y) (Z.land x z)) (Z.land y z).
Definition Sigma0 (x : Z) : Z :=
  Z.lxor (Z.lxor (rotr 2 x) (rotr 13 x)) (rotr 22 x).
Definition Sigma1 (x : Z) : Z :=
  Z.lxor (Z.lxor (rotr 6 x) (rotr 11 x)) (rotr 25 x).
Definition sigma0 (x : Z) : Z :=
  Z.lxor (Z.lxor (rotr 7 x) (rotr 18 x)) (Z.shiftr x 3).
Definition sigma1 (x : Z) : Z :=
  Z.lxor (Z.lxor (rotr 17 x) (rotr 19 x)) (Z.shiftr x 10).

Definition K : list Z :=
[
 1116352408; 1899447441; 3049323471; 3921009573;
 961987163; 1508970993; 2453635748; 2870763221;
 3624381080; 310598401; 607225278; 1426881987;
 1925078388; 2162078206; 2614888103; 3248222580;
 3835390401; 4022224774; 264347078; 604807628;
 770255983; 1249150122; 1555081692; 1996064986;
 2554220882; 2821834349; 2952996808; 3210313671;
 3336571891; 3584528711; 113926993; 338241895;
 666307205; 773529912; 1294757372; 1396182291;
 1695183700; 1986661051; 2177026350; 2456956037;
 2730485921; 2820302411; 3259730800; 3345764771;
 3516065817; 3600352804; 4094571909; 275423344;
 430227734; 506948616; 659060556; 883997877;
 958139571; 1322822218; 1537002063; 1747873779;
 1955562222; 2024104815; 2227730452; 2361852424;
 2428436474; 2756734187; 3204031479; 3329325298
].

Definition init : list Z :=
[
 1779033703; 3144134277; 1013904242; 2773480762;
 1359893119; 2600822924; 528734635; 1541459225
].

(** The message followed by the bit 1, zeros up to 56 modulo 64 bytes, and
    the length in bits as 64 bits, big endian. *)
Definition bigEndian (width : nat) (x : Z) : list Z :=
  map (fun i => Z.shiftr x (8 * Z.of_nat (width - 1 - i)) mod 256) (seq 0 width).

Definition pad (msg : list Z) : list Z :=
  let len := Z.of_nat (length msg) in
  let zeros := Z.to_nat ((55 - len) mod 64) in
  msg ++ [128] ++ repeat 0 zeros ++ bigEndian 8 (8 * len).

Fixpoint words (fuel : nat) (bs : list Z) : list Z :=
  match fuel, bs with
  | S fuel', a :: b :: c :: d :: rest =>
      (Z.shiftl a 24 + Z.shiftl b 16 + Z.shiftl c 8 + d) :: words fuel' rest
  | _, _ => []
  end.

(** The message schedule, most recent word first. *)
Fixpoint schedule (n : nat) (w : list Z) : list Z :=
  match n with
  | O => w
  | S n' =>
      let w2 := nth 1 w 0 in
      let w7 := nth 6 w 0 in
      let w15 := nth 14 w 0 in
      let w16 := nth 15 w 0 in
      schedule n' (add (add (sigma1 w2) w7) (add (sigma0 w15) w16) :: w)
  end.

Definition round (st : list Z) (kw : Z * Z) : list Z :=
  match st with
  | [a; b; c; d; e; f; g; h] =>
      let t1 := add (add (add h (Sigma1 e)) (add (Ch e f g) (fst kw))) (snd kw) in
      let t2 := add (Sigma0 a) (Maj a b c) in
      [add t1 t2; a; b; c; add d t1; e; f; g]
  | _ => st
  end.

Definition compress (st : list Z) (block : list Z) : list Z :=
  let w := rev (schedule 48 (rev block)) in
  let st' := fold_left round (combine K w) st in
  map (fun p => add (fst p) (snd p)) (combine st st').

Fixpoint blocks (fuel : nat) (ws : list Z) (st : list Z) : list Z :=
  match fuel with
  | O => st
  | S fuel' =>
      match ws with
      | [] => st
      | _ => blocks fuel' (skipn 16 ws) (compress st (firstn 16 ws))
      end
  end.

(** [sha256.Sum256]. *)
Definition Sum256 (msg : list byte) : list byte :=
  let padded := pad (map Z_of_byte msg) in
  let ws := words (length padded) padded in
  let st := blocks (length ws) ws init in
  map byte_of_Z (concat (map (bigEndian 4) st)).

End Sha256.

(** [hex.EncodeToString]: two lower-case digits per byte. *)
Definition hexDigit (n : Z) : ascii :=
  if n <? 10 then ascii_of_N (Z.to_N (48 + n)) else ascii_of_N (Z.to_N (87 + n)).

Fixpoint EncodeToString (bs : list byte) : string :=
  match bs with
  | [] => ""
  | b :: rest =>
      String (hexDigit (Z_of_byte b / 16))
        (String (hexDigit (Z_of_byte b mod 16)) (EncodeToString rest))
  end.

(** The value of a hexadecimal digit of either case. *)
Definition fromHexChar (c : ascii) : option Z :=
  let n := Z.of_N (N_of_ascii c) in
  if (48 <=? n) && (n <=? 57) then Some (n - 48)
  else if (97 <=? n) && (n <=? 102) then Some (n - 87)
  else if (65 <=? n) && (n <=? 70) then Some (n - 55)
  else None.

(** [hex.DecodeString]: the bytes decoded before the first fault, and the
    fault: a byte that is no hexadecimal digit, or an odd length. *)
Fixpoint DecodeString (s : string) : list byte * option goerror :=
  match s with
  | EmptyString => ([], None)
  | String p EmptyString =>
      match fromHexChar p with
      | None => ([], Some (HexInvalidByte p))
      | Some _ => ([], Some HexErrLength)
      end
  | String p (String q rest) =>
      match fromHexChar p, fromHexChar q with
      | None, _ => ([], Some (HexInvalidByte p))
      | Some _, None => ([], Some (HexInvalidByte q))
      | Some a, Some b =>
          let '(bs, err) := DecodeString rest in
          (byte_of_Z (a * 16 + b) :: bs, err)
      end
  end.

(** * irmaconfig.go: the scheme manager index *)

(** [strings.Split(s, sep)] for a separator of one byte. *)
Fixpoint Split (s : string) (sep : ascii) : list string :=
  match s with
  | EmptyString => [""]
  | String c rest =>
      if Ascii.eqb c sep then "" :: Split rest sep
      else
        match Split rest sep with
        | part :: parts => String c part :: parts
        | [] => [String c ""]
        end
  end.

Definition newline : ascii := ascii_of_nat 10.
Definition space : ascii := ascii_of_nat 32.

(** [ConfigurationFileHash] is a byte slice; [SchemeManagerIndex] maps the
    path of a file to its hash. *)
Abbreviation ConfigurationFileHash := (list byte).
Abbreviation SchemeManagerIndex := (gmap string (list byte)).

(** The order of [sort.Strings]: bytewise lexicographic. *)
Definition strLe (a b : string) : Prop := String.leb a b = true.

#[global] Instance strLe_dec (a b : string) : Decision (strLe a b).
Proof. unfold strLe. apply _. Defined.

Definition sortStrings (l : list string) : list string := merge_sort strLe l.

Definition indexLine (i : SchemeManagerIndex) (path : string) : string :=
  EncodeToString (default [] (i !! path)) +:+ " " +:+ path +:+ String newline "".

(** [SchemeManagerIndex.String] *)
Definition SchemeManagerIndex_String (i : SchemeManagerIndex) : string :=
  let paths := sortStrings (fst <$> map_to_list i) in
  fold_left (fun b path => b +:+ indexLine i path) paths "".

(** The loop of [SchemeManagerIndex.FromString] from line [j] on. *)
Fixpoint FromLines (i : SchemeManagerIndex) (j : nat) (lines : list string)
    : SchemeManagerIndex * option goerror :=
  match lines with
  | [] => (i, None)
  | line :: rest =>
      if (String.length line =? 0)%nat then FromLines i (S j) rest
      else
        let parts := Split line space in
        if negb (length parts =? 2)%nat then
          (i, Some (Errorf ("Scheme manager index line " +:+ Itoa (Z.of_nat j)
                              +:+ " has incorrect amount of parts")))
        else
          let '(hash, err) := DecodeString (nth 0 parts "") in
          match err with
          | Some e => (i, Some e)
          | None => FromLines (<[nth 1 parts "" := hash]> i) (S j) rest
          end
  end.

(** [SchemeManagerIndex.FromString]: the index after the call, and the
    error. *)
Definition FromString (i : SchemeManagerIndex) (s : string)
    : SchemeManagerIndex * option goerror :=
  FromLines i 0 (Split s newline).

(** * path/filepath, on a system whose separator is the slash *)

Definition slash : ascii := ascii_of_nat 47.

Fixpoint joinWith (sep : string) (parts : list string) : string :=
  match parts with
  | [] => ""
  | [p] => p
  | p :: rest => p +:+ sep +:+ joinWith sep rest
  end.

(** The elements of a path that remain after [Clean], last element first. *)
Fixpoint cleanElements (rooted : bool) (stack : list string) (parts : list string)
    : list string :=
  match parts with
  | [] => stack
  | part :: rest =>
      if String.eqb part "" || String.eqb part "." then
        cleanElements rooted stack rest
      else if String.eqb part ".." then
        match stack with
        | top :: below =>
            if String.eqb top ".." then cleanElements rooted (part :: stack) rest
            else cleanElements rooted below rest
        | [] =>
            if rooted then cleanElements rooted stack rest
            else cleanElements rooted [part] rest
        end
      else cleanElements rooted (part :: stack) rest
  end.

Definition isRooted (p : string) : bool :=
  match p with
  | String c _ => Ascii.eqb c slash
  | EmptyString => false
  end.

(** [filepath.Clean] *)
Definition Clean (p : string) : string :=
  let elements := rev (cleanElements (isRooted p) [] (Split p slash)) in
  let body := joinWith "/" elements in
  if isRooted p then "/" +:+ body
  else if String.eqb body "" then "." else body.

(** [filepath.Join] *)
Fixpoint Join (elem : list string) : string :=
  match elem with
  | [] => ""
  | e :: rest =>
      if String.eqb e "" then Join rest else Clean (joinWith "/" elem)
  end.

(** The text after the last slash, and the text up to and including it. *)
Definition lastElement (p : string) : string := default "" (last (Split p slash)).
Definition upToLastSlash (p : string) : string :=
  substring 0 (String.length p - String.length (lastElement p)) p.

Fixpoint stripTrailingSlashes (fuel : nat) (p : string) : string :=
  match fuel with
  | O => p
  | S fuel' =>
      if (0 <? String.length p)%nat && HasSuffix p "/" then
        stripTrailingSlashes fuel' (substring 0 (String.length p - 1) p)
      else p
  end.

(** [filepath.Base] *)
Definition Base (p : string) : string :=
  if String.eqb p "" then "."
  else
    let p' := stripTrailingSlashes (String.length p) p in
    let b := lastElement p' in
    if String.eqb b "" then "/" else b.

(** [filepath.Dir] and [path.Dir] *)
Definition Dir (p : string) : string := Clean (upToLastSlash p).

(** [filepath.ToSlash] *)
Definition ToSlash (p : string) : string := p.

(** [strings.HasPrefix] *)
Definition HasPrefix (s pre : string) : bool := String.prefix pre s.

(** [strings.Index(s, "/")], [-1] when there is no slash. *)
Fixpoint IndexSlash (s : string) : Z :=
  match s with
  | EmptyString => -1
  | String c rest =>
      if Ascii.eqb c slash then 0
      else let i := IndexSlash rest in if i <? 0 then -1 else i + 1
  end.

(** * The world outside the process: file system, network, randomness *)

Inductive node : Type :=
| File (content : list byte)
| Directory.

(** The files are keyed by their absolute clean path.  [unremovable] are
    the entries that the process is not permitted to unlink, [remote] is
    what the HTTP servers serve under each URL, [requests] the URLs fetched
    so far, [entropy] what [rand.Read] will deliver. *)
Record World : Type := mkWorld {
  cwd : string;
  files : gmap string node;
  unremovable : gset string;
  remote : gmap string (list byte);
  requests : list string;
  entropy : list (list byte)
}.

Definition setFiles (w : World) (f : gmap string node) : World :=
  mkWorld (cwd w) f (unremovable w) (remote w) (requests w) (entropy w).

(** [filepath.Abs] *)
Definition Abs (w : World) (p : string) : string :=
  if isRooted p then Clean p else Join [cwd w; p].

(** A path that lies strictly below [dir]. *)
Definition below (dir p : string) : bool :=
  HasPrefix p (if String.eqb dir "/" then dir else dir +:+ "/")
  && negb (String.eqb p dir).

(** Whether the node is a regular file. *)
Definition isFile (n : node) : bool :=
  match n with
  | File _ => true
  | Directory => false
  end.

(** The absolute path [a] lies below a regular file: the system calls on
    [a] fail with ENOTDIR. *)
Definition underFile (w : World) (a : string) : bool :=
  existsb (fun kv : string * node => isFile (snd kv) && below (fst kv) a)
    (map_to_list (files w)).

(** [os.Stat]: the node, [None] when the call returns an error.  The root
    directory always exists; the empty path names nothing; nothing is found
    below a regular file. *)
Definition Stat (w : World) (p : string) : option node :=
  if String.eqb p "" || underFile w (Abs w p) then None
  else if String.eqb (Abs w p) "/" then Some Directory
  else files w !! Abs w p.

(** [os.IsNotExist] of the error of a failed [os.Stat]: it holds of ENOENT,
    the error for a missing entry and for the empty path, and not of
    ENOTDIR, the error for a path below a regular file. *)
Definition statNotExist (w : World) (p : string) : bool :=
  String.eqb p "" || negb (underFile w (Abs w p)).

(** [ioutil.ReadFile] *)
Definition ReadFile (w : World) (p : string) : list byte * option goerror :=
  match Stat w p with
  | Some (File content) => (content, None)
  | Some Directory => ([], Some (PathError "read" p))
  | None => ([], Some (PathError "open" p))
  end.

Definition isDirectory (w : World) (p : string) : bool :=
  match Stat w p with
  | Some Directory => true
  | _ => false
  end.

(** [ioutil.WriteFile]: the path must not be empty nor lie below a regular
    file, the directory has to exist and the target must not be a
    directory. *)
Definition WriteFile (w : World) (p : string) (content : list byte)
    : World * option goerror :=
  if negb (String.eqb p "") && negb (underFile w (Abs w p))
     && isDirectory w (Dir (Abs w p)) && negb (isDirectory w p) then
    (setFiles w (<[Abs w p := File content]> (files w)), None)
  else (w, Some (PathError "open" p)).

(** An entry that exists and that the process is not permitted to unlink. *)
Definition pinned (w : World) (a : string) : bool :=
  bool_decide (a ∈ unremovable w) && bool_decide (is_Some (files w !! a)).

(** [os.Rename] of a file: the old entry is unlinked from its directory,
    and so is an entry that the new name replaces. *)
Definition Rename (w : World) (old new : string) : World * option goerror :=
  match Stat w old with
  | Some (File content) =>
      if negb (String.eqb new "") && negb (underFile w (Abs w new))
         && isDirectory w (Dir (Abs w new)) && negb (isDirectory w new)
         && negb (pinned w (Abs w old)) && negb (pinned w (Abs w new)) then
        (setFiles w (<[Abs w new := File content]> (delete (Abs w old) (files w))),
         None)
      else (w, Some (PathError "rename" new))
  | _ => (w, Some (PathError "rename" old))
  end.

(** The path [q] is [a] or lies below it. *)
Definition within (a q : string) : bool := String.eqb q a || below a q.

(** What withstands [os.RemoveAll]: the root, and every path with an entry
    at or below it that cannot be unlinked. *)
Definition held (w : World) (q : string) : bool :=
  String.eqb q "/"
  || existsb (fun u => within q u && pinned w u) (elements (unremovable w)).

(** The paths that [os.RemoveAll] refuses: "." and those that end in "/.". *)
Definition endsWithDot (p : string) : bool :=
  String.eqb p "." || HasSuffix p "/.".

(** [os.RemoveAll], as of Go 1.12: nothing is done for the empty path; a
    path that ends in a dot and a path below a regular file are errors;
    otherwise everything at and below the path is removed but for what
    cannot be unlinked and the directories above it, and their presence is
    an error.  A path that does not exist is no error. *)
Definition RemoveAll (w : World) (p : string) : World * option goerror :=
  if String.eqb p "" then (w, None)
  else if endsWithDot p then (w, Some (PathError "RemoveAll" p))
  else
    let a := Abs w p in
    if underFile w a then (w, Some (PathError "unlinkat" p))
    else
      (setFiles w (filter (fun kv => negb (within a (fst kv)) || held w (fst kv))
                     (files w)),
       if held w a then Some (PathError "unlinkat" p) else None).

(** The path itself and its ancestors, the root first. *)
Fixpoint ancestors (fuel : nat) (p : string) (acc : list string) : list string :=
  match fuel with
  | O => acc
  | S fuel' =>
      if String.eqb p "/" || String.eqb p "." then acc
      else ancestors fuel' (Dir p) (p :: acc)
  end.

(** [os.MkdirAll]: creates the missing directories on the way; fails for
    the empty path and when a file is in the way. *)
Definition MkdirAll (w : World) (p : string) : World * option goerror :=
  let a := Abs w p in
  let chain := ancestors (String.length a) a [] in
  if String.eqb p "" || underFile w a
     || existsb (fun d => match files w !! d with
                          | Some (File _) => true
                          | _ => false
                          end) chain
  then (w, Some (PathError "mkdir" p))
  else
    (setFiles w (fold_left (fun f d => <[d := Directory]> f) chain (files w)),
     None).

(** The order in which [filepath.Walk] and [filepath.Glob] visit names:
    element by element. *)
Fixpoint elementsLe (a b : list string) : bool :=
  match a, b with
  | [], _ => true
  | _ :: _, [] => false
  | x :: a', y :: b' =>
      if String.eqb x y then elementsLe a' b' else String.leb x y
  end.

Definition walkLe (a b : string) : Prop :=
  elementsLe (Split a slash) (Split b slash) = true.

#[global] Instance walkLe_dec (a b : string) : Decision (walkLe a b).
Proof. unfold walkLe. apply _. Defined.

(** [filepath.Glob(dir + "/*" + suffix)] for a [dir] without
    metacharacters: the entries of the directory that end in [suffix], in
    lexical order. *)
Definition Glob (w : World) (dir suffix : string) : list string :=
  let a := Abs w dir in
  let names :=
    omap (fun kv : string * node =>
            let p := fst kv in
            if below a p && String.eqb (Dir p) a && HasSuffix (Base p) suffix
            then Some (Base p) else None)
         (map_to_list (files w)) in
  (fun name => Join [dir; name]) <$> sortStrings names.

(** The paths that [filepath.Walk] visits from [root], in its order, each
    with [true] for a directory; [None] when the root does not exist. *)
Definition Walk (w : World) (root : string) : option (list (string * bool)) :=
  match Stat w root with
  | None => None
  | Some _ =>
      let a := Abs w root in
      let visited :=
        omap (fun kv : string * node =>
                let p := fst kv in
                if String.eqb p a then Some root
                else if below a p then
                  Some (Join [root; substring (String.length a)
                                      (String.length p - String.length a) p])
                else None)
             (map_to_list (files w)) in
      Some ((fun p => (p, isDirectory w p)) <$> merge_sort walkLe visited)
  end.

(** * internal/fs/fs.go *)

(** [fs.PathExists]: found when [os.Stat] succeeds, not found when its
    error is a not-exist error, and for any other error found together
    with that error. *)
Definition PathExists (w : World) (p : string) : bool * option goerror :=
  match Stat w p with
  | Some _ => (true, None)
  | None =>
      if statNotExist w p then (false, None)
      else (true, Some (PathError "stat" p))
  end.

(** [fs.AssertPathExists] *)
Fixpoint AssertPathExists (w : World) (paths : list string) : option goerror :=
  match paths with
  | [] => None
  | p :: rest =>
      let '(found, err) := PathExists w p in
      match err with
      | Some e => Some e
      | None =>
          if negb found then Some (Errorf ("Path " +:+ p +:+ " does not exist"))
          else AssertPathExists w rest
      end
  end.

(** [fs.EnsureDirectoryExists] *)
Definition EnsureDirectoryExists (w : World) (p : string) : World * option goerror :=
  let '(exists_, err) := PathExists w p in
  match err with
  | Some e => (w, Some e)
  | None => if exists_ then (w, None) else MkdirAll w p
  end.

(** [fs.SaveFile]: the content goes to a file with a random name in the
    same directory, which is then renamed to [fpath]. *)
Definition SaveFile (w : World) (fpath : string) (content : list byte)
    : World * option goerror :=
  let dir := Dir fpath in
  match entropy w with
  | [] => (w, Some (ExternalError "rand.Read"))
  | randBytes :: later =>
      let w := mkWorld (cwd w) (files w) (unremovable w) (remote w) (requests w)
                 later in
      let tempfilename := EncodeToString randBytes in
      let '(w, err) := WriteFile w (Join [dir; tempfilename]) content in
      match err with
      | Some e => (w, Some e)
      | None => Rename w (Join [dir; tempfilename]) fpath
      end
  end.

(** [s[n:]]: panics when [n] exceeds the length. *)
Definition sliceFrom (s : string) (n : nat) : outcome string :=
  if (n <=? String.length s)%nat then Done (substring n (String.length s - n) s)
  else Panics SliceBoundsOutOfRange.

(** The callback of [fs.CopyDirectory], applied to the visited paths in
    turn. *)
Fixpoint copyVisited (w : World) (src dest : string)
    (visited : list (string * bool)) : World * outcome (option goerror) :=
  match visited with
  | [] => (w, Done None)
  | (path, isDir) :: rest =>
      if String.eqb path src then copyVisited w src dest rest
      else
        match sliceFrom path (String.length src) with
        | Panics p => (w, Panics p)
        | Done subpath =>
            if isDir then
              let '(w, err) := EnsureDirectoryExists w (dest +:+ subpath) in
              match err with
              | Some e => (w, Done (Some e))
              | None => copyVisited w src dest rest
              end
            else
              let '(bts, err) := ReadFile w path in
              match err with
              | Some e => (w, Done (Some e))
              | None =>
                  let '(w, err) := SaveFile w (dest +:+ subpath) bts in
                  match err with
                  | Some e => (w, Done (Some e))
                  | None => copyVisited w src dest rest
                  end
              end
        end
  end.

(** [fs.CopyDirectory] *)
Definition CopyDirectory (w : World) (src dest : string)
    : World * outcome (option goerror) :=
  let '(w, err) := EnsureDirectoryExists w dest in
  match err with
  | Some e => (w, Done (Some e))
  | None =>
      match Walk w src with
      | None => (w, Done None)
      | Some visited => copyVisited w src dest visited
      end
  end.

(** * Libraries that the configuration store calls *)

(** What [x509.ParsePKIXPublicKey] returns: a key of some algorithm. *)
Inductive genericKey (K : Type) : Type :=
| EcdsaPublicKey (pk : K)
| OtherPublicKey.
Arguments EcdsaPublicKey {K} pk.
Arguments OtherPublicKey {K}.

(** [gabi.PublicKey], as far as the configuration store looks at it. *)
Record PublicKey : Type := mkPublicKey {
  PublicKey_Counter : Z;
  PublicKey_Issuer : string;
  PublicKey_R : list Z
}.

Abbreviation TranslatedString := (gmap string string).

(** What [xml.Unmarshal] can set in a scheme manager: the fields of its
    description.  [descTranslated] lists the fields of type
    [TranslatedString] with their names. *)
Record SchemeManagerDescription : Type := mkSchemeManagerDescription {
  descID : string;
  descURL : string;
  descKeyshareServer : string;
  descXMLVersion : Z;
  descTranslated : list (string * TranslatedString)
}.

Record AttributeType : Type := mkAttributeType {
  AttributeType_ID : string;
  Optional : string;
  DisplayIndex : option Z;
  AttributeType_Translated : list (string * TranslatedString);
  AttributeType_Index : Z;
  AttributeType_SchemeManagerID : string;
  AttributeType_IssuerID : string;
  AttributeType_CredentialTypeID : string
}.

Record Issuer : Type := mkIssuer {
  Issuer_ID : string;
  Issuer_SchemeManagerID : string;
  Issuer_XMLVersion : Z;
  Issuer_Translated : list (string * TranslatedString);
  Issuer_Valid : bool
}.

Record CredentialType : Type := mkCredentialType {
  CredentialType_ID : string;
  CredentialType_SchemeManagerID : string;
  CredentialType_IssuerID : string;
  CredentialType_XMLVersion : Z;
  CredentialType_Translated : list (string * TranslatedString);
  AttributeTypes_ : list AttributeType;
  CredentialType_Valid : bool
}.

(** The decoders and the cryptography come from libraries; the embedded
    code is the same for every implementation of them.  Each may panic. *)
Class Libraries : Type := {
  (** [pem.Decode]: the bytes of the first block, [None] for a nil block. *)
  pemDecode : list byte -> option (list byte);
  EcdsaKey : Type;
  (** [x509.ParsePKIXPublicKey] *)
  ParsePKIXPublicKey : list byte -> outcome (genericKey EcdsaKey + goerror);
  (** [asn1.Unmarshal] into a slice of integers: the slice afterwards. *)
  asn1Unmarshal : list byte -> outcome (list Z);
  (** [ecdsa.Verify] *)
  ecdsaVerify : EcdsaKey -> list byte -> Z -> Z -> outcome bool;
  (** [xml.Unmarshal] into a scheme manager, an issuer, a credential type:
      what has been decoded, also when an error is returned. *)
  unmarshalSchemeManager :
    list byte -> SchemeManagerDescription -> SchemeManagerDescription * option goerror;
  unmarshalIssuer : list byte -> Issuer * option goerror;
  unmarshalCredentialType : list byte -> CredentialType * option goerror;
  (** [gabi.NewPublicKeyFromBytes] *)
  NewPublicKeyFromBytes : list byte -> PublicKey + goerror;
  (** [regexp.MustCompile(pattern).MatchString(s)] and
      [regexp.MustCompile(pattern).FindStringSubmatch(s)] *)
  MatchString : string -> string -> bool;
  FindStringSubmatch : string -> string -> list string
}.

(** * irmaconfig.go: the configuration *)

Record SchemeManager : Type := mkSchemeManager {
  description : SchemeManagerDescription;
  Status_ : SchemeManagerStatus;
  SchemeManager_Valid : bool;
  Timestamp : Z;
  SchemeManager_index : SchemeManagerIndex
}.

Definition SchemeManager_ID (m : SchemeManager) : string := descID (description m).
Definition SchemeManager_URL (m : SchemeManager) : string := descURL (description m).
Definition KeyshareServer (m : SchemeManager) : string :=
  descKeyshareServer (description m).
Definition SchemeManager_XMLVersion (m : SchemeManager) : Z :=
  descXMLVersion (description m).

Definition setDescription (m : SchemeManager) (d : SchemeManagerDescription)
    : SchemeManager :=
  mkSchemeManager d (Status_ m) (SchemeManager_Valid m) (Timestamp m)
    (SchemeManager_index m).
Definition setStatus (m : SchemeManager) (s : SchemeManagerStatus) : SchemeManager :=
  mkSchemeManager (description m) s (SchemeManager_Valid m) (Timestamp m)
    (SchemeManager_index m).
Definition setValid (m : SchemeManager) (v : bool) : SchemeManager :=
  mkSchemeManager (description m) (Status_ m) v (Timestamp m)
    (SchemeManager_index m).
Definition setTimestamp (m : SchemeManager) (t : Z) : SchemeManager :=
  mkSchemeManager (description m) (Status_ m) (SchemeManager_Valid m) t
    (SchemeManager_index m).
Definition setIndex (m : SchemeManager) (i : SchemeManagerIndex) : SchemeManager :=
  mkSchemeManager (description m) (Status_ m) (SchemeManager_Valid m) (Timestamp m) i.

(** Modelled from the spec: [NewSchemeManager] is defined outside the files
    at hand.  A scheme manager is created with its id by scanning storage or
    by install; its status is [Unprocessed] until it has been parsed. *)
Definition NewSchemeManager (name : string) : SchemeManager :=
  mkSchemeManager (mkSchemeManagerDescription name "" "" 0 [])
    SchemeManagerStatusUnprocessed false 0 ∅.

(** Modelled from the spec: the identifier types are defined outside the
    files at hand.  "Identifiers are dotted hierarchical names"; "parents
    are derivable by prefix". *)
Definition dot : ascii := ascii_of_nat 46.
Definition idParts (id : string) : list string := Split id dot.
Definition Root (id : string) : string := nth 0 (idParts id) "".
Definition Name (id : string) : string := default "" (last (idParts id)).
Definition Parent (id : string) : string :=
  joinWith "." (removelast (idParts id)).

Definition SchemeManager_Identifier (m : SchemeManager) : string := SchemeManager_ID m.
Definition Issuer_Identifier (i : Issuer) : string :=
  Issuer_SchemeManagerID i +:+ "." +:+ Issuer_ID i.
Definition CredentialType_Identifier (c : CredentialType) : string :=
  CredentialType_SchemeManagerID c +:+ "." +:+ CredentialType_IssuerID c
    +:+ "." +:+ CredentialType_ID c.
Definition GetAttributeTypeIdentifier (a : AttributeType) : string :=
  AttributeType_SchemeManagerID a +:+ "." +:+ AttributeType_IssuerID a
    +:+ "." +:+ AttributeType_CredentialTypeID a +:+ "." +:+ AttributeType_ID a.

Record Configuration : Type := mkConfiguration {
  SchemeManagers : gmap string SchemeManager;
  Issuers : gmap string Issuer;
  CredentialTypes : gmap string CredentialType;
  AttributeTypes : gmap string AttributeType;
  Path : string;
  DisabledSchemeManagers : gmap string goerror;
  Warnings : list string;
  publicKeys : gmap string (gmap Z PublicKey);
  reverseHashes : gmap string string;
  initialized : bool;
  assets : string;
  readOnly : bool
}.

Definition setSchemeManagers (c : Configuration) (v : gmap string SchemeManager)
    : Configuration :=
  mkConfiguration v (Issuers c) (CredentialTypes c) (AttributeTypes c) (Path c)
    (DisabledSchemeManagers c) (Warnings c) (publicKeys c) (reverseHashes c)
    (initialized c) (assets c) (readOnly c).
Definition setIssuers (c : Configuration) (v : gmap string Issuer) : Configuration :=
  mkConfiguration (SchemeManagers c) v (CredentialTypes c) (AttributeTypes c) (Path c)
    (DisabledSchemeManagers c) (Warnings c) (publicKeys c) (reverseHashes c)
    (initialized c) (assets c) (readOnly c).
Definition setCredentialTypes (c : Configuration) (v : gmap string CredentialType)
    : Configuration :=
  mkConfiguration (SchemeManagers c) (Issuers c) v (AttributeTypes c) (Path c)
    (DisabledSchemeManagers c) (Warnings c) (publicKeys c) (reverseHashes c)
    (initialized c) (assets c) (readOnly c).
Definition setAttributeTypes (c : Configuration) (v : gmap string AttributeType)
    : Configuration :=
  mkConfiguration (SchemeManagers c) (Issuers c) (CredentialTypes c) v (Path c)
    (DisabledSchemeManagers c) (Warnings c) (publicKeys c) (reverseHashes c)
    (initialized c) (assets c) (readOnly c).
Definition setDisabledSchemeManagers (c : Configuration) (v : gmap string goerror)
    : Configuration :=
  mkConfiguration (SchemeManagers c) (Issuers c) (CredentialTypes c)
    (AttributeTypes c) (Path c) v (Warnings c) (publicKeys c) (reverseHashes c)
    (initialized c) (assets c) (readOnly c).
Definition setWarnings (c : Configuration) (v : list string) : Configuration :=
  mkConfiguration (SchemeManagers c) (Issuers c) (CredentialTypes c)
    (AttributeTypes c) (Path c) (DisabledSchemeManagers c) v (publicKeys c)
    (reverseHashes c) (initialized c) (assets c) (readOnly c).
Definition setPublicKeys (c : Configuration) (v : gmap string (gmap Z PublicKey))
    : Configuration :=
  mkConfiguration (SchemeManagers c) (Issuers c) (CredentialTypes c)
    (AttributeTypes c) (Path c) (DisabledSchemeManagers c) (Warnings c) v
    (reverseHashes c) (initialized c) (assets c) (readOnly c).
Definition setReverseHashes (c : Configuration) (v : gmap string string)
    : Configuration :=
  mkConfiguration (SchemeManagers c) (Issuers c) (CredentialTypes c)
    (AttributeTypes c) (Path c) (DisabledSchemeManagers c) (Warnings c)
    (publicKeys c) v (initialized c) (assets c) (readOnly c).
Definition setInitialized (c : Configuration) (v : bool) : Configuration :=
  mkConfiguration (SchemeManagers c) (Issuers c) (CredentialTypes c)
    (AttributeTypes c) (Path c) (DisabledSchemeManagers c) (Warnings c)
    (publicKeys c) (reverseHashes c) v (assets c) (readOnly c).

(** [newConfiguration] after its checks of the disk: the empty maps of
    [clear]. *)
Definition emptyConfiguration (path assets_ : string) (ro : bool) : Configuration :=
  mkConfiguration ∅ ∅ ∅ ∅ path ∅ [] ∅ ∅ false assets_ ro.

(** [Configuration.clear]: all maps are made anew; the warnings stay. *)
Definition clear (c : Configuration) : Configuration :=
  mkConfiguration ∅ ∅ ∅ ∅ (Path c) ∅ (Warnings c) ∅ ∅ (initialized c) (assets c)
    (readOnly c).

(** [base64.StdEncoding.EncodeToString] *)
Definition base64Alphabet : string :=
  "ABCDEFGHIJKLMNOPQRSTUVWXYZabcdefghijklmnopqrstuvwxyz0123456789+/".

Definition base64Digit (n : Z) : ascii :=
  default "="%char (String.get (Z.to_nat n) base64Alphabet).

Fixpoint base64Encode (bs : list byte) : string :=
  match bs with
  | [] => ""
  | [a] =>
      let n := Z_of_byte a * 65536 in
      String (base64Digit (n / 262144))
        (String (base64Digit (n / 4096 mod 64)) "==")
  | [a; b] =>
      let n := Z_of_byte a * 65536 + Z_of_byte b * 256 in
      String (base64Digit (n / 262144))
        (String (base64Digit (n / 4096 mod 64))
           (String (base64Digit (n / 64 mod 64)) "="))
  | a :: b :: c :: rest =>
      let n := Z_of_byte a * 65536 + Z_of_byte b * 256 + Z_of_byte c in
      String (base64Digit (n / 262144))
        (String (base64Digit (n / 4096 mod 64))
           (String (base64Digit (n / 64 mod 64))
              (String (base64Digit (n mod 64)) (base64Encode rest))))
  end.

(** Methods of [*Configuration] that change the configuration in memory and
    only read the disk: the configuration afterwards and the result. *)
Definition method (A : Type) : Type := Configuration -> Configuration * outcome A.

#[global] Instance method_ret : MRet method := fun A a c => (c, Done a).
#[global] Instance method_bind : MBind method := fun A B k m c =>
  match m c with
  | (c', Done a) => k a c'
  | (c', Panics p) => (c', Panics p)
  end.

Definition getConf : method Configuration := fun c => (c, Done c).
Definition modify (f : Configuration -> Configuration) : method unit :=
  fun c => (f c, Done tt).
Definition liftOutcome {A : Type} (m : outcome A) : method A := fun c => (c, m).

(** [conf.Warnings = append(conf.Warnings, msg)] *)
Definition warn (msg : string) : method unit :=
  modify (fun c => setWarnings c (Warnings c ++ [msg])).

(** The scheme manager that a [*SchemeManager] held in
    [conf.SchemeManagers] under [key] points to, and assignments to its
    fields through the pointer. *)
Definition managerAt (key : string) : method SchemeManager :=
  fun c => (c, Done (default (NewSchemeManager "") (SchemeManagers c !! key))).
Definition updateManager (key : string) (f : SchemeManager -> SchemeManager)
    : method unit :=
  modify (fun c => setSchemeManagers c (alter f key (SchemeManagers c))).

(** Modelled from the spec: [parseTimestamp] and [readTimestamp] are
    defined outside the files at hand.  The timestamp file holds "ASCII
    decimal seconds since the Unix epoch, optional trailing newline";
    [readTimestamp] returns the timestamp, whether the file exists, and an
    error. *)
Definition parseTimestamp (bts : list byte) : Z + goerror :=
  let s := string_of_list_byte bts in
  let s := if HasSuffix s (String newline "")
           then substring 0 (String.length s - 1) s else s in
  Atoi s.

Definition readTimestamp (w : World) (path : string)
    : option Z * bool * option goerror :=
  let '(found, err) := PathExists w path in
  match err with
  | Some e => (None, false, Some e)
  | None =>
      if negb found then (None, false, None)
      else
        let '(bts, err) := ReadFile w path in
        match err with
        | Some _ => (None, true, Some (Errorf "Could not read scheme manager timestamp"))
        | None =>
            match parseTimestamp bts with
            | inl ts => (Some ts, true, None)
            | inr e => (None, true, Some e)
            end
        end
  end.

(** [relativePath] *)
Definition relativePath (w : World) (outer inner : string)
    : outcome (string * option goerror) :=
  let outerAbs := Abs w outer in
  let innerAbs := Abs w inner in
  if negb (HasPrefix innerAbs outerAbs) then
    Done ("", Some (Errorf "inner path is not contained in outer path"))
  else
    rel ← sliceFrom innerAbs (String.length outerAbs + 1);
    Done (rel, None).

(** [dirInScheme] *)
Definition dirInScheme (index : SchemeManagerIndex) (dir : string) : bool :=
  existsb (fun kv : string * list byte => HasPrefix (fst kv) dir) (map_to_list index).

(** These files never occur in a scheme's index *)
Definition sigExceptions : list string :=
  [ "/.git(/.*)?";
    "^.*?/pk\.pem$";
    "^.*?/sk\.pem$";
    "^.*?/index";
    "^.*?/index\.sig";
    "^.*?/AUTHORS$";
    "^.*?/LICENSE$";
    "^.*?/README\.md$";
    "^.*?/.*?/PrivateKeys$";
    "^.*?/.*?/PrivateKeys/\d+.xml$";
    "\.DS_Store$" ].

(** [bytes.Equal] *)
Fixpoint bytesEqual (a b : list byte) : bool :=
  match a, b with
  | [], [] => true
  | x :: a', y :: b' => Byte.eqb x y && bytesEqual a' b'
  | _, _ => false
  end.

(** [ConfigurationFileHash.Equal] *)
Definition ConfigurationFileHash_Equal (hash other : list byte) : bool :=
  bytesEqual hash other.

(** [ReadAuthenticatedFile]: the bytes, whether the path is in the index,
    and the error. *)
Definition ReadAuthenticatedFile (w : World) (conf : Configuration)
    (manager : SchemeManager) (path : string)
    : list byte * bool * option goerror :=
  match SchemeManager_index manager !! ToSlash path with
  | None => ([], false, None)
  | Some signedHash =>
      let '(bts, err) := ReadFile w (Join [Path conf; path]) in
      match err with
      | Some e => ([], true, Some e)
      | None =>
          let computedHash := Sha256.Sum256 bts in
          if negb (bytesEqual computedHash signedHash) then
            ([], true, Some (Errorf ("Hash of " +:+ path
                                       +:+ " does not match scheme manager index")))
          else (bts, true, None)
      end
  end.

(** What [recover] finds: the message of a run-time error, nothing for a
    panic with a value that is no [error]. *)
Definition panicError (p : panic) : option string :=
  match p with
  | IndexOutOfRange _ _ => Some "runtime error: index out of range"
  | SliceBoundsOutOfRange => Some "runtime error: slice bounds out of range"
  | NilDereference =>
      Some "runtime error: invalid memory address or nil pointer dereference"
  | InterfaceConversion => Some "interface conversion"
  | ExplicitPanic _ => None
  end.

(** [xs[i]] on a slice. *)
Definition elementAt {A : Type} (xs : list A) (i : nat) : outcome A :=
  match xs !! i with
  | Some x => Done x
  | None => Panics (IndexOutOfRange i (length xs))
  end.

Section WithLibraries.
Context `{Libraries}.

(** [ParsePemEcdsaPublicKey] *)
Definition ParsePemEcdsaPublicKey (pkbts : list byte)
    : outcome (option EcdsaKey * option goerror) :=
  match pemDecode pkbts with
  | None => Panics NilDereference
  | Some blockBytes =>
      genericPk ← ParsePKIXPublicKey blockBytes;
      match genericPk with
      | inr err => Done (None, Some err)
      | inl (EcdsaPublicKey pk) => Done (Some pk, None)
      | inl OtherPublicKey =>
          Done (None, Some (Errorf "Invalid scheme manager public key"))
      end
  end.

(** The body of [VerifySignature], before the deferred function runs. *)
Definition verifySignatureBody (w : World) (conf : Configuration) (id : string)
    : outcome (option goerror) :=
  let dir := Join [Path conf; id] in
  match AssertPathExists w [dir +:+ "/index"; dir +:+ "/index.sig"; dir +:+ "/pk.pem"] with
  | Some _ =>
      Done (Some (Errorf "Missing scheme manager index file, signature, or public key"))
  | None =>
      let '(indexbts, err) := ReadFile w (dir +:+ "/index") in
      match err with
      | Some e => Done (Some e)
      | None =>
          let indexhash := Sha256.Sum256 indexbts in
          let '(pkbts, err) := ReadFile w (dir +:+ "/pk.pem") in
          match err with
          | Some e => Done (Some e)
          | None =>
              '(pk, err) ← ParsePemEcdsaPublicKey pkbts;
              match pk, err with
              | _, Some e => Done (Some e)
              | None, None => Panics NilDereference
              | Some pk, None =>
                  let '(sig, err) := ReadFile w (dir +:+ "/index.sig") in
                  match err with
                  | Some e => Done (Some e)
                  | None =>
                      ints ← asn1Unmarshal sig;
                      r ← elementAt ints 0;
                      s ← elementAt ints 1;
                      ok ← ecdsaVerify pk indexhash r s;
                      if negb ok then
                        Done (Some (Errorf "Scheme manager signature was invalid"))
                      else Done None
                  end
              end
          end
      end
  end.

(** [VerifySignature]: the deferred function turns a panic of the body
    into an error. *)
Definition VerifySignature (w : World) (conf : Configuration) (id : string)
    : outcome (option goerror) :=
  match verifySignatureBody w conf id with
  | Done err => Done err
  | Panics p =>
      match panicError p with
      | Some msg =>
          Done (Some (Errorf ("Scheme manager index signature failed to verify: "
                                +:+ msg)))
      | None => Done (Some (Errorf "Scheme manager index signature failed to verify"))
      end
  end.

(** The loop of [VerifySchemeManager] over the files of the index. *)
Fixpoint verifyFiles (w : World) (conf : Configuration) (manager : SchemeManager)
    (entries : list (string * list byte)) : option goerror :=
  match entries with
  | [] => None
  | (file, _) :: rest =>
      let '(found, err) := PathExists w (Join [Path conf; file]) in
      match err with
      | Some e => Some e
      | None =>
          if negb found then verifyFiles w conf manager rest
          else
            match ReadAuthenticatedFile w conf manager file with
            | (_, _, Some e) => Some e
            | (_, _, None) => verifyFiles w conf manager rest
            end
      end
  end.

(** [VerifySchemeManager] *)
Definition VerifySchemeManager (w : World) (conf : Configuration)
    (manager : SchemeManager) : outcome (option goerror) :=
  err ← VerifySignature w conf (SchemeManager_Identifier manager);
  match err with
  | Some e => Done (Some e)
  | None =>
      Done (verifyFiles w conf manager (map_to_list (SchemeManager_index manager)))
  end.

(** The callback of [checkUnsignedFiles] on one visited path; [isDir] is
    [None] when [Walk] could not stat the path. *)
Definition checkVisitedPath (w : World) (index : SchemeManagerIndex)
    (path : string) (isDir : option bool) : method (option goerror) :=
  conf ← getConf;
  '(relpath, err) ← liftOutcome (relativePath w (Path conf) path);
  match err with
  | Some e => mret (Some e)
  | None =>
      if existsb (fun ex => MatchString ex relpath) sigExceptions then mret None
      else
        match isDir with
        | None => liftOutcome (Panics NilDereference)
        | Some true =>
            (if negb (dirInScheme index relpath)
             then warn ("Ignored dir: " +:+ relpath) else mret tt) ;;
            mret None
        | Some false =>
            (if negb (bool_decide (is_Some (index !! relpath)))
             then warn ("Ignored file: " +:+ relpath) else mret tt) ;;
            mret None
        end
  end.

Fixpoint checkVisited (w : World) (index : SchemeManagerIndex)
    (visited : list (string * bool)) : method (option goerror) :=
  match visited with
  | [] => mret None
  | (path, isDir) :: rest =>
      err ← checkVisitedPath w index path (Some isDir);
      match err with
      | Some e => mret (Some e)
      | None => checkVisited w index rest
      end
  end.

(** [checkUnsignedFiles] *)
Definition checkUnsignedFiles (w : World) (name : string)
    (index : SchemeManagerIndex) : method (option goerror) :=
  conf ← getConf;
  let root := Join [Path conf; name] in
  match Walk w root with
  | None => checkVisitedPath w index root None
  | Some visited => checkVisited w index visited
  end.

(** [parseIndex]: the index (empty for nil) and the error. *)
Definition parseIndex (w : World) (name : string)
    : method (SchemeManagerIndex * option goerror) :=
  conf ← getConf;
  let path := Join [Path conf; name; "index"] in
  match AssertPathExists w [path] with
  | Some _ =>
      mret (∅, Some (Errorf ("Missing scheme manager index file; tried " +:+ path)))
  | None =>
      let '(indexbts, err) := ReadFile w path in
      match err with
      | Some e => mret (∅, Some e)
      | None =>
          let '(index, err) := FromString ∅ (string_of_list_byte indexbts) in
          match err with
          | Some e => mret (∅, Some e)
          | None =>
              err ← checkUnsignedFiles w name index;
              mret (index, err)
          end
      end
  end.

(** [pathToDescription]: the description after [xml.Unmarshal], whether
    the file exists, and the error. *)
Definition pathToDescription {D : Type}
    (unmarshal : list byte -> D -> D * option goerror)
    (w : World) (conf : Configuration) (manager : SchemeManager)
    (path : string) (description : D) : outcome (D * bool * option goerror) :=
  match Stat w path with
  | None => Done (description, false, None)
  | Some _ =>
      '(relativepath, err) ← relativePath w (Path conf) path;
      match err with
      | Some e => Done (description, false, Some e)
      | None =>
          let '(bts, found, err) :=
            ReadAuthenticatedFile w conf manager relativepath in
          if negb found then
            match map_to_list (SchemeManager_index manager) with
            | (p, _) :: _ =>
                if IndexSlash p <? 0 then Panics SliceBoundsOutOfRange
                else
                  let expectedName := substring 0 (Z.to_nat (IndexSlash p)) p in
                  Done (description, false,
                        Some (Errorf ("Folder must be called " +:+ expectedName
                                        +:+ ", not " +:+ SchemeManager_ID manager)))
            | [] => Done (description, false, Some (Errorf ""))
            end
          else
            match err with
            | Some e => Done (description, true, Some e)
            | None =>
                let '(d, err) := unmarshal bts description in
                match err with
                | Some e => Done (d, true, Some e)
                | None => Done (d, true, None)
                end
            end
      end
  end.

(** [for _, x := range l { f x }] in a method. *)
Fixpoint forEachM {A : Type} (f : A -> method unit) (l : list A) : method unit :=
  match l with
  | [] => mret tt
  | x :: rest => f x ;; forEachM f rest
  end.

(** [checkTranslations], on the fields of type [TranslatedString]. *)
Definition checkTranslations (file : string)
    (translated : list (string * TranslatedString)) : method unit :=
  forEachM (fun field : string * TranslatedString =>
    forEachM (fun lang : string =>
      if negb (bool_decide (is_Some (snd field !! lang))) then
        warn (file +:+ " misses " +:+ lang +:+ " translation in <"
                +:+ fst field +:+ "> tag")
      else mret tt) ["en"; "nl"]) translated.

(** [checkScheme] of the scheme manager held under [key]. *)
Definition checkScheme (w : World) (key : string) (dir : string)
    : method (option goerror) :=
  scheme ← managerAt key;
  if SchemeManager_XMLVersion scheme <? 7 then
    updateManager key (fun m => setStatus m SchemeManagerStatusParsingError) ;;
    mret (Some (Errorf "Unsupported scheme manager description"))
  else if negb (String.eqb (Base dir) (SchemeManager_ID scheme)) then
    updateManager key (fun m => setStatus m SchemeManagerStatusParsingError) ;;
    mret (Some (Errorf ("Scheme " +:+ SchemeManager_ID scheme
                          +:+ " has wrong directory name " +:+ Base dir)))
  else
    match (if negb (String.eqb (KeyshareServer scheme) "")
           then AssertPathExists w [Join [dir; "kss-0.pem"]] else None) with
    | Some _ =>
        updateManager key (fun m => setStatus m SchemeManagerStatusParsingError) ;;
        mret (Some (Errorf ("Scheme " +:+ SchemeManager_ID scheme
                +:+ " has keyshare URL but no keyshare public key kss-0.pem")))
    | None =>
        checkTranslations ("Scheme " +:+ SchemeManager_ID scheme)
          (descTranslated (description scheme)) ;;
        mret None
    end.

(** The directory of [pubkeyPattern], ["%s/%s/%s/PublicKeys/*.xml"]. *)
Definition publicKeysDir (conf : Configuration) (issuerid : string) : string :=
  Path conf +:+ "/" +:+ Name (Parent issuerid) +:+ "/" +:+ Name issuerid
    +:+ "/PublicKeys".

(** [checkIssuer] *)
Definition checkIssuer (w : World) (manager : SchemeManager) (issuer : Issuer)
    (dir : string) : method (option goerror) :=
  let issuerid := Issuer_Identifier issuer in
  checkTranslations ("Issuer " +:+ issuerid) (Issuer_Translated issuer) ;;
  conf ← getConf;
  let files_ := Glob w (publicKeysDir conf issuerid) ".xml" in
  (if (length files_ =? 0)%nat
   then warn ("Issuer " +:+ issuerid +:+ " has no public keys") else mret tt) ;;
  if negb (String.eqb (Base dir) (Issuer_ID issuer)) then
    mret (Some (Errorf ("Issuer " +:+ issuerid +:+ " has wrong directory name "
                          +:+ Base dir)))
  else if negb (String.eqb (SchemeManager_ID manager) (Issuer_SchemeManagerID issuer)) then
    mret (Some (Errorf ("Issuer " +:+ issuerid +:+ " has wrong SchemeManager "
                          +:+ Issuer_SchemeManagerID issuer)))
  else
    (if bool_decide (is_Some (AssertPathExists w [dir +:+ "/logo.png"]))
     then warn ("Issuer " +:+ issuerid +:+ " has no logo.png") else mret tt) ;;
    mret None.

(** The loop of [checkAttributes]: the display indices seen. *)
Fixpoint checkAttributeList (name : string) (count : Z) (i : Z)
    (attrs : list AttributeType) (indices : gset Z) : method (gset Z) :=
  match attrs with
  | [] => mret indices
  | attr :: rest =>
      checkTranslations ("Attribute " +:+ AttributeType_ID attr
                           +:+ " of credential type " +:+ name)
        (AttributeType_Translated attr) ;;
      let index := default i (DisplayIndex attr) in
      (if index >=? count then
         warn ("Credential type " +:+ name
                 +:+ " has invalid attribute displayIndex at attribute " +:+ Itoa i)
       else mret tt) ;;
      checkAttributeList name count (i + 1) rest ({[index]} ∪ indices)
  end.

(** [checkAttributes] *)
Definition checkAttributes (cred : CredentialType) : method (option goerror) :=
  let name := CredentialType_Identifier cred in
  let count := Z.of_nat (length (AttributeTypes_ cred)) in
  if count =? 0 then
    mret (Some (Errorf ("Credenial type " +:+ name +:+ " has no attributes")))
  else
    indices ← checkAttributeList name count 0 (AttributeTypes_ cred) ∅;
    (if negb (Z.of_nat (size indices) =? count) then
       warn ("Credential type " +:+ name
               +:+ " has invalid attribute ordering, check the displayIndex tags")
     else mret tt) ;;
    mret None.

(** [checkCredentialType] *)
Definition checkCredentialType (w : World) (manager : SchemeManager)
    (issuer : Issuer) (cred : CredentialType) (dir : string)
    : method (option goerror) :=
  let credid := CredentialType_Identifier cred in
  checkTranslations ("Credential type " +:+ credid) (CredentialType_Translated cred) ;;
  if CredentialType_XMLVersion cred <? 4 then
    mret (Some (Errorf "Unsupported credential type description"))
  else if negb (String.eqb (CredentialType_ID cred) (Base dir)) then
    mret (Some (Errorf ("Credential type " +:+ credid
                          +:+ " has wrong directory name " +:+ Base dir)))
  else if negb (String.eqb (CredentialType_IssuerID cred) (Issuer_ID issuer)) then
    mret (Some (Errorf ("Credential type " +:+ credid +:+ " has wrong IssuerID "
                          +:+ CredentialType_IssuerID cred)))
  else if negb (String.eqb (CredentialType_SchemeManagerID cred)
                  (SchemeManager_ID manager)) then
    mret (Some (Errorf ("Credential type " +:+ credid +:+ " has wrong SchemeManager "
                          +:+ CredentialType_SchemeManagerID cred)))
  else
    (if bool_decide (is_Some (AssertPathExists w [dir +:+ "/logo.png"]))
     then warn ("Credential type " +:+ credid +:+ " has no logo.png")
     else mret tt) ;;
    checkAttributes cred.

(** [addReverseHash] *)
Definition addReverseHash (credid : string) : method unit :=
  let hash := Sha256.Sum256 (list_byte_of_string credid) in
  modify (fun c =>
    setReverseHashes c (<[base64Encode (firstn 16 hash) := credid]> (reverseHashes c))).

(** The loop of [iterateSubfolders].  [S] is the state of the variables
    that the handler closes over. *)
Fixpoint iterateDirs {S : Type} (w : World)
    (handler : string -> S -> method (S * option goerror))
    (dirs : list string) (s : S) : method (S * option goerror) :=
  match dirs with
  | [] => mret (s, None)
  | dir :: rest =>
      match Stat w dir with
      | None => mret (s, Some (PathError "stat" dir))
      | Some (File _) => iterateDirs w handler rest s
      | Some Directory =>
          if HasSuffix dir "/.git" then iterateDirs w handler rest s
          else
            '(s, err) ← handler dir s;
            match err with
            | Some e => mret (s, Some e)
            | None => iterateDirs w handler rest s
            end
      end
  end.

(** [iterateSubfolders] *)
Definition iterateSubfolders {S : Type} (w : World) (path : string)
    (handler : string -> S -> method (S * option goerror)) (s : S)
    : method (S * option goerror) :=
  iterateDirs w handler (Glob w path "") s.

Definition zeroCredentialType : CredentialType :=
  mkCredentialType "" "" "" 0 [] [] false.
Definition zeroIssuer : Issuer := mkIssuer "" "" 0 [] false.

(** The attribute types of a credential type with their position and
    their parents filled in. *)
Fixpoint indexedAttributes (cred : CredentialType) (index : Z)
    (attrs : list AttributeType) : list AttributeType :=
  match attrs with
  | [] => []
  | attr :: rest =>
      mkAttributeType (AttributeType_ID attr) (Optional attr) (DisplayIndex attr)
        (AttributeType_Translated attr) index
        (CredentialType_SchemeManagerID cred) (CredentialType_IssuerID cred)
        (CredentialType_ID cred)
      :: indexedAttributes cred (index + 1) rest
  end.

(** The handler of [parseCredentialsFolder]; the state is [foundcred]. *)
Definition parseCredentialFolder (w : World) (key : string) (issuer : Issuer)
    (dir : string) (foundcred : bool) : method (bool * option goerror) :=
  conf ← getConf;
  manager ← managerAt key;
  '(cred, found, err) ← liftOutcome
    (pathToDescription (fun bts _ => unmarshalCredentialType bts) w conf manager
       (dir +:+ "/description.xml") zeroCredentialType);
  match err with
  | Some e => mret (foundcred, Some e)
  | None =>
      if negb found then mret (foundcred, None)
      else
        err ← checkCredentialType w manager issuer cred dir;
        match err with
        | Some e => mret (foundcred, Some e)
        | None =>
            conf ← getConf;
            match SchemeManagers conf !! CredentialType_SchemeManagerID cred with
            | None => liftOutcome (Panics NilDereference)
            | Some owner =>
                let attrs := indexedAttributes cred 0 (AttributeTypes_ cred) in
                let cred :=
                  mkCredentialType (CredentialType_ID cred)
                    (CredentialType_SchemeManagerID cred)
                    (CredentialType_IssuerID cred) (CredentialType_XMLVersion cred)
                    (CredentialType_Translated cred) attrs
                    (SchemeManager_Valid owner) in
                let credid := CredentialType_Identifier cred in
                modify (fun c =>
                  setCredentialTypes c (<[credid := cred]> (CredentialTypes c))) ;;
                addReverseHash credid ;;
                forEachM (fun attr =>
                  modify (fun c =>
                    setAttributeTypes c
                      (<[GetAttributeTypeIdentifier attr := attr]> (AttributeTypes c))))
                  attrs ;;
                mret (true, None)
            end
        end
  end.

(** [parseCredentialsFolder] *)
Definition parseCredentialsFolder (w : World) (key : string) (issuer : Issuer)
    (path : string) : method (option goerror) :=
  '(foundcred, err) ← iterateSubfolders w path (parseCredentialFolder w key issuer) false;
  (if negb foundcred then
     warn ("Issuer " +:+ Issuer_Identifier issuer +:+ " has no credential types")
   else mret tt) ;;
  mret err.

(** The handler of [parseIssuerFolders]. *)
Definition parseIssuerFolder (w : World) (key : string) (dir : string) (_ : unit)
    : method (unit * option goerror) :=
  conf ← getConf;
  manager ← managerAt key;
  '(issuer, found, err) ← liftOutcome
    (pathToDescription (fun bts _ => unmarshalIssuer bts) w conf manager
       (dir +:+ "/description.xml") zeroIssuer);
  match err with
  | Some e => mret (tt, Some e)
  | None =>
      if negb found then mret (tt, None)
      else if Issuer_XMLVersion issuer <? 4 then
        mret (tt, Some (Errorf "Unsupported issuer description"))
      else
        err ← checkIssuer w manager issuer dir;
        match err with
        | Some e => mret (tt, Some e)
        | None =>
            conf ← getConf;
            match SchemeManagers conf !! Issuer_SchemeManagerID issuer with
            | None =>
                modify (fun c =>
                  setIssuers c (<[Issuer_Identifier issuer := issuer]> (Issuers c))) ;;
                liftOutcome (Panics NilDereference)
            | Some owner =>
                let issuer :=
                  mkIssuer (Issuer_ID issuer) (Issuer_SchemeManagerID issuer)
                    (Issuer_XMLVersion issuer) (Issuer_Translated issuer)
                    (SchemeManager_Valid owner) in
                modify (fun c =>
                  setIssuers c (<[Issuer_Identifier issuer := issuer]> (Issuers c))) ;;
                err ← parseCredentialsFolder w key issuer (dir +:+ "/Issues/");
                mret (tt, err)
            end
        end
  end.

(** [parseIssuerFolders] *)
Definition parseIssuerFolders (w : World) (key : string) (path : string)
    : method (option goerror) :=
  '(_, err) ← iterateSubfolders w path (parseIssuerFolder w key) tt;
  mret err.

(** The body of [ParseSchemeManagerFolder]; the manager is held in
    [conf.SchemeManagers] under [key]. *)
Definition parseSchemeManagerFolderBody (w : World) (dir : string) (key : string)
    : method (option goerror) :=
  conf ← getConf;
  manager ← managerAt key;
  err ← liftOutcome (VerifySignature w conf (SchemeManager_Identifier manager));
  match err with
  | Some e => mret (Some e)
  | None =>
  '(index, err) ← parseIndex w (Base dir);
  updateManager key (fun m => setIndex m index) ;;
  match err with
  | Some e =>
      updateManager key (fun m => setStatus m SchemeManagerStatusInvalidIndex) ;;
      mret (Some e)
  | None =>
  conf ← getConf;
  manager ← managerAt key;
  '(desc, found, err) ← liftOutcome
    (pathToDescription unmarshalSchemeManager w conf manager
       (dir +:+ "/description.xml") (description manager));
  updateManager key (fun m => setDescription m desc) ;;
  match err with
  | Some e =>
      updateManager key (fun m => setStatus m SchemeManagerStatusParsingError) ;;
      mret (Some e)
  | None =>
  if negb found then
    updateManager key (fun m => setStatus m SchemeManagerStatusParsingError) ;;
    mret (Some (Errorf "Scheme manager description not found"))
  else
  err ← checkScheme w key dir;
  match err with
  | Some e => mret (Some e)
  | None =>
  conf ← getConf;
  manager ← managerAt key;
  err ← liftOutcome (VerifySchemeManager w conf manager);
  match err with
  | Some e =>
      updateManager key (fun m => setStatus m SchemeManagerStatusInvalidSignature) ;;
      mret (Some e)
  | None =>
  match readTimestamp w (dir +:+ "/timestamp") with
  | (_, _, Some e) =>
      mret (Some (WrapPrefix e "Could not read scheme manager timestamp"))
  | (_, false, None) =>
      mret (Some (WrapPrefixNil "Could not read scheme manager timestamp"))
  | (None, true, None) => liftOutcome (Panics NilDereference)
  | (Some ts, true, None) =>
  updateManager key (fun m => setTimestamp m ts) ;;
  err ← parseIssuerFolders w key dir;
  match err with
  | Some e =>
      updateManager key (fun m => setStatus m SchemeManagerStatusContentParsingError) ;;
      mret (Some e)
  | None =>
      updateManager key (fun m =>
        setValid (setStatus m SchemeManagerStatusValid) true) ;;
      mret None
  end end end end end end end.

(** [ParseSchemeManagerFolder]: the manager is put into
    [conf.SchemeManagers] under its identifier, where the assignments of
    the body reach it; the deferred function wraps an error of the body. *)
Definition ParseSchemeManagerFolder (w : World) (dir : string)
    (manager : SchemeManager) : method (option goerror) :=
  let key := SchemeManager_Identifier manager in
  modify (fun c => setSchemeManagers c (<[key := manager]> (SchemeManagers c))) ;;
  err ← parseSchemeManagerFolderBody w dir key;
  match err with
  | Some e =>
      manager ← managerAt key;
      mret (Some (SchemeManagerError (SchemeManager_Identifier manager)
                    (Status_ manager) e))
  | None => mret None
  end.

(** Methods that also write to the disk or use the network: the
    configuration and the world afterwards, and the result. *)
Definition action (A : Type) : Type :=
  Configuration * World -> Configuration * World * outcome A.

#[global] Instance action_ret : MRet action := fun A a s => (s, Done a).
#[global] Instance action_bind : MBind action := fun A B k m s =>
  match m s with
  | (s', Done a) => k a s'
  | (s', Panics p) => (s', Panics p)
  end.

Definition getState : action (Configuration * World) := fun s => (s, Done s).
Definition liftMethod {A : Type} (m : World -> method A) : action A :=
  fun s => let '(c, r) := m (snd s) (fst s) in ((c, snd s), r).
Definition liftWorld {A : Type} (f : World -> World * A) : action A :=
  fun s => let '(w, a) := f (snd s) in ((fst s, w), Done a).
Definition liftWorldOutcome {A : Type} (f : World -> World * outcome A) : action A :=
  fun s => let '(w, r) := f (snd s) in ((fst s, w), r).

(** [isUpToDate] *)
Definition isUpToDate (w : World) (conf : Configuration) (scheme : string)
    : outcome (bool * option goerror) :=
  if String.eqb (assets conf) "" || readOnly conf then Done (true, None)
  else
    let name := scheme in
    match readTimestamp w (Join [assets conf; name; "timestamp"]) with
    | (_, _, Some e) =>
        Done (true, Some (WrapPrefix e ("Could not read asset timestamp of scheme "
                                           +:+ name)))
    | (_, false, None) =>
        Done (true, Some (WrapPrefixNil ("Could not read asset timestamp of scheme "
                                            +:+ name)))
    | (newTime, true, None) =>
        match readTimestamp w (Join [Path conf; name; "timestamp"]) with
        | (_, _, Some e) => Done (true, Some e)
        | (_, false, None) => Done (false, None)
        | (oldTime, true, None) =>
            match newTime, oldTime with
            | Some n, Some o => Done (negb (n >? o), None)
            | _, _ => Panics NilDereference
            end
        end
    end.

(** [CopyManagerFromAssets] *)
Definition CopyManagerFromAssets (scheme : string) : action (bool * option goerror) :=
  '(conf, _) ← getState;
  if String.eqb (assets conf) "" || readOnly conf then mret (false, None)
  else
    let name := scheme in
    err ← liftWorld (fun w => RemoveAll w (Join [Path conf; name]));
    match err with
    | Some e => mret (false, Some e)
    | None =>
        err ← liftWorldOutcome (fun w =>
                CopyDirectory w (Join [assets conf; name]) (Join [Path conf; name]));
        mret (true, err)
    end.

(** The loop of [iterateSubfolders] for a handler that writes to disk. *)
Fixpoint iterateDirsWriting (handler : string -> action (option goerror))
    (dirs : list string) : action (option goerror) :=
  match dirs with
  | [] => mret None
  | dir :: rest =>
      '(_, w) ← getState;
      match Stat w dir with
      | None => mret (Some (PathError "stat" dir))
      | Some (File _) => iterateDirsWriting handler rest
      | Some Directory =>
          if HasSuffix dir "/.git" then iterateDirsWriting handler rest
          else
            err ← handler dir;
            match err with
            | Some e => mret (Some e)
            | None => iterateDirsWriting handler rest
            end
      end
  end.

(** The first loop of [ParseFolder]: new or updated scheme managers are
    copied out of the assets into storage. *)
Definition copyFromAssets : action (option goerror) :=
  '(conf, w) ← getState;
  iterateDirsWriting (fun dir =>
    let scheme := Base dir in
    '(conf, w) ← getState;
    '(uptodate, err) ← liftMethod (fun _ => liftOutcome (isUpToDate w conf scheme));
    match err with
    | Some e => mret (Some e)
    | None =>
        if negb uptodate then
          '(_, err) ← CopyManagerFromAssets scheme;
          mret err
        else mret None
    end) (Glob w (assets conf) "").

(** The handler of the second loop of [ParseFolder]; the state is
    [mgrerr]. *)
Definition parseManagerDir (w : World) (dir : string) (mgrerr : option goerror)
    : method (option goerror * option goerror) :=
  let manager := NewSchemeManager (Base dir) in
  let key := SchemeManager_Identifier manager in
  err ← ParseSchemeManagerFolder w dir manager;
  match err with
  | None => mret (mgrerr, None)
  | Some (SchemeManagerError a b c) =>
      manager ← managerAt key;
      modify (fun conf =>
        setDisabledSchemeManagers conf
          (<[SchemeManager_Identifier manager := SchemeManagerError a b c]>
             (DisabledSchemeManagers conf))) ;;
      mret (Some (SchemeManagerError a b c), None)
  | Some e => mret (mgrerr, Some e)
  end.

(** [ParseFolder] *)
Definition ParseFolder : action (option goerror) :=
  liftMethod (fun _ => modify clear) ;;
  '(conf, _) ← getState;
  err ← (if negb (String.eqb (assets conf) "") then copyFromAssets else mret None);
  match err with
  | Some e => mret (Some e)
  | None =>
      '(mgrerr, err) ← liftMethod (fun w =>
        conf ← getConf;
        iterateSubfolders w (Path conf) (parseManagerDir w) None);
      match err with
      | Some e => mret (Some e)
      | None =>
          liftMethod (fun _ => modify (fun c => setInitialized c true)) ;;
          mret mgrerr
      end
  end.

(** ** The remote mirror *)

(** Modelled from the spec: the HTTP transport is defined outside the
    files at hand.  The remote mirror protocol is an "HTTP GET of each
    file under the scheme URL"; a download with a hash is "verified ...
    before being committed", and files are written with [fs.SaveFile]. *)
Definition NewHTTPTransport (server : string) : string :=
  if negb (String.eqb server "") && negb (HasSuffix server "/")
  then server +:+ "/" else server.

Definition GetBytes (transport : string) (url : string)
    : action (list byte * option goerror) :=
  liftWorld (fun w =>
    let w' := mkWorld (cwd w) (files w) (unremovable w) (remote w)
                (requests w ++ [transport +:+ url]) (entropy w) in
    match remote w !! (transport +:+ url) with
    | Some b => (w', (b, None))
    | None => (w', ([], Some (ExternalError "transport")))
    end).

Definition GetSignedFile (transport : string) (url dest : string)
    (hash : option (list byte)) : action (option goerror) :=
  '(b, err) ← GetBytes transport url;
  match err with
  | Some e => mret (Some e)
  | None =>
      let sha := Sha256.Sum256 b in
      match hash with
      | Some h =>
          if negb (bytesEqual h sha) then
            mret (Some (Errorf ("Signature over new file " +:+ dest
                                  +:+ " is not valid")))
          else liftWorld (fun w => SaveFile w dest b)
      | None => liftWorld (fun w => SaveFile w dest b)
      end
  end.

Definition GetFile (transport : string) (url dest : string) : action (option goerror) :=
  GetSignedFile transport url dest None.

(** Modelled from the spec: [IrmaIdentifierSet] is defined outside the
    files at hand; it is the caller's change set. *)
Record IrmaIdentifierSet : Type := mkIrmaIdentifierSet {
  set_SchemeManagers : gset string;
  set_Issuers : gset string;
  set_CredentialTypes : gset string;
  set_PublicKeys : gmap string (list Z)
}.



(** [DownloadSchemeManagerSignature] *)
Definition DownloadSchemeManagerSignature (manager : SchemeManager)
    : action (option goerror) :=
  '(conf, _) ← getState;
  if readOnly conf then
    mret (Some (Errorf "cannot download into a read-only configuration"))
  else
    let t := NewHTTPTransport (SchemeManager_URL manager) in
    let path := Path conf +:+ "/" +:+ SchemeManager_ID manager in
    let index := Join [path; "index"] in
    let sig := Join [path; "index.sig"] in
    err ← GetFile t "index" index;
    match err with
    | Some e => mret (Some e)
    | None =>
        err ← GetFile t "index.sig" sig;
        match err with
        | Some e => mret (Some e)
        | None =>
            liftMethod (fun w =>
              conf ← getConf;
              liftOutcome (VerifySignature w conf (SchemeManager_Identifier manager)))
        end
    end.

Definition issPattern : string := "(.+)/(.+)/description\.xml".
Definition credPattern : string := "(.+)/(.+)/Issues/(.+)/description\.xml".

(** The loop of [UpdateSchemeManager] over the new index; [manager] is
    the scheme manager as it is during the loop. *)
Fixpoint updateFiles (manager : SchemeManager) (transport : string)
    (entries : list (string * list byte)) (downloaded : option IrmaIdentifierSet)
    : action (option IrmaIdentifierSet * option goerror) :=
  match entries with
  | [] => mret (downloaded, None)
  | (filename, newHash) :: rest =>
      '(conf, w) ← getState;
      let path := Join [Path conf; filename] in
      let old := SchemeManager_index manager !! filename in
      let '(have, err) := PathExists w path in
      match err with
      | Some e => mret (downloaded, Some e)
      | None =>
          if bool_decide (is_Some old) && have
             && ConfigurationFileHash_Equal (default [] old) newHash
          then updateFiles manager transport rest downloaded
          else
            err ← liftWorld (fun w => MkdirAll w (Dir path));
            match err with
            | Some e => mret (downloaded, Some e)
            | None =>
                stripped ← liftMethod (fun _ => liftOutcome
                  (sliceFrom filename (String.length (SchemeManager_ID manager) + 1)));
                err ← GetSignedFile transport stripped path (Some newHash);
                match err with
                | Some e => mret (downloaded, Some e)
                | None =>
                    match downloaded with
                    | None => updateFiles manager transport rest downloaded
                    | Some set =>
                        let matches := FindStringSubmatch issPattern filename in
                        let set :=
                          if (length matches =? 3)%nat then
                            mkIrmaIdentifierSet (set_SchemeManagers set)
                              ({[nth 1 matches "" +:+ "." +:+ nth 2 matches ""]}
                                 ∪ set_Issuers set)
                              (set_CredentialTypes set) (set_PublicKeys set)
                          else set in
                        let matches := FindStringSubmatch credPattern filename in
                        let set :=
                          if (length matches =? 4)%nat then
                            mkIrmaIdentifierSet (set_SchemeManagers set)
                              (set_Issuers set)
                              ({[nth 1 matches "" +:+ "." +:+ nth 2 matches ""
                                   +:+ "." +:+ nth 3 matches ""]}
                                 ∪ set_CredentialTypes set)
                              (set_PublicKeys set)
                          else set in
                        updateFiles manager transport rest (Some set)
                    end
                end
            end
      end
  end.

(** [UpdateSchemeManager]: the change set afterwards, and the error. *)
Definition UpdateSchemeManager (id : string) (downloaded : option IrmaIdentifierSet)
    : action (option IrmaIdentifierSet * option goerror) :=
  '(conf, _) ← getState;
  if readOnly conf then
    mret (downloaded, Some (Errorf "cannot update a read-only configuration"))
  else
    match SchemeManagers conf !! id with
    | None =>
        mret (downloaded, Some (Errorf ("Cannot update unknown scheme manager " +:+ id)))
    | Some manager =>
        let transport := NewHTTPTransport (SchemeManager_URL manager +:+ "/") in
        '(timestampBts, err) ← GetBytes transport "timestamp";
        match err with
        | Some e => mret (downloaded, Some e)
        | None =>
            match parseTimestamp timestampBts with
            | inr e => mret (downloaded, Some e)
            | inl timestamp =>
                if negb (Timestamp manager <? timestamp) then mret (downloaded, None)
                else
                  err ← DownloadSchemeManagerSignature manager;
                  match err with
                  | Some e => mret (downloaded, Some e)
                  | None =>
                      '(newIndex, err) ← liftMethod (fun w =>
                        parseIndex w (SchemeManager_ID manager));
                      match err with
                      | Some e => mret (downloaded, Some e)
                      | None =>
                          '(downloaded, err) ←
                            updateFiles manager transport (map_to_list newIndex)
                              downloaded;
                          match err with
                          | Some e => mret (downloaded, Some e)
                          | None =>
                              liftMethod (fun _ =>
                                updateManager id (fun m => setIndex m newIndex)) ;;
                              mret (downloaded, None)
                          end
                      end
                  end
            end
        end
    end.

(** [InstallSchemeManager]; [publickey] is [None] for a nil slice. *)
Definition InstallSchemeManager (manager : SchemeManager)
    (publickey : option (list byte)) : action (option goerror) :=
  '(conf, _) ← getState;
  if readOnly conf then
    mret (Some (Errorf "cannot install scheme into a read-only configuration"))
  else
    let name := SchemeManager_ID manager in
    err ← liftWorld (fun w => EnsureDirectoryExists w (Join [Path conf; name]));
    match err with
    | Some e => mret (Some e)
    | None =>
    let t := NewHTTPTransport (SchemeManager_URL manager) in
    let path := Path conf +:+ "/" +:+ name in
    err ← GetFile t "description.xml" (path +:+ "/description.xml");
    match err with
    | Some e => mret (Some e)
    | None =>
    err ← match publickey with
          | Some pk => liftWorld (fun w => SaveFile w (path +:+ "/pk.pem") pk)
          | None => GetFile t "pk.pem" (path +:+ "/pk.pem")
          end;
    match err with
    | Some e => mret (Some e)
    | None =>
    err ← DownloadSchemeManagerSignature manager;
    match err with
    | Some e => mret (Some e)
    | None =>
    liftMethod (fun _ => modify (fun c =>
      setSchemeManagers c
        (<[SchemeManager_Identifier manager := manager]> (SchemeManagers c)))) ;;
    '(_, err) ← UpdateSchemeManager (SchemeManager_Identifier manager) None;
    match err with
    | Some e => mret (Some e)
    | None =>
        liftMethod (fun w =>
          m ← managerAt (SchemeManager_Identifier manager);
          ParseSchemeManagerFolder w (Join [Path conf; name]) m)
    end end end end end.

(** [DeleteSchemeManager] *)
Definition DeleteSchemeManager (id : string) : action (option goerror) :=
  let name := id in
  liftMethod (fun _ => modify (fun c =>
    let c := setSchemeManagers c (delete id (SchemeManagers c)) in
    let c := setDisabledSchemeManagers c (delete id (DisabledSchemeManagers c)) in
    let c := setIssuers c
      (filter (fun kv => negb (String.eqb (Root (fst kv)) name)) (Issuers c)) in
    let c := setPublicKeys c
      (filter (fun kv => negb (String.eqb (Root (fst kv)) name)) (publicKeys c)) in
    setCredentialTypes c
      (filter (fun kv => negb (String.eqb (Root (fst kv)) name)) (CredentialTypes c)))) ;;
  '(conf, _) ← getState;
  if negb (readOnly conf) then
    liftWorld (fun w => RemoveAll w (Join [Path conf; Name id]))
  else mret None.

(** [RemoveSchemeManager] *)
Definition RemoveSchemeManager (id : string) (fromStorage : bool)
    : action (option goerror) :=
  liftMethod (fun _ => modify (fun c =>
    let c := setCredentialTypes c
      (filter (fun kv => negb (String.eqb (Parent (Parent (fst kv))) id))
         (CredentialTypes c)) in
    let c := setIssuers c
      (filter (fun kv => negb (String.eqb (Parent (fst kv)) id)) (Issuers c)) in
    let c := setPublicKeys c
      (filter (fun kv => negb (String.eqb (Parent (fst kv)) id)) (publicKeys c)) in
    setSchemeManagers c (delete id (SchemeManagers c)))) ;;
  '(conf, _) ← getState;
  if fromStorage || negb (readOnly conf) then
    liftWorld (fun w => RemoveAll w (Path conf +:+ "/" +:+ id))
  else mret None.

(** [Prune] *)
Definition Prune : action unit :=
  '(conf, _) ← getState;
  fold_right (fun (kv : string * SchemeManager) (rest : action unit) =>
                (if negb (SchemeManager_Valid (snd kv)) then
                   RemoveSchemeManager (SchemeManager_Identifier (snd kv)) false ;;
                   mret tt
                 else mret tt) ;;
                rest)
    (mret tt) (map_to_list (SchemeManagers conf)).

(** [DownloadSchemeManager] *)
Definition DownloadSchemeManager (url : string)
    : action (option SchemeManager * option goerror) :=
  let url := if negb (HasPrefix url "http://") && negb (HasPrefix url "https://")
             then "https://" +:+ url else url in
  let url := if HasSuffix url "/" then substring 0 (String.length url - 1) url
             else url in
  let url := if HasSuffix url "/description.xml"
             then substring 0 (String.length url - String.length "/description.xml") url
             else url in
  '(b, err) ← GetBytes (NewHTTPTransport url) "description.xml";
  match err with
  | Some e => mret (None, Some e)
  | None =>
      let manager := NewSchemeManager "" in
      let '(desc, err) := unmarshalSchemeManager b (description manager) in
      match err with
      | Some e => mret (None, Some e)
      | None =>
          let desc := mkSchemeManagerDescription (descID desc) url
                        (descKeyshareServer desc) (descXMLVersion desc)
                        (descTranslated desc) in
          mret (Some (setDescription manager desc), None)
      end
  end.

(** [ReinstallSchemeManager]; [manager] is [None] for a nil pointer. *)
Definition ReinstallSchemeManager (manager : option SchemeManager)
    : action (option goerror) :=
  '(conf, _) ← getState;
  if readOnly conf then
    mret (Some (Errorf "cannot install scheme into a read-only configuration"))
  else
    match manager with
    | None => liftMethod (fun _ => liftOutcome (Panics NilDereference))
    | Some manager =>
        '(manager, err) ← DownloadSchemeManager (SchemeManager_URL manager);
        match manager, err with
        | _, Some e => mret (Some e)
        | None, None => liftMethod (fun _ => liftOutcome (Panics NilDereference))
        | Some manager, None =>
            err ← DeleteSchemeManager (SchemeManager_Identifier manager);
            match err with
            | Some e => mret (Some e)
            | None => InstallSchemeManager manager None
            end
        end
    end.















End WithLibraries.

(** * internal/fs/fs.go: the remaining functions *)

(** [fs.AssertPathNotExists] *)
Fixpoint AssertPathNotExists (w : World) (paths : list string) : option goerror :=
  match paths with
  | [] => None
  | p :: rest =>
      let '(found, err) := PathExists w p in
      match err with
      | Some e => Some e
      | None =>
          if found then Some (Errorf ("Path " +:+ p +:+ " exists but should not"))
          else AssertPathNotExists w rest
      end
  end.

(** [fs.Copy] *)
Definition Copy (w : World) (src dest : string) : World * option goerror :=
  let '(found, err) := PathExists w src in
  match err with
  | Some e => (w, Some e)
  | None =>
      if negb found then (w, None)
      else
        let '(bts, err) := ReadFile w src in
        match err with
        | Some e => (w, Some e)
        | None => SaveFile w dest bts
        end
  end.

(** [fs.ReadKey] *)
Definition ReadKey (w : World) (key path : string) : list byte * option goerror :=
  if (negb (String.eqb key "") && negb (String.eqb path ""))
     || (String.eqb key "" && String.eqb path "")
  then ([], Some (Errorf "provide either key or path to key"))
  else
    let '(bts, err) :=
      if String.eqb path "" then (list_byte_of_string key, None)
      else
        match Stat w path with
        | None => ([], Some (Errorf "no key found at specified path"))
        | Some Directory => ([], Some (Errorf "cannot read key from a directory"))
        | Some (File _) => ReadFile w path
        end in
    match err with
    | Some e => ([], Some e)
    | None =>
        if (length bts =? 0)%nat then ([], Some (Errorf "empty key provided"))
        else (bts, None)
    end.

(** [newConfiguration]: the world afterwards, the configuration ([None]
    for nil) and the error. *)
Definition newConfiguration (path assets_ : string) (w : World)
    : World * (option Configuration * option goerror) :=
  let conf := mkConfiguration ∅ ∅ ∅ ∅ path ∅ [] ∅ ∅ false assets_ false in
  match (if negb (String.eqb (assets conf) "")
         then AssertPathExists w [assets conf] else None) with
  | Some err => (w, (None, Some (WrapPrefix err "Nonexistent assets folder specified")))
  | None =>
      let '(w, err) := EnsureDirectoryExists w (Path conf) in
      match err with
      | Some e => (w, (None, Some e))
      | None => (w, (Some (clear conf), None))
      end
  end.

(** [NewConfiguration] *)
Definition NewConfiguration (path : string) (w : World)
    : World * (option Configuration * option goerror) :=
  newConfiguration path "" w.

(** [NewConfigurationReadOnly] *)
Definition NewConfigurationReadOnly (path : string) (w : World)
    : World * (option Configuration * option goerror) :=
  let '(w, (conf, err)) := newConfiguration path "" w in
  match err, conf with
  | Some e, _ => (w, (None, Some e))
  | None, Some conf =>
      (w, (Some (mkConfiguration (SchemeManagers conf) (Issuers conf)
                   (CredentialTypes conf) (AttributeTypes conf) (Path conf)
                   (DisabledSchemeManagers conf) (Warnings conf) (publicKeys conf)
                   (reverseHashes conf) (initialized conf) (assets conf) true),
           None))
  | None, None => (w, (None, None))
  end.

(** [NewConfigurationFromAssets] *)
Definition NewConfigurationFromAssets (path assets_ : string) (w : World)
    : World * (option Configuration * option goerror) :=
  newConfiguration path assets_ w.

(** * irmaconfig.go: queries on the configuration *)

(** [hashToCredentialType]; [None] for nil. *)
Definition hashToCredentialType (conf : Configuration) (hash : list byte)
    : option CredentialType :=
  match reverseHashes conf !! base64Encode hash with
  | Some str => CredentialTypes conf !! str
  | None => None
  end.

(** [Contains]; the maps hold no nil pointers. *)
Definition Contains (conf : Configuration) (cred : string) : bool :=
  bool_decide (is_Some (SchemeManagers conf !! Parent (Parent cred)))
  && bool_decide (is_Some (Issuers conf !! Parent cred))
  && bool_decide (is_Some (CredentialTypes conf !! cred)).

(** * irmaconfig.go: restoring broken schemes *)
Section Restoring.
Context `{Libraries}.

(** The loop of [ParseOrRestoreFolder] over the disabled scheme managers,
    in the order in which the map yields their identifiers; [err] is the
    variable of that name. *)
Fixpoint restoreDisabled (ids : list string) (err : option goerror)
    : action (option goerror) :=
  match ids with
  | [] => mret err
  | id :: rest =>
      '(conf, _) ← getState;
      err ← ReinstallSchemeManager (SchemeManagers conf !! id);
      match err with
      | None => restoreDisabled rest None
      | Some _ =>
          '(_, err) ← CopyManagerFromAssets id;
          match err with
          | Some e => mret (Some e)
          | None =>
              let name := id in
              '(conf, _) ← getState;
              err ← liftMethod (fun w =>
                      ParseSchemeManagerFolder w (Join [Path conf; name])
                        (NewSchemeManager name));
              (match err with
               | None =>
                   liftMethod (fun _ => modify (fun c =>
                     setDisabledSchemeManagers c
                       (delete id (DisabledSchemeManagers c))))
               | Some _ => mret tt
               end) ;;
              restoreDisabled rest err
          end
      end
  end.

(** [ParseOrRestoreFolder] *)
Definition ParseOrRestoreFolder : action (option goerror) :=
  err ← ParseFolder;
  match err with
  | Some (SchemeManagerError _ _ _) =>
      '(conf, _) ← getState;
      if String.eqb (assets conf) "" || readOnly conf then mret err
      else restoreDisabled (fst <$> map_to_list (DisabledSchemeManagers conf)) err
  | _ => mret err
  end.

End Restoring.


(** * Notions used to state the properties *)

(** ** Protocol versions *)

(** Versions are pairs (major, minor), ordered lexicographically. *)
Definition versionLe (a b : Z * Z) : Prop :=
  a.1 < b.1 \/ (a.1 = b.1 /\ a.2 <= b.2).

Definition inRange (lo hi v : Z * Z) : Prop := versionLe lo v /\ versionLe v hi.

Definition supportedIn (supported : gmap Z (list Z)) (v : Z * Z) : Prop :=
  exists minors, supported !! v.1 = Some minors /\ v.2 ∈ minors.

Definition versionString (v : Z * Z) : string := Itoa v.1 +:+ "." +:+ Itoa v.2.

(** A version whose major and minor numbers have one decimal digit each. *)
Definition singleDigit (v : Z * Z) : Prop := 0 <= v.1 <= 9 /\ 0 <= v.2 <= 9.

(** The decimal digit at position [i] of [s]. *)
Definition readDigit (s : string) (i : nat) : option Z :=
  match String.get i s with
  | Some c => if isDigit c then Some (digitValue c) else None
  | None => None
  end.

(** The range [min, max] of a QR whose version strings have digits at the
    positions 0 and 2. *)
Definition versionRange (qr : Qr) : option ((Z * Z) * (Z * Z)) :=
  match readDigit (ProtocolVersion qr) 0, readDigit (ProtocolVersion qr) 2,
        readDigit (ProtocolMaxVersion qr) 0, readDigit (ProtocolMaxVersion qr) 2 with
  | Some a, Some b, Some c, Some d => Some ((a, b), (c, d))
  | _, _, _, _ => None
  end.

(** The first position, in the order in which [calcVersion] reads them,
    that holds no decimal digit: either the string ends before it, or it
    holds another character. *)
Inductive versionFault : Type :=
| MissingAt (i length : nat)
| NotADigit.

Fixpoint firstFault (positions : list (string * nat)) : option versionFault :=
  match positions with
  | [] => None
  | (s, i) :: rest =>
      match String.get i s with
      | None => Some (MissingAt i (String.length s))
      | Some c => if isDigit c then firstFault rest else Some NotADigit
      end
  end.

Definition versionPositions (qr : Qr) : list (string * nat) :=
  [ (ProtocolVersion qr, 0%nat); (ProtocolVersion qr, 2%nat);
    (ProtocolMaxVersion qr, 0%nat); (ProtocolMaxVersion qr, 2%nat) ].

(** What version negotiation yields, without the text of the error. *)
Definition negotiated (r : outcome (string * option goerror)) : outcome (option string) :=
  match r with
  | Done (version, None) => Done (Some version)
  | Done (_, Some _) => Done None
  | Panics p => Panics p
  end.

(** ** Terminal callbacks *)

Definition isTerminal (e : event) : bool :=
  match e with
  | EvSuccess _ | EvCancelled _ | EvFailure _ _ => true
  | _ => false
  end.

Definition isFailure (e : event) : bool :=
  match e with
  | EvFailure _ _ => true
  | _ => false
  end.

Definition terminals (t : list event) : list event := List.filter isTerminal t.

(** No event follows a failure. *)
Fixpoint failureIsLast (t : list event) : bool :=
  match t with
  | [] => true
  | e :: rest =>
      if isFailure e then match rest with [] => true | _ => false end
      else failureIsLast rest
  end.

(** A session whose request can be satisfied, whose user cancels. *)
Definition envCancelled : Env :=
  mkEnv None false 0 [false] false false false [] None "VALID" false.
(** A session whose request cannot be satisfied from the held credentials. *)
Definition envUnsatisfiable : Env :=
  mkEnv None false 1 [true] false false false [] None "VALID" false.
(** A keyshare session whose proof builders cannot be made. *)
Definition envBuildersFail : Env :=
  mkEnv None false 0 [true] true false true [ReplyDone ProofList] None "VALID" false.
Definition qrDisclosure : Qr :=
  mkQr "https://example.org/session" "2.1" "2.2" ActionDisclosing.

(** The terminal callbacks of a run, computed: at most one; no event after
    a failure; and none only for one of four reasons. *)
Definition terminalCheck (env : Env) (run : proc unit) : bool :=
  let '(t, r) := run in
  (length (terminals t) <=? 1)%nat
  && failureIsLast t
  && ((0 <? length (terminals t))%nat
      || match r with Panics _ => true | Done _ => false end
      || existsb (fun e => match e with EvUnsatisfiableRequest _ => true | _ => false end) t
      || match permission env with [] => true | _ => false end
      || (distributed env
          && match keyshareReplies env with [] => true | _ => false end)).


(** ** Index texts *)

Definition chars (s : string) : list ascii := list_ascii_of_string s.

Definition noSpace (s : string) : bool :=
  forallb (fun c => negb (Ascii.eqb c space)) (chars s).

Definition isHexDigit (c : ascii) : bool :=
  match fromHexChar c with
  | Some _ => true
  | None => false
  end.

(** A string of hexadecimal digits of even length. *)
Definition hexString (h : string) : bool :=
  Nat.even (String.length h) && forallb isHexDigit (chars h).

(** A line that holds an entry: a hash in hexadecimal, one space, a path. *)
Definition entryLine (line h p : string) : Prop :=
  line = h +:+ " " +:+ p /\ noSpace h = true /\ noSpace p = true /\ hexString h = true.

Definition wellFormedLine (line : string) : Prop :=
  line = "" \/ exists h p, entryLine line h p.

(** The lines of a text. *)
Definition linesOf (s : string) : list string := Split s newline.

(** The text before the first space, and the text after it. *)
Fixpoint cutAtSpace (line : string) : string * string :=
  match line with
  | EmptyString => ("", "")
  | String c rest =>
      if Ascii.eqb c space then ("", rest)
      else let '(h, p) := cutAtSpace rest in (String c h, p)
  end.

(** The entries of an index text: hash text and path of every line that is
    not empty. *)
Definition entries (s : string) : list (string * string) :=
  cutAtSpace <$> List.filter (fun line => negb (String.eqb line "")) (linesOf s).

Definition lowerChar (c : ascii) : ascii :=
  let n := N_of_ascii c in
  if ((65 <=? n) && (n <=? 90))%N then ascii_of_N (n + 32) else c.

Fixpoint toLower (s : string) : string :=
  match s with
  | EmptyString => ""
  | String c rest => String (lowerChar c) (toLower rest)
  end.

Definition entryLe (a b : string * string) : Prop := strLe a.2 b.2.

#[global] Instance entryLe_dec (a b : string * string) : Decision (entryLe a b).
Proof. unfold entryLe. apply _. Defined.

Definition renderEntry (e : string * string) : string :=
  toLower e.1 +:+ " " +:+ e.2 +:+ String newline "".

Fixpoint concatStrings (l : list string) : string :=
  match l with
  | [] => ""
  | s :: rest => s +:+ concatStrings rest
  end.

(** The canonical form of an index text: its entries in the order of their
    paths, each as lower-case hash, one space, path and newline. *)
Definition canonical_sort (s : string) : string :=
  concatStrings (renderEntry <$> merge_sort entryLe (entries s)).

(** The entries that are not overridden by a later entry for the same
    path. *)
Fixpoint lastEntries (es : list (string * string)) : list (string * string) :=
  match es with
  | [] => []
  | e :: rest =>
      if existsb (fun e' => String.eqb e'.2 e.2) rest then lastEntries rest
      else e :: lastEntries rest
  end.

Fixpoint countChar (sep : ascii) (s : string) : nat :=
  match s with
  | EmptyString => 0
  | String c rest => (if Ascii.eqb c sep then 1 else 0) + countChar sep rest
  end.

(** The index that the entries of a text denote: a later entry for a path
    replaces an earlier one. *)
Definition indexOfEntries (es : list (string * string)) (i : SchemeManagerIndex)
    : SchemeManagerIndex :=
  fold_left (fun m e => <[e.2 := (DecodeString e.1).1]> m) es i.

Definition nl : string := String newline "".

(** An index text with two entries. *)
Definition twoEntries : string :=
  "BB z/description.xml" +:+ nl +:+ nl +:+ "aa a/logo.png" +:+ nl.
(** An index text in which a path occurs twice. *)
Definition repeatedPath : string := "aa p" +:+ nl +:+ "bb p".


(** ** Authenticated files *)

(** Every file that the index of [m] lists either does not exist, as
    [fs.PathExists] reports it, or has the hash that the index records. *)
Definition verified (w : World) (path : string) (m : SchemeManager) : Prop :=
  forall file hash,
    SchemeManager_index m !! file = Some hash ->
    PathExists w (Join [path; file]) = (false, None)
    \/ exists bts, ReadFile w (Join [path; file]) = (bts, None)
                   /\ Sha256.Sum256 bts = hash.

(** The scheme managers and the path of the configuration are the same. *)
Definition sameManagers (c c' : Configuration) : Prop :=
  SchemeManagers c' = SchemeManagers c /\ Path c' = Path c.

(** A method that leaves the scheme managers and the path alone. *)
Definition framed {A : Type} (m : method A) : Prop :=
  forall c c' r, m c = (c', r) -> sameManagers c c'.

(** An action that leaves the configuration in memory alone. *)
Section KeepsConfiguration.
Context `{Libraries}.

Definition keepsConf {A : Type} (a : action A) : Prop :=
  forall c w c' w' r, a (c, w) = ((c', w'), r) -> c' = c.

(** Every scheme manager of the configuration with status Valid has been
    verified against the disk [w]. *)
Definition validVerified (w : World) (c : Configuration) : Prop :=
  forall id m,
    SchemeManagers c !! id = Some m ->
    Status_ m = SchemeManagerStatusValid ->
    verified w (Path c) m.
End KeepsConfiguration.

(** The world after a request for [url], which changes nothing else. *)
Definition fetched (w : World) (url : string) : World :=
  mkWorld (cwd w) (files w) (unremovable w) (remote w) (requests w ++ [url])
    (entropy w).

(** The URL of the timestamp of a scheme on its mirror. *)
Definition timestampURL (manager : SchemeManager) : string :=
  NewHTTPTransport (SchemeManager_URL manager +:+ "/") +:+ "timestamp".


(** ** Session traces *)

Definition needsDelete (e : event) : bool :=
  match e with
  | EvFailure _ _ | EvCancelled _ => true
  | _ => false
  end.

Definition isDelete (e : event) : bool :=
  match e with
  | EvDelete => true
  | _ => false
  end.

(** Every Failure and Cancelled of the trace directly follows a Delete;
    [prev] says whether a Delete directly precedes the trace. *)
Fixpoint releasedFrom (prev : bool) (t : list event) : bool :=
  match t with
  | [] => true
  | e :: rest => (negb (needsDelete e) || prev) && releasedFrom (isDelete e) rest
  end.

Definition released {A : Type} (m : proc A) : Prop := releasedFrom false m.1 = true.

(** All events of a run satisfy [P]. *)
Definition always {A : Type} (P : event -> Prop) (m : proc A) : Prop := Forall P m.1.

(** What the server has answered when a session of action [a] succeeds. *)
Definition accepted (env : Env) (a : Action) : Prop :=
  match a with
  | ActionDisclosing | ActionSigning => postError env = None /\ response env = "VALID"
  | ActionIssuing => postError env = None /\ constructError env = false
  | _ => True
  end.

(** The path to which a session of action [a] posts its response. *)
Definition responsePath (a : Action) : string :=
  match a with
  | ActionIssuing => "commitments"
  | _ => "proofs"
  end.

(** What holds when a session of action [a] posts or reports success;
    [permitted] stands for the permission of the user. *)
Definition justified (env : Env) (a : Action) (permitted : Prop) (e : event) : Prop :=
  match e with
  | EvSuccess a' => a' = a /\ accepted env a /\ permitted
  | EvPost path => path = responsePath a /\ permitted
  | _ => True
  end.

(** ** The index as a text *)

(** The line of an entry without its newline. *)
Definition entryText (i : SchemeManagerIndex) (path : string) : string :=
  EncodeToString (default [] (i !! path)) +:+ " " +:+ path.

(** ** Removing and parsing scheme managers *)

(** Whether [id] is the key of a scheme manager that is not valid. *)
Definition invalidManager (c : Configuration) (id : string) : bool :=
  match SchemeManagers c !! id with
  | Some m => negb (SchemeManager_Valid m)
  | None => false
  end.

(** Every scheme manager is held under its own identifier. *)
Definition keyedByIdentifier (c : Configuration) : Prop :=
  forall k m, SchemeManagers c !! k = Some m -> SchemeManager_Identifier m = k.

(** The loop of [Prune] over the scheme managers in [l]. *)
Definition pruneAll (l : list (string * SchemeManager)) : action unit :=
  fold_right (fun (kv : string * SchemeManager) (rest : action unit) =>
                (if negb (SchemeManager_Valid (snd kv)) then
                   RemoveSchemeManager (SchemeManager_Identifier (snd kv)) false ;;
                   mret tt
                 else mret tt) ;;
                rest)
    (mret tt) l.

(** The identifiers of the scheme managers of [l] that are not valid. *)
Definition pruned (l : list (string * SchemeManager)) : list string :=
  (fun kv => SchemeManager_Identifier (snd kv))
    <$> List.filter (fun kv => negb (SchemeManager_Valid (snd kv))) l.

(** What parsing a scheme leaves alone: the list of disabled scheme
    managers, the flags and the paths of the configuration. *)
Definition sameBookkeeping (c c' : Configuration) : Prop :=
  DisabledSchemeManagers c' = DisabledSchemeManagers c
  /\ initialized c' = initialized c
  /\ readOnly c' = readOnly c
  /\ assets c' = assets c
  /\ Path c' = Path c
  /\ publicKeys c' = publicKeys c.

Definition quiet {A : Type} (m : method A) : Prop :=
  forall c c' r, m c = (c', r) -> sameBookkeeping c c'.

(** What holds between the scheme folders that [ParseFolder] parses:
    [mgrerr] is its variable of that name. *)
Definition parsedSoFar (mgrerr : option goerror) (c : Configuration) : Prop :=
  (forall id m, SchemeManagers c !! id = Some m ->
                (Status_ m = SchemeManagerStatusValid <-> SchemeManager_Valid m = true))
  /\ (mgrerr = None ->
      DisabledSchemeManagers c = ∅
      /\ forall id m, SchemeManagers c !! id = Some m ->
                      Status_ m = SchemeManagerStatusValid)
  /\ (forall e, mgrerr = Some e ->
                (exists id, DisabledSchemeManagers c !! id = Some e)
                /\ exists a b cause, e = SchemeManagerError a b cause).

(** The assets and the read-only flag are the same. *)
Definition sameMode (c c' : Configuration) : Prop :=
  assets c' = assets c /\ readOnly c' = readOnly c.

(** * A demonstration scheme *)

Definition bytes (s : string) : list byte := list_byte_of_string s.
Definition lines (l : list string) : string :=
  fold_right (fun line rest => line +:+ String newline rest) "" l.

(** Stand-ins for the libraries: every key is an ECDSA key, every signature
    is the pair (1, 2) and verifies; the XML decoders know the three
    descriptions of the demonstration scheme. *)
#[local] Instance demoLibraries : Libraries := {|
  pemDecode := fun b => Some b;
  EcdsaKey := unit;
  ParsePKIXPublicKey := fun _ => Done (inl (EcdsaPublicKey tt));
  asn1Unmarshal := fun _ => Done [1; 2];
  ecdsaVerify := fun _ _ _ _ => Done true;
  unmarshalSchemeManager := fun _ d =>
    (mkSchemeManagerDescription "irma-demo" "https://example.org/irma-demo" "" 7 [], None);
  unmarshalIssuer := fun _ => (mkIssuer "RU" "irma-demo" 4 [] false, None);
  unmarshalCredentialType := fun _ =>
    (mkCredentialType "studentCard" "irma-demo" "RU" 4 []
       [mkAttributeType "studentID" "" None [] 0 "" "" ""] false, None);
  NewPublicKeyFromBytes := fun _ => inr (ExternalError "gabi");
  MatchString := fun _ _ => false;
  FindStringSubmatch := fun _ _ => []
|}.

Definition demoIndex : string := lines
  [ "677c17581a33d58fa03f58d1132a6693cd762528b0c11f587c8d5c7d701e5d1f irma-demo/description.xml";
    "eebf91e20c02442b63eae7325e28db3d285606cea9b083773f7013059b044ccb irma-demo/RU/description.xml";
    "51374b3650ae817996be1c18b89c4dee3e358b02c89eb9b2dc736a449d0e2df2 irma-demo/RU/Issues/studentCard/description.xml";
    "eea8254c7500ba3de996aa8ad6af399183f04e17d4a8102fde539dbc93a90012 irma-demo/timestamp";
    "eea8254c7500ba3de996aa8ad6af399183f04e17d4a8102fde539dbc93a90012 irma-demo/RU/logo.png" ].

Definition demoFiles : gmap string node := list_to_map
  [ ("/conf", Directory);
    ("/conf/irma-demo", Directory);
    ("/conf/irma-demo/index", File (bytes demoIndex));
    ("/conf/irma-demo/index.sig", File (bytes "sig"));
    ("/conf/irma-demo/pk.pem", File (bytes "pem"));
    ("/conf/irma-demo/description.xml", File (bytes "<SchemeManager/>"));
    ("/conf/irma-demo/timestamp", File (bytes ("100" +:+ String newline "")));
    ("/conf/irma-demo/RU", Directory);
    ("/conf/irma-demo/RU/description.xml", File (bytes "<Issuer/>"));
    ("/conf/irma-demo/RU/Issues", Directory);
    ("/conf/irma-demo/RU/Issues/studentCard", Directory);
    ("/conf/irma-demo/RU/Issues/studentCard/description.xml",
     File (bytes "<IssueSpecification/>")) ].

Definition demoWorld : World := mkWorld "/" demoFiles ∅ ∅ [] [].
Definition demoConf : Configuration := emptyConfiguration "/conf" "" false.

(** The scheme manager of the demonstration scheme with its index. *)
Definition demoManager : SchemeManager :=
  setIndex (NewSchemeManager "irma-demo") (FromString ∅ demoIndex).1.

(** Decoders that find no PEM block and no integers. *)
Definition brokenLibraries : Libraries := {|
  pemDecode := fun _ => None;
  EcdsaKey := unit;
  ParsePKIXPublicKey := fun _ => Panics NilDereference;
  asn1Unmarshal := fun _ => Done [];
  ecdsaVerify := fun _ _ _ _ => Done false;
  unmarshalSchemeManager := fun _ d => (d, Some (ExternalError "xml"));
  unmarshalIssuer := fun _ => (zeroIssuer, Some (ExternalError "xml"));
  unmarshalCredentialType := fun _ => (zeroCredentialType, Some (ExternalError "xml"));
  NewPublicKeyFromBytes := fun _ => inr (ExternalError "gabi");
  MatchString := fun _ _ => false;
  FindStringSubmatch := fun _ _ => []
|}.

(** A scheme whose key file holds no PEM block and whose signature file is
    empty. *)
Definition brokenWorld : World :=
  mkWorld "/"
    (list_to_map [ ("/conf", Directory); ("/conf/irma-demo", Directory);
                   ("/conf/irma-demo/index", File (bytes demoIndex));
                   ("/conf/irma-demo/index.sig", File []);
                   ("/conf/irma-demo/pk.pem", File (bytes "no key")) ])
    ∅ ∅ [] [].

(** The demonstration scheme after loading, with a mirror whose timestamp
    is the stored one. *)
Definition loadedConf : Configuration := (ParseFolder (demoConf, demoWorld)).1.1.
Definition mirrorWorld : World :=
  mkWorld "/" demoFiles ∅
    {[ "https://example.org/irma-demo/timestamp" := bytes ("100" +:+ nl) ]} [] [].
Definition loadedManager : SchemeManager :=
  default (NewSchemeManager "") (SchemeManagers loadedConf !! "irma-demo").

(** The same configuration, read-only. *)
Definition readOnlyConf : Configuration :=
  mkConfiguration (SchemeManagers loadedConf) (Issuers loadedConf)
    (CredentialTypes loadedConf) (AttributeTypes loadedConf) (Path loadedConf)
    (DisabledSchemeManagers loadedConf) (Warnings loadedConf) (publicKeys loadedConf)
    (reverseHashes loadedConf) (initialized loadedConf) (assets loadedConf) true.

(** A session that the server accepts. *)
Definition envAccepted : Env :=
  mkEnv None false 0 [true] false false false [] None "VALID" false.

(** A world in which [rand.Read] delivers bytes. *)
Definition writableWorld : World :=
  mkWorld "/" demoFiles ∅ ∅ [] [replicate 16 Byte.x2a; replicate 16 Byte.x2b].

(** A world in which the index of the demonstration scheme cannot be
    unlinked. *)
Definition stuckWorld : World :=
  mkWorld "/" demoFiles {[ "/conf/irma-demo/index" ]} ∅ [] [].

(** The loaded configuration with a second scheme manager that has not
    been parsed. *)
Definition mixedConf : Configuration :=
  setSchemeManagers loadedConf
    (<["pbdf" := NewSchemeManager "pbdf"]> (SchemeManagers loadedConf)).

(** * Version negotiation *)

Lemma Atoi_digit (c : ascii) :
  isDigit c = true -> Atoi (string_of_byte c) = inl (digitValue c).
Proof.
  destruct c as [[] [] [] [] [] [] [] []]; vm_compute; congruence.
Qed.

Lemma Atoi_not_digit (c : ascii) :
  isDigit c = false -> exists e, Atoi (string_of_byte c) = inr e.
Proof.
  destruct c as [[] [] [] [] [] [] [] []]; vm_compute;
    first [ discriminate | intros _; eexists; reflexivity ].
Qed.

Section Versions.
Variables minmajor minminor maxmajor maxminor : Z.

Let lo := (minmajor, minminor).
Let hi := (maxmajor, maxminor).

Lemma firstMinor_Some (major : Z) (minors : list Z) (v : Z * Z) :
  StronglySorted Z.ge minors ->
  firstMinor minmajor minminor maxmajor maxminor major minors = Some v ->
  v.1 = major /\ v.2 ∈ minors /\ inRange lo hi v /\
  forall m, m ∈ minors -> inRange lo hi (major, m) -> m <= v.2.
Proof.
  induction minors as [|minor rest IH]; simpl; [discriminate|].
  intros Hsorted. apply StronglySorted_inv in Hsorted as [Hrest Hall].
  destruct (_ && _) eqn:Hin.
  - intros [= <-]. simpl. split; [reflexivity|]. split; [left|].
    split.
    + unfold inRange, versionLe, lo, hi; simpl. lia.
    + intros m Hm _. apply elem_of_cons in Hm as [->|Hm]; [lia|].
      rewrite Forall_forall in Hall. specialize (Hall m Hm). lia.
  - intros Hfirst. destruct (IH Hrest Hfirst) as (H1 & H2 & H3 & H4).
    split; [exact H1|]. split; [right; exact H2|]. split; [exact H3|].
    intros m Hm Hr. apply elem_of_cons in Hm as [->|Hm]; [|auto].
    exfalso. unfold inRange, versionLe, lo, hi in Hr; simpl in Hr. lia.
Qed.

Lemma firstMinor_None (major : Z) (minors : list Z) :
  firstMinor minmajor minminor maxmajor maxminor major minors = None ->
  forall m, m ∈ minors -> ~ inRange lo hi (major, m).
Proof.
  induction minors as [|minor rest IH]; simpl.
  - intros _ m Hm. inversion Hm.
  - destruct (_ && _) eqn:Hin; [discriminate|].
    intros Hnone m Hm Hr. apply elem_of_cons in Hm as [->|Hm].
    + unfold inRange, versionLe, lo, hi in Hr; simpl in Hr. lia.
    + exact (IH Hnone m Hm Hr).
Qed.

Variable supported : gmap Z (list Z).
Hypothesis minors_reverse_sorted :
  forall major minors, supported !! major = Some minors -> StronglySorted Z.ge minors.

Lemma firstVersion_Some (keys : list Z) (v : Z * Z) :
  StronglySorted Z.ge keys ->
  firstVersion supported minmajor minminor maxmajor maxminor keys = Some v ->
  supportedIn supported v /\ inRange lo hi v /\
  forall v', v'.1 ∈ keys -> supportedIn supported v' -> inRange lo hi v' ->
             versionLe v' v.
Proof.
  induction keys as [|major rest IH]; simpl; [discriminate|].
  intros Hsorted. apply StronglySorted_inv in Hsorted as [Hrest Hall].
  destruct (firstMinor _ _ _ _ major _) as [u|] eqn:Hminor.
  - intros [= <-].
    destruct (supported !! major) as [minors|] eqn:Hlook; simpl in Hminor;
      [|discriminate].
    destruct (firstMinor_Some major minors u (minors_reverse_sorted _ _ Hlook) Hminor)
      as (H1 & H2 & H3 & H4).
    split; [exists minors; rewrite H1; auto|]. split; [exact H3|].
    intros [M m] HM [minors' [Hl' Hm']] Hr; simpl in *.
    apply elem_of_cons in HM as [->|HM].
    + rewrite Hlook in Hl'. injection Hl' as <-.
      right. split; [auto|]. simpl. apply H4; auto.
    + rewrite Forall_forall in Hall. specialize (Hall M HM).
      destruct (decide (M = major)) as [->|Hne].
      * rewrite Hlook in Hl'. injection Hl' as <-.
        right. split; [auto|]. simpl. apply H4; auto.
      * left. simpl. lia.
  - intros Hfirst. destruct (IH Hrest Hfirst) as (H1 & H2 & H3).
    split; [exact H1|]. split; [exact H2|].
    intros [M m] HM [minors' [Hl' Hm']] Hr; simpl in *.
    apply elem_of_cons in HM as [->|HM].
    + exfalso. rewrite Hl' in Hminor. simpl in Hminor.
      exact (firstMinor_None _ _ Hminor m Hm' Hr).
    + apply H3; simpl; [exact HM| exists minors'; auto | exact Hr].
Qed.

Lemma firstVersion_None (keys : list Z) :
  firstVersion supported minmajor minminor maxmajor maxminor keys = None ->
  forall v, v.1 ∈ keys -> supportedIn supported v -> ~ inRange lo hi v.
Proof.
  induction keys as [|major rest IH]; simpl.
  - intros _ v Hv. inversion Hv.
  - destruct (firstMinor _ _ _ _ major _) eqn:Hminor; [discriminate|].
    intros Hnone [M m] HM [minors [Hl Hm]] Hr; simpl in *.
    apply elem_of_cons in HM as [->|HM].
    + rewrite Hl in Hminor. simpl in Hminor.
      exact (firstMinor_None _ _ Hminor m Hm Hr).
    + apply (IH Hnone (M, m)); simpl; [exact HM | exists minors; auto | exact Hr].
Qed.

End Versions.

Lemma reverseSortedKeys_sorted (supported : gmap Z (list Z)) :
  StronglySorted Z.ge (reverseSortedKeys supported).
Proof.
  unfold reverseSortedKeys. apply StronglySorted_merge_sort.
  - intros x y z; lia.
  - intros x y; lia.
Qed.

Lemma elem_of_reverseSortedKeys (supported : gmap Z (list Z)) (k : Z) :
  k ∈ reverseSortedKeys supported <-> is_Some (supported !! k).
Proof.
  unfold reverseSortedKeys. rewrite merge_sort_Permutation.
  rewrite list_elem_of_fmap. split.
  - intros [[k' v] [-> Hin]]. apply elem_of_map_to_list in Hin. eauto.
  - intros [v Hv]. exists (k, v). split; [reflexivity|].
    apply elem_of_map_to_list. exact Hv.
Qed.

(** What [calcVersionIn] returns for a QR with digits at the positions 0
    and 2, for a table whose minor lists are reverse sorted. *)
Lemma calcVersionIn_highest (supported : gmap Z (list Z)) (qr : Qr) (lo hi : Z * Z) :
  (forall major minors, supported !! major = Some minors -> StronglySorted Z.ge minors) ->
  versionRange qr = Some (lo, hi) ->
  (exists v, calcVersionIn supported qr = Done (versionString v, None) /\
             supportedIn supported v /\ inRange lo hi v /\
             forall v', supportedIn supported v' -> inRange lo hi v' -> versionLe v' v)
  \/ (exists e, calcVersionIn supported qr = Done ("", Some e) /\
                forall v, supportedIn supported v -> ~ inRange lo hi v).
Proof.
  intros Hsorted. unfold versionRange, readDigit, calcVersionIn, byteAt.
  destruct (String.get 0 (ProtocolVersion qr)) as [c0|]; [|discriminate].
  destruct (isDigit c0) eqn:H0; [|discriminate].
  destruct (String.get 2 (ProtocolVersion qr)) as [c2|]; [|discriminate].
  destruct (isDigit c2) eqn:H2; [|discriminate].
  destruct (String.get 0 (ProtocolMaxVersion qr)) as [d0|]; [|discriminate].
  destruct (isDigit d0) eqn:H3; [|discriminate].
  destruct (String.get 2 (ProtocolMaxVersion qr)) as [d2|]; [|discriminate].
  destruct (isDigit d2) eqn:H4; [|discriminate].
  intros [= <- <-]. cbn [mbind outcome_bind].
  rewrite !Atoi_digit by assumption.
  destruct (firstVersion _ _ _ _ _ _) as [[M m]|] eqn:Hfirst.
  - left. exists (M, m). split; [reflexivity|].
    destruct (firstVersion_Some _ _ _ _ _ Hsorted _ _
                (reverseSortedKeys_sorted supported) Hfirst) as (H5 & H6 & H7).
    split; [exact H5|]. split; [exact H6|].
    intros v' Hs Hr. apply H7; [|exact Hs|exact Hr].
    apply elem_of_reverseSortedKeys. destruct Hs as [minors [Hl _]]. eauto.
  - right. eexists. split; [reflexivity|].
    intros v Hs Hr.
    apply (firstVersion_None _ _ _ _ _ _ Hfirst v); [|exact Hs|exact Hr].
    apply elem_of_reverseSortedKeys. destruct Hs as [minors [Hl _]]. eauto.
Qed.

Lemma supportedVersions_reverse_sorted (major : Z) (minors : list Z) :
  supportedVersions !! major = Some minors -> StronglySorted Z.ge minors.
Proof.
  unfold supportedVersions. intros Hl.
  apply lookup_singleton_Some in Hl as [_ <-].
  repeat constructor; lia.
Qed.

(** The digits at the positions 0 and 2 of the text of a version with
    single digits are its major and minor numbers. *)
Lemma readDigit_versionString (v : Z * Z) :
  singleDigit v ->
  readDigit (versionString v) 0 = Some v.1 /\ readDigit (versionString v) 2 = Some v.2.
Proof.
  destruct v as [a b]. unfold singleDigit. cbn [fst snd]. intros [Ha Hb].
  assert (a = 0 \/ a = 1 \/ a = 2 \/ a = 3 \/ a = 4 \/ a = 5 \/ a = 6 \/ a = 7
          \/ a = 8 \/ a = 9) as Hcases by lia.
  assert (b = 0 \/ b = 1 \/ b = 2 \/ b = 3 \/ b = 4 \/ b = 5 \/ b = 6 \/ b = 7
          \/ b = 8 \/ b = 9) as Hcases' by lia.
  repeat (destruct Hcases as [->|Hcases]); try subst a;
    repeat (destruct Hcases' as [->|Hcases']); try subst b;
    split; vm_compute; reflexivity.
Qed.

Lemma versionRange_versionString (qr : Qr) (lo hi : Z * Z) :
  ProtocolVersion qr = versionString lo ->
  ProtocolMaxVersion qr = versionString hi ->
  singleDigit lo -> singleDigit hi ->
  versionRange qr = Some (lo, hi).
Proof.
  intros Hmin Hmax Hlo Hhi. unfold versionRange. rewrite Hmin, Hmax.
  destruct (readDigit_versionString lo Hlo) as [-> ->].
  destruct (readDigit_versionString hi Hhi) as [-> ->].
  destruct lo, hi. reflexivity.
Qed.

(** What [calcVersion] returns for the range that it reads from the
    digits at the positions 0 and 2 of the two version strings. *)
Lemma calcVersion_read_range (qr : Qr) (lo hi : Z * Z) :
  versionRange qr = Some (lo, hi) ->
  (exists v, calcVersion qr = Done (versionString v, None) /\
             supportedIn supportedVersions v /\ inRange lo hi v /\
             forall v', supportedIn supportedVersions v' -> inRange lo hi v' ->
                        versionLe v' v)
  \/ ((forall v, supportedIn supportedVersions v -> ~ inRange lo hi v) /\
      (exists e, calcVersion qr = Done ("", Some e)) /\
      forall env, NewSession env qr =
                    ([EvDelete; EvFailure (Qr_Type qr) ErrorProtocolVersionNotSupported],
                     Done tt)).
Proof.
  intros Hrange.
  destruct (calcVersionIn_highest supportedVersions qr lo hi
              supportedVersions_reverse_sorted Hrange)
    as [(v & Hv)|(e & He & Hnone)].
  - left. exists v. exact Hv.
  - right. split; [exact Hnone|]. split; [exists e; exact He|].
    intros env. unfold NewSession, calcVersion. rewrite He. reflexivity.
Qed.

(** C4, as the code has it.  [calcVersion] reads the major and minor
    numbers of the range from the characters at the positions 0 and 2 of the
    two version strings of the QR.  For a QR whose version strings are the
    texts of a minimum and a maximum with single digits, it returns the
    highest supported (major, minor) pair in the inclusive range [min, max];
    when no supported pair lies in the range, it returns an error and
    [NewSession] reports the failure [ErrorProtocolVersionNotSupported].
    For every other QR the same holds of the range that is read from the
    positions 0 and 2.  With the table {2: [2, 1]}, the range 2.1 to 2.2
    yields "2.2", and the range 2.3 to 2.4 fails. *)
Theorem calcVersion_highest_supported :
  (forall (qr : Qr) (lo hi : Z * Z),
     ProtocolVersion qr = versionString lo ->
     ProtocolMaxVersion qr = versionString hi ->
     singleDigit lo -> singleDigit hi ->
     (exists v, calcVersion qr = Done (versionString v, None) /\
                supportedIn supportedVersions v /\ inRange lo hi v /\
                forall v', supportedIn supportedVersions v' -> inRange lo hi v' ->
                           versionLe v' v)
     \/ ((forall v, supportedIn supportedVersions v -> ~ inRange lo hi v) /\
         (exists e, calcVersion qr = Done ("", Some e)) /\
         forall env, NewSession env qr =
                       ([EvDelete; EvFailure (Qr_Type qr) ErrorProtocolVersionNotSupported],
                        Done tt)))
  /\ (forall (qr : Qr) (lo hi : Z * Z),
        versionRange qr = Some (lo, hi) ->
        (exists v, calcVersion qr = Done (versionString v, None) /\
                   supportedIn supportedVersions v /\ inRange lo hi v /\
                   forall v', supportedIn supportedVersions v' -> inRange lo hi v' ->
                              versionLe v' v)
        \/ ((forall v, supportedIn supportedVersions v -> ~ inRange lo hi v) /\
            (exists e, calcVersion qr = Done ("", Some e)) /\
            forall env, NewSession env qr =
                          ([EvDelete;
                            EvFailure (Qr_Type qr) ErrorProtocolVersionNotSupported],
                           Done tt)))
  /\ (forall url action, calcVersion (mkQr url "2.1" "2.2" action) = Done ("2.2", None))
  /\ (forall env url action,
        NewSession env (mkQr url "2.3" "2.4" action) =
          ([EvDelete; EvFailure action ErrorProtocolVersionNotSupported], Done tt)).
Proof.
  split; [|split; [|split]].
  - intros qr lo hi Hmin Hmax Hlo Hhi. apply calcVersion_read_range.
    apply versionRange_versionString; assumption.
  - exact calcVersion_read_range.
  - intros url action. reflexivity.
  - intros env url action. reflexivity.
Qed.

Lemma calcVersion_highest_supported_witness :
  (exists v, calcVersion (mkQr "https://example.org/session" "2.1" "2.2" ActionDisclosing)
               = Done (versionString v, None) /\
             supportedIn supportedVersions v /\ inRange (2, 1) (2, 2) v /\
             forall v', supportedIn supportedVersions v' -> inRange (2, 1) (2, 2) v' ->
                        versionLe v' v)
  \/ ((forall v, supportedIn supportedVersions v -> ~ inRange (2, 1) (2, 2) v) /\
      (exists e, calcVersion (mkQr "https://example.org/session" "2.1" "2.2" ActionDisclosing)
                   = Done ("", Some e)) /\
      forall env, NewSession env (mkQr "https://example.org/session" "2.1" "2.2" ActionDisclosing)
                  = ([EvDelete; EvFailure ActionDisclosing ErrorProtocolVersionNotSupported],
                     Done tt)).
Proof.
  apply (proj1 calcVersion_highest_supported
           (mkQr "https://example.org/session" "2.1" "2.2" ActionDisclosing)
           (2, 1) (2, 2)).
  - reflexivity.
  - reflexivity.
  - unfold singleDigit. simpl. lia.
  - unfold singleDigit. simpl. lia.
Defined.

(** The version 2.2 is supported and lies between the minimum 2.2 and the
    maximum 2.10 of the QR, and yet negotiation fails: the maximum is read
    as 2.1.  For the minimum 2.1 and the maximum 2.10 the result is "2.1",
    not the higher supported version 2.2. *)
Lemma calcVersion_misses_supported_version :
  ProtocolVersion (mkQr "https://example.org/session" "2.2" "2.10" ActionDisclosing)
    = versionString (2, 2)
  /\ ProtocolMaxVersion (mkQr "https://example.org/session" "2.2" "2.10" ActionDisclosing)
      = versionString (2, 10)
  /\ supportedIn supportedVersions (2, 2)
  /\ inRange (2, 2) (2, 10) (2, 2)
  /\ calcVersion (mkQr "https://example.org/session" "2.2" "2.10" ActionDisclosing)
      = Done ("", Some (Errorf "No supported protocol version between 2.2 and 2.10"))
  /\ NewSession envCancelled
       (mkQr "https://example.org/session" "2.2" "2.10" ActionDisclosing)
      = ([EvDelete; EvFailure ActionDisclosing ErrorProtocolVersionNotSupported], Done tt)
  /\ calcVersion (mkQr "https://example.org/session" "2.1" "2.10" ActionDisclosing)
      = Done ("2.1", None).
Proof.
  split; [reflexivity|]. split; [reflexivity|]. split.
  { exists [2; 1]. split; [reflexivity|]. left. }
  split; [unfold inRange, versionLe; simpl; lia|].
  split; [reflexivity|]. split; reflexivity.
Qed.


(** * Parsing of the version strings *)

Lemma calcVersion_fault (qr : Qr) :
  match firstFault (versionPositions qr) with
  | Some (MissingAt i n) => calcVersion qr = Panics (IndexOutOfRange i n)
  | Some NotADigit => exists e, calcVersion qr = Done ("", Some e)
  | None => exists range, versionRange qr = Some range
  end.
Proof.
  unfold versionPositions, firstFault, versionRange, readDigit, calcVersion,
    calcVersionIn, byteAt.
  destruct (String.get 0 (ProtocolVersion qr)) as [c0|]; [|reflexivity].
  cbn [mbind outcome_bind].
  destruct (isDigit c0) eqn:H0;
    [rewrite (Atoi_digit _ H0) | destruct (Atoi_not_digit _ H0) as [e ->]; eauto].
  destruct (String.get 2 (ProtocolVersion qr)) as [c2|]; [|reflexivity].
  cbn [mbind outcome_bind].
  destruct (isDigit c2) eqn:H2;
    [rewrite (Atoi_digit _ H2) | destruct (Atoi_not_digit _ H2) as [e ->]; eauto].
  destruct (String.get 0 (ProtocolMaxVersion qr)) as [d0|]; [|reflexivity].
  cbn [mbind outcome_bind].
  destruct (isDigit d0) eqn:H3;
    [rewrite (Atoi_digit _ H3) | destruct (Atoi_not_digit _ H3) as [e ->]; eauto].
  destruct (String.get 2 (ProtocolMaxVersion qr)) as [d2|]; [|reflexivity].
  cbn [mbind outcome_bind].
  destruct (isDigit d2) eqn:H4;
    [eauto | destruct (Atoi_not_digit _ H4) as [e ->]; eauto].
Qed.

Lemma calcVersion_positions (qr qr' : Qr) :
  String.get 0 (ProtocolVersion qr) = String.get 0 (ProtocolVersion qr') ->
  String.get 2 (ProtocolVersion qr) = String.get 2 (ProtocolVersion qr') ->
  String.get 0 (ProtocolMaxVersion qr) = String.get 0 (ProtocolMaxVersion qr') ->
  String.get 2 (ProtocolMaxVersion qr) = String.get 2 (ProtocolMaxVersion qr') ->
  String.length (ProtocolVersion qr) = String.length (ProtocolVersion qr') ->
  String.length (ProtocolMaxVersion qr) = String.length (ProtocolMaxVersion qr') ->
  negotiated (calcVersion qr) = negotiated (calcVersion qr').
Proof.
  intros E0 E2 F0 F2 L1 L2.
  unfold calcVersion, calcVersionIn, byteAt. rewrite <- E0, <- E2, <- F0, <- F2, <- L1, <- L2.
  destruct (String.get 0 (ProtocolVersion qr)) as [c0|]; [|reflexivity].
  cbn [mbind outcome_bind].
  destruct (Atoi (string_of_byte c0)); [|reflexivity].
  destruct (String.get 2 (ProtocolVersion qr)) as [c2|]; [|reflexivity].
  cbn [mbind outcome_bind].
  destruct (Atoi (string_of_byte c2)); [|reflexivity].
  destruct (String.get 0 (ProtocolMaxVersion qr)) as [d0|]; [|reflexivity].
  cbn [mbind outcome_bind].
  destruct (Atoi (string_of_byte d0)); [|reflexivity].
  destruct (String.get 2 (ProtocolMaxVersion qr)) as [d2|]; [|reflexivity].
  cbn [mbind outcome_bind].
  destruct (Atoi (string_of_byte d2)); [|reflexivity].
  destruct (firstVersion _ _ _ _ _ _) as [[M m]|]; reflexivity.
Qed.

(** One step of the scan of [firstFault]: the position is missing (closed
    by [missing]), holds another character, or holds a digit. *)
Ltac scanPosition k s missing :=
  let c := fresh "c" in
  let Hg := fresh "Hg" in
  destruct (String.get k s) as [c|] eqn:Hg;
  [destruct (isDigit c); [|discriminate] | missing].

(** C10, as the code has it.  Version parsing reads only the characters at
    the positions 0 and 2 of the two version strings, in the order
    protocolVersion[0], protocolVersion[2], protocolMaxVersion[0],
    protocolMaxVersion[2]: two QRs that agree there (and in the lengths of
    the strings) negotiate the same.  When the first of these positions that
    holds no digit lies beyond the end of its string, [NewSession] panics
    with an index fault before any callback; when it holds another
    character, [NewSession] reports the failure
    [ErrorProtocolVersionNotSupported] and does not panic.  "2.10" is read
    as 2.1. *)
Theorem NewSession_version_parsing :
  (forall qr qr',
     String.get 0 (ProtocolVersion qr) = String.get 0 (ProtocolVersion qr') ->
     String.get 2 (ProtocolVersion qr) = String.get 2 (ProtocolVersion qr') ->
     String.get 0 (ProtocolMaxVersion qr) = String.get 0 (ProtocolMaxVersion qr') ->
     String.get 2 (ProtocolMaxVersion qr) = String.get 2 (ProtocolMaxVersion qr') ->
     String.length (ProtocolVersion qr) = String.length (ProtocolVersion qr') ->
     String.length (ProtocolMaxVersion qr) = String.length (ProtocolMaxVersion qr') ->
     negotiated (calcVersion qr) = negotiated (calcVersion qr'))
  /\ (forall env qr i n,
        firstFault (versionPositions qr) = Some (MissingAt i n) ->
        (i = 0%nat \/ i = 2%nat) /\ (n <= i)%nat /\
        NewSession env qr = ([], Panics (IndexOutOfRange i n)))
  /\ (forall env qr,
        firstFault (versionPositions qr) = Some NotADigit ->
        NewSession env qr =
          ([EvDelete; EvFailure (Qr_Type qr) ErrorProtocolVersionNotSupported], Done tt))
  /\ (forall url action,
        versionRange (mkQr url "2.10" "2.10" action) = Some ((2, 1), (2, 1)) /\
        calcVersion (mkQr url "2.10" "2.10" action) = Done ("2.1", None)).
Proof.
  split; [exact calcVersion_positions|]. split; [|split].
  - intros env qr i n Hfault.
    pose proof (calcVersion_fault qr) as Hcalc. rewrite Hfault in Hcalc.
    split; [|split].
    + revert Hfault. unfold versionPositions, firstFault.
      scanPosition 0%nat (ProtocolVersion qr) ltac:(intros [= <- _]; auto).
      scanPosition 2%nat (ProtocolVersion qr) ltac:(intros [= <- _]; auto).
      scanPosition 0%nat (ProtocolMaxVersion qr) ltac:(intros [= <- _]; auto).
      scanPosition 2%nat (ProtocolMaxVersion qr) ltac:(intros [= <- _]; auto).
      discriminate.
    + revert Hfault. unfold versionPositions, firstFault.
      assert (Hget : forall s k, String.get k s = None -> (String.length s <= k)%nat).
      { intros s. induction s as [|c s IH]; intros k; simpl; [lia|].
        destruct k; [discriminate|]. intros Hk. specialize (IH k Hk). lia. }
      scanPosition 0%nat (ProtocolVersion qr)
        ltac:(intros [= <- <-]; apply Hget; assumption).
      scanPosition 2%nat (ProtocolVersion qr)
        ltac:(intros [= <- <-]; apply Hget; assumption).
      scanPosition 0%nat (ProtocolMaxVersion qr)
        ltac:(intros [= <- <-]; apply Hget; assumption).
      scanPosition 2%nat (ProtocolMaxVersion qr)
        ltac:(intros [= <- <-]; apply Hget; assumption).
      discriminate.
    + unfold NewSession. rewrite Hcalc. reflexivity.
  - intros env qr Hfault.
    pose proof (calcVersion_fault qr) as Hcalc. rewrite Hfault in Hcalc.
    destruct Hcalc as [e He]. unfold NewSession. rewrite He. reflexivity.
  - intros url action. split; reflexivity.
Qed.

Lemma NewSession_version_parsing_witness :
  firstFault (versionPositions (mkQr "https://example.org/session" "2" "2.2" ActionSigning))
    = Some (MissingAt 2 1)
  /\ NewSession (mkEnv None false 0 [true] false false false [] None "VALID" false)
       (mkQr "https://example.org/session" "2" "2.2" ActionSigning)
     = ([], Panics (IndexOutOfRange 2 1)).
Proof.
  split; [reflexivity|].
  apply (proj1 (proj2 NewSession_version_parsing)
           (mkEnv None false 0 [true] false false false [] None "VALID" false)
           (mkQr "https://example.org/session" "2" "2.2" ActionSigning) 2%nat 1%nat).
  reflexivity.
Defined.

(** A QR whose minimum version is the single character "x" is shorter than
    three characters, yet [NewSession] does not panic: it reports the
    failure. *)
Lemma NewSession_short_version_reports_failure :
  (String.length (ProtocolVersion (mkQr "https://example.org/session" "x" "2.2" ActionSigning)) < 3)%nat
  /\ NewSession (mkEnv None false 0 [true] false false false [] None "VALID" false)
       (mkQr "https://example.org/session" "x" "2.2" ActionSigning)
     = ([EvDelete; EvFailure ActionSigning ErrorProtocolVersionNotSupported], Done tt).
Proof. split; [simpl; lia | reflexivity]. Qed.


(** * Terminal callbacks of a session *)

Lemma failureIsLast_spec (t : list event) :
  failureIsLast t = true ->
  forall t1 e t2, t = t1 ++ e :: t2 -> isFailure e = true -> t2 = [].
Proof.
  induction t as [|x t IH]; intros Hlast t1 e t2 Heq Hfail.
  - destruct t1; discriminate.
  - destruct t1 as [|y t1]; simpl in Heq; injection Heq as -> ->.
    + simpl in Hlast. rewrite Hfail in Hlast. destruct t2; [reflexivity|discriminate].
    + simpl in Hlast. destruct (isFailure y).
      * destruct t1; discriminate.
      * exact (IH Hlast t1 e t2 eq_refl Hfail).
Qed.

Ltac runSession :=
  cbv [terminalCheck start do sendResponse startKeyshareSession KeyshareDone
       KeyshareCancelled KeyshareBlocked KeyshareError forEach emit fail
       raise mbind mret proc_bind proc_ret sAction keyshareReplies permission
       distributed proofsError buildersError postError response constructError
       getJwtError jwtError missing negb Nat.ltb Nat.leb app].

Lemma start_terminalCheck (env : Env) (s : session) :
  (length (permission env) <= 1)%nat ->
  (length (keyshareReplies env) <= 1)%nat ->
  (distributed env = true -> buildersError env = false) ->
  terminalCheck env (start env s) = true.
Proof.
  destruct env as [getJwt jwt miss perm dist proofs builders replies post resp construct].
  destruct s as [action version url].
  simpl. intros Hperm Hreplies Hbuilders.
  destruct getJwt; [destruct action; reflexivity|].
  destruct jwt; [destruct action; reflexivity|].
  destruct miss; [|destruct action; reflexivity].
  destruct perm as [|[] [|? ?]]; try (simpl in Hperm; lia);
    [destruct action; reflexivity| |destruct action; reflexivity].
  destruct dist.
  - rewrite (Hbuilders eq_refl).
    destruct replies as [|[[]| | |] [|? ?]]; try (simpl in Hreplies; lia);
      destruct action; try reflexivity; runSession;
      destruct post; try reflexivity;
      try (destruct (String.eqb resp "VALID")); try (destruct construct); reflexivity.
  - destruct proofs; [destruct action; reflexivity|].
    destruct action; try reflexivity; runSession;
      destruct post; try reflexivity;
      try (destruct (String.eqb resp "VALID")); try (destruct construct); reflexivity.
Qed.

Lemma NewSession_terminalCheck (env : Env) (qr : Qr) :
  (length (permission env) <= 1)%nat ->
  (length (keyshareReplies env) <= 1)%nat ->
  (distributed env = true -> buildersError env = false) ->
  terminalCheck env (NewSession env qr) = true.
Proof.
  intros Hperm Hreplies Hbuilders. unfold NewSession.
  destruct (calcVersion qr) as [[version [err|]]|p];
    [destruct env as [? ? ? [|] ? ? ? [|] ? ? ?]; reflexivity
    | |destruct env as [? ? ? [|] ? ? ? [|] ? ? ?]; reflexivity].
  cbn [lift mbind proc_bind sAction app].
  pose proof (fun s => start_terminalCheck env s Hperm Hreplies Hbuilders) as Hstart.
  destruct (Qr_Type qr);
    try (destruct env as [? ? ? [|] ? ? ? [|] ? ? ?]; reflexivity).
  all: match goal with
       | |- context [start ?e ?s] =>
           specialize (Hstart s); destruct (start e s) as [t r]; exact Hstart
       end.
Qed.

(** C5, as the code has it.  In a run in which the handler answers the
    permission request at most once, the keyshare session calls back at most
    once, and the proof builders of a keyshare session can be made: at most
    one of the terminal callbacks Success, Cancelled and Failure is invoked,
    at most once; nothing happens after a Failure; and no terminal callback
    is invoked only when [NewSession] panics, when the request cannot be
    satisfied (the handler then gets [UnsatisfiableRequest]), when the
    handler never answers, or when the session is a keyshare session whose
    keyshare session never calls back. *)
Theorem session_terminal_callbacks (env : Env) (qr : Qr) :
  (length (permission env) <= 1)%nat ->
  (length (keyshareReplies env) <= 1)%nat ->
  (distributed env = true -> buildersError env = false) ->
  (length (terminals (NewSession env qr).1) <= 1)%nat
  /\ (forall t1 e t2,
        (NewSession env qr).1 = t1 ++ e :: t2 -> isFailure e = true -> t2 = [])
  /\ (terminals (NewSession env qr).1 = [] ->
      (exists p, (NewSession env qr).2 = Panics p)
      \/ (exists a, In (EvUnsatisfiableRequest a) (NewSession env qr).1)
      \/ permission env = []
      \/ (distributed env = true /\ keyshareReplies env = [])).
Proof.
  intros Hperm Hreplies Hbuilders.
  pose proof (NewSession_terminalCheck env qr Hperm Hreplies Hbuilders) as Hcheck.
  unfold terminalCheck in Hcheck.
  destruct (NewSession env qr) as [t r]. simpl.
  apply andb_prop in Hcheck as [Hcheck Hreason].
  apply andb_prop in Hcheck as [Hcount Hlast].
  split; [apply Nat.leb_le; exact Hcount|].
  split; [exact (failureIsLast_spec t Hlast)|].
  intros Hnone. rewrite Hnone in Hreason. simpl in Hreason.
  destruct r as [[]|p]; [|left; eauto]. right.
  simpl in Hreason.
  destruct (existsb _ t) eqn:Hunsat.
  - left. apply existsb_exists in Hunsat as [e [Hin He]].
    destruct e; try discriminate. eauto.
  - right. simpl in Hreason.
    destruct (permission env); [left; reflexivity|].
    destruct (distributed env); [|discriminate].
    destruct (keyshareReplies env); [right; auto|discriminate].
Qed.

Lemma session_terminal_callbacks_witness :
  (length (terminals (NewSession envCancelled qrDisclosure).1) <= 1)%nat
  /\ (forall t1 e t2,
        (NewSession envCancelled qrDisclosure).1 = t1 ++ e :: t2 ->
        isFailure e = true -> t2 = [])
  /\ (terminals (NewSession envCancelled qrDisclosure).1 = [] ->
      (exists p, (NewSession envCancelled qrDisclosure).2 = Panics p)
      \/ (exists a, In (EvUnsatisfiableRequest a) (NewSession envCancelled qrDisclosure).1)
      \/ permission envCancelled = []
      \/ (distributed envCancelled = true /\ keyshareReplies envCancelled = [])).
Proof.
  apply (session_terminal_callbacks envCancelled qrDisclosure).
  - simpl. lia.
  - simpl. lia.
  - simpl. discriminate.
Defined.

(** When the request cannot be satisfied, the session ends without any of
    Success, Cancelled and Failure. *)
Lemma unsatisfiable_session_has_no_terminal_callback :
  NewSession envUnsatisfiable qrDisclosure =
    ([EvStatusUpdate ActionDisclosing StatusCommunicating; EvGet "jwt";
      EvUnsatisfiableRequest ActionDisclosing], Done tt)
  /\ length (terminals (NewSession envUnsatisfiable qrDisclosure).1) <> 1%nat.
Proof. split; [reflexivity | vm_compute; discriminate]. Qed.

(** The branch of [do] for a keyshare session does not return after
    [fail]: the keyshare session is started all the same, and when it
    completes a second terminal callback follows the Failure. *)
Lemma do_continues_after_failure :
  do envBuildersFail (mkSession ActionDisclosing "2.2" "https://example.org/session/") true =
    ([EvStatusUpdate ActionDisclosing StatusCommunicating;
      EvDelete; EvFailure ActionDisclosing ErrorCrypto;
      EvStartKeyshareSession;
      EvPost "proofs"; EvAddLogEntry; EvSuccess ActionDisclosing], Done tt).
Proof. reflexivity. Qed.


(** * The index: lines, hexadecimal hashes *)

Lemma string_pairs_ind (P : string -> Prop) :
  P "" ->
  (forall c, P (String c "")) ->
  (forall c d s, P s -> P (String c (String d s))) ->
  forall s, P s.
Proof.
  intros Hnil Hone Hstep.
  assert (Hboth : forall s, P s /\ forall c, P (String c s)).
  { induction s as [|d s [IH1 IH2]].
    - split; [exact Hnil | exact Hone].
    - split; [apply IH2 | intros c; apply Hstep; exact IH1]. }
  intros s. apply Hboth.
Qed.

Lemma fromHexChar_digit (c : ascii) (a : Z) :
  fromHexChar c = Some a -> 0 <= a < 16 /\ hexDigit a = lowerChar c.
Proof.
  destruct c as [[] [] [] [] [] [] [] []]; vm_compute;
    first [ discriminate | intros [= <-]; repeat split; discriminate ].
Qed.

Lemma hexDigits_of_byte (a b : Z) :
  0 <= a < 16 -> 0 <= b < 16 ->
  Z_of_byte (byte_of_Z (a * 16 + b)) / 16 = a /\
  Z_of_byte (byte_of_Z (a * 16 + b)) mod 16 = b.
Proof.
  intros Ha Hb.
  assert (Hround : Z_of_byte (byte_of_Z (a * 16 + b)) = a * 16 + b).
  { unfold Z_of_byte, byte_of_Z.
    rewrite Z.mod_small by lia.
    destruct (Byte.of_N (Z.to_N (a * 16 + b))) as [x|] eqn:Hx.
    - simpl. apply Byte.to_of_N in Hx. rewrite Hx. lia.
    - apply Byte.of_N_None_iff in Hx. lia. }
  rewrite Hround. split.
  - rewrite Z.div_add_l by lia. rewrite Z.div_small by lia. lia.
  - rewrite Z.add_comm, Z.mod_add by lia. apply Z.mod_small. lia.
Qed.

Lemma DecodeString_None (h : string) :
  (DecodeString h).2 = None <-> hexString h = true.
Proof.
  unfold hexString. induction h as [|c|c d h IH] using string_pairs_ind.
  - simpl. tauto.
  - simpl. unfold isHexDigit. destruct (fromHexChar c); simpl; split; discriminate.
  - change (Nat.even (String.length (String c (String d h))))
      with (Nat.even (String.length h)).
    cbn [DecodeString chars list_ascii_of_string forallb]. unfold isHexDigit at 1 2.
    fold (chars h).
    destruct (fromHexChar c) as [a|]; [|simpl; rewrite andb_false_r; split; discriminate].
    destruct (fromHexChar d) as [b|]; [|simpl; rewrite andb_false_r; split; discriminate].
    destruct (DecodeString h) as [bs err]. simpl in *. exact IH.
Qed.

Lemma DecodeString_error (h : string) (e : goerror) :
  (DecodeString h).2 = Some e -> e = HexErrLength \/ exists c, e = HexInvalidByte c.
Proof.
  induction h as [|c|c d h IH] using string_pairs_ind.
  - discriminate.
  - simpl. destruct (fromHexChar c); intros [= <-]; eauto.
  - cbn [DecodeString].
    destruct (fromHexChar c) as [a|]; [|intros [= <-]; eauto].
    destruct (fromHexChar d) as [b|]; [|intros [= <-]; eauto].
    destruct (DecodeString h) as [bs err]. simpl in *. exact IH.
Qed.

Lemma EncodeToString_DecodeString (h : string) :
  (DecodeString h).2 = None -> EncodeToString (DecodeString h).1 = toLower h.
Proof.
  induction h as [|c|c d h IH] using string_pairs_ind.
  - reflexivity.
  - simpl. destruct (fromHexChar c); discriminate.
  - cbn [DecodeString].
    destruct (fromHexChar c) as [a|] eqn:Ha; [|discriminate].
    destruct (fromHexChar d) as [b|] eqn:Hb; [|discriminate].
    destruct (DecodeString h) as [bs err]. simpl in *. intros Herr.
    apply fromHexChar_digit in Ha as [Ha1 Ha2].
    apply fromHexChar_digit in Hb as [Hb1 Hb2].
    destruct (hexDigits_of_byte a b Ha1 Hb1) as [-> ->].
    rewrite Ha2, Hb2, (IH Herr). reflexivity.
Qed.

Lemma Split_not_nil (s : string) (sep : ascii) : Split s sep <> [].
Proof.
  destruct s as [|c s]; simpl; [discriminate|].
  destruct (Ascii.eqb c sep); [discriminate|].
  destruct (Split s sep); discriminate.
Qed.

Lemma length_Split (s : string) (sep : ascii) :
  length (Split s sep) = S (countChar sep s).
Proof.
  induction s as [|c s IH]; [reflexivity|]. simpl.
  destruct (Ascii.eqb c sep); simpl; [rewrite IH; reflexivity|].
  destruct (Split s sep) eqn:Hs; [destruct (Split_not_nil _ _ Hs)|].
  simpl in *. exact IH.
Qed.

Lemma Split_no_separator (s : string) (sep : ascii) :
  countChar sep s = 0%nat -> Split s sep = [s].
Proof.
  induction s as [|c s IH]; [reflexivity|]. simpl.
  destruct (Ascii.eqb c sep); [discriminate|]. simpl. intros Hs.
  rewrite (IH Hs). reflexivity.
Qed.

Lemma Split_append (h rest : string) (sep : ascii) :
  countChar sep h = 0%nat ->
  Split (h +:+ String sep rest) sep = h :: Split rest sep.
Proof.
  induction h as [|c h IH]; simpl.
  - intros _. rewrite Ascii.eqb_refl. reflexivity.
  - destruct (Ascii.eqb c sep); [discriminate|]. simpl. intros Hh.
    rewrite (IH Hh). reflexivity.
Qed.

Lemma joinWith_cons (sep a b : string) (l : list string) :
  joinWith sep (a :: b :: l) = a +:+ sep +:+ joinWith sep (b :: l).
Proof. reflexivity. Qed.

Lemma Split_parts (s : string) (sep : ascii) :
  Forall (fun part => countChar sep part = 0%nat) (Split s sep)
  /\ joinWith (String sep "") (Split s sep) = s.
Proof.
  induction s as [|c s [IH1 IH2]]; simpl.
  - split; [repeat constructor | reflexivity].
  - destruct (Split s sep) as [|part parts] eqn:Hs; [destruct (Split_not_nil _ _ Hs)|].
    destruct (Ascii.eqb c sep) eqn:Hc.
    + apply Ascii.eqb_eq in Hc as ->. split; [constructor; [reflexivity|exact IH1]|].
      rewrite joinWith_cons, IH2. reflexivity.
    + apply Forall_cons in IH1 as [Hpart Hparts]. split.
      * constructor; [simpl; rewrite Hc; exact Hpart | exact Hparts].
      * destruct parts as [|part' parts].
        -- simpl in *. rewrite IH2. reflexivity.
        -- rewrite joinWith_cons in *. rewrite <- IH2. reflexivity.
Qed.

Lemma noSpace_countChar (s : string) : noSpace s = true <-> countChar space s = 0%nat.
Proof.
  unfold noSpace. induction s as [|c s IH]; simpl; [tauto|].
  destruct (Ascii.eqb c space); simpl; [split; discriminate | exact IH].
Qed.

Lemma Split_two (line h p : string) :
  Split line space = [h; p] <->
  line = h +:+ " " +:+ p /\ noSpace h = true /\ noSpace p = true.
Proof.
  split.
  - intros Hsplit. destruct (Split_parts line space) as [Hparts Hjoin].
    rewrite Hsplit in Hparts, Hjoin.
    apply Forall_cons in Hparts as [Hh Hparts].
    apply Forall_cons in Hparts as [Hp _].
    rewrite !noSpace_countChar. simpl in Hjoin. auto.
  - intros (-> & Hh & Hp). apply noSpace_countChar in Hh, Hp.
    change (" " +:+ p) with (String space p).
    rewrite (Split_append h p space Hh), (Split_no_separator p space Hp). reflexivity.
Qed.

Lemma Split_cutAtSpace (line h p : string) :
  Split line space = [h; p] -> cutAtSpace line = (h, p).
Proof.
  intros Hsplit. apply Split_two in Hsplit as (-> & Hh & _).
  induction h as [|c h IH]; simpl.
  - reflexivity.
  - unfold noSpace in Hh. simpl in Hh. apply andb_prop in Hh as [Hc Hh].
    destruct (Ascii.eqb c space); [discriminate|].
    change (String.append h (String space p)) with (h +:+ " " +:+ p).
    rewrite (IH Hh). reflexivity.
Qed.

Lemma length_two {A : Type} (l : list A) :
  length l = 2%nat -> exists a b, l = [a; b].
Proof. destruct l as [|a [|b [|c l]]]; try discriminate. eauto. Qed.

(** The step of [FromLines] on a line that is not empty. *)
Lemma FromLines_entry (i : SchemeManagerIndex) (j : nat) (line : string)
    (rest : list string) :
  line <> "" ->
  FromLines i j (line :: rest) =
    match Split line space with
    | [h; p] =>
        match (DecodeString h).2 with
        | Some e => (i, Some e)
        | None => FromLines (<[p := (DecodeString h).1]> i) (S j) rest
        end
    | _ => (i, Some (Errorf ("Scheme manager index line " +:+ Itoa (Z.of_nat j)
                               +:+ " has incorrect amount of parts")))
    end.
Proof.
  intros Hline. cbn [FromLines].
  destruct line as [|c line]; [congruence|]. cbn [String.length Nat.eqb].
  destruct (Split (String c line) space) as [|h [|p [|q parts]]]; try reflexivity.
  cbn [length Nat.eqb negb nth]. destruct (DecodeString h) as [bs [e|]]; reflexivity.
Qed.

Lemma FromLines_empty (i : SchemeManagerIndex) (j : nat) (rest : list string) :
  FromLines i j ("" :: rest) = FromLines i (S j) rest.
Proof. reflexivity. Qed.

Lemma wellFormedLine_Split (line : string) :
  line <> "" ->
  wellFormedLine line <->
  exists h p, Split line space = [h; p] /\ (DecodeString h).2 = None.
Proof.
  intros Hline. unfold wellFormedLine, entryLine. split.
  - intros [->|(h & p & Heq & Hh & Hp & Hhex)]; [congruence|].
    exists h, p. split; [apply Split_two; auto | apply DecodeString_None; exact Hhex].
  - intros (h & p & Hsplit & Hdec). right. exists h, p.
    apply Split_two in Hsplit as (H1 & H2 & H3).
    apply DecodeString_None in Hdec. auto.
Qed.

(** [FromLines] succeeds exactly on well-formed lines. *)
Lemma FromLines_None (lines : list string) (i : SchemeManagerIndex) (j : nat) :
  (FromLines i j lines).2 = None <-> Forall wellFormedLine lines.
Proof.
  revert i j. induction lines as [|line rest IH]; intros i j.
  - simpl. split; [constructor | reflexivity].
  - destruct (String.eqb_spec line "") as [->|Hline].
    + rewrite FromLines_empty, IH. split.
      * intros Hrest. constructor; [left; reflexivity | exact Hrest].
      * intros Hall. apply Forall_cons in Hall as [_ Hrest]. exact Hrest.
    + rewrite (FromLines_entry i j line rest Hline).
      rewrite Forall_cons, (wellFormedLine_Split line Hline).
      destruct (Split line space) as [|h [|p [|q parts]]];
        try (simpl; split; [discriminate | intros [(? & ? & [=] & _) _]]).
      destruct (DecodeString h).2 as [e|] eqn:Hdec.
      * simpl. split; [discriminate|].
        intros [(h' & p' & [= <- <-] & Hnone) _]. congruence.
      * rewrite IH. split; [intros Hrest; split; eauto | tauto].
Qed.

(** The index of a successful parse is the index of the entries. *)
Lemma FromLines_index (lines : list string) (i : SchemeManagerIndex) (j : nat) :
  (FromLines i j lines).2 = None ->
  (FromLines i j lines).1 =
    indexOfEntries
      (cutAtSpace <$> List.filter (fun line => negb (String.eqb line "")) lines) i.
Proof.
  revert i j. induction lines as [|line rest IH]; intros i j; [reflexivity|].
  destruct (String.eqb_spec line "") as [->|Hline].
  - rewrite FromLines_empty. simpl. apply IH.
  - rewrite (FromLines_entry i j line rest Hline). cbn [List.filter].
    destruct (String.eqb_spec line ""); [congruence|]. cbn [negb fmap list_fmap].
    destruct (Split line space) as [|h [|p [|q parts]]] eqn:Hsplit; try discriminate.
    rewrite (Split_cutAtSpace line h p Hsplit).
    destruct (DecodeString h).2 as [e|] eqn:Hdec; [discriminate|].
    intros Hrest. rewrite (IH _ _ Hrest). reflexivity.
Qed.

(** The error of the first line that is not well formed. *)
Lemma FromLines_first_fault (pre : list string) (line : string) (post : list string)
    (i : SchemeManagerIndex) (j : nat) :
  Forall wellFormedLine pre -> line <> "" ->
  (FromLines i j (pre ++ line :: post)).2 =
    match Split line space with
    | [h; p] =>
        match (DecodeString h).2 with
        | Some e => Some e
        | None => (FromLines (<[p := (DecodeString h).1]>
                                (FromLines i j pre).1) (S (j + length pre)) post).2
        end
    | _ => Some (Errorf ("Scheme manager index line " +:+ Itoa (Z.of_nat (j + length pre))
                           +:+ " has incorrect amount of parts"))
    end.
Proof.
  revert i j. induction pre as [|first pre IH]; intros i j Hpre Hline.
  - simpl app. rewrite (FromLines_entry i j line post Hline). rewrite Nat.add_0_r.
    destruct (Split line space) as [|h [|p [|q parts]]]; try reflexivity.
    destruct (DecodeString h).2; reflexivity.
  - apply Forall_cons in Hpre as [Hfirst Hpre].
    replace (j + length (first :: pre))%nat with (S j + length pre)%nat by (simpl; lia).
    destruct (String.eqb_spec first "") as [->|Hne].
    + simpl app. rewrite !FromLines_empty. apply IH; assumption.
    + simpl app. rewrite !(FromLines_entry i j first _ Hne).
      apply (wellFormedLine_Split first Hne) in Hfirst as (h & p & -> & ->).
      apply IH; assumption.
Qed.


(** * The index: order of paths, serialization *)

Lemma strLe_trans : Transitive strLe.
Proof.
  assert (Hchar : forall a b c : ascii,
            Ascii.compare a b <> Gt -> Ascii.compare b c <> Gt ->
            Ascii.compare a c <> Gt /\
            (Ascii.compare a c = Eq -> Ascii.compare a b = Eq /\ Ascii.compare b c = Eq)).
  { intros a b c. unfold Ascii.compare.
    rewrite !N.compare_le_iff, !N.compare_eq_iff. lia. }
  unfold strLe, String.leb. intros a. induction a as [|x a IH]; intros b c.
  - destruct c; reflexivity.
  - destruct b as [|y b]; [discriminate|]. destruct c as [|z c].
    + simpl. intros _ Hbc. discriminate.
    + simpl. intros Hab Hbc.
      assert (Hxy : Ascii.compare x y <> Gt).
      { destruct (Ascii.compare x y); congruence. }
      assert (Hyz : Ascii.compare y z <> Gt).
      { destruct (Ascii.compare y z); congruence. }
      destruct (Hchar x y z Hxy Hyz) as [Hxz Heq].
      destruct (Ascii.compare x z) eqn:Hc; [|reflexivity|congruence].
      destruct (Heq eq_refl) as [E1 E2]. rewrite E1 in Hab. rewrite E2 in Hbc.
      apply (IH b c Hab Hbc).
Qed.

Lemma strLe_total : Total strLe.
Proof. intros a b. apply String.leb_total. Qed.

Lemma strLe_antisym : AntiSymm eq strLe.
Proof. intros a b. apply String.leb_antisym. Qed.

#[local] Existing Instances strLe_trans strLe_total strLe_antisym.

Lemma entryLe_trans : Transitive entryLe.
Proof. intros a b c. unfold entryLe. apply strLe_trans. Qed.

Lemma entryLe_total : Total entryLe.
Proof. intros a b. unfold entryLe. apply strLe_total. Qed.

#[local] Existing Instances entryLe_trans entryLe_total.

Lemma append_assoc (a b c : string) : (a +:+ b) +:+ c = a +:+ (b +:+ c).
Proof.
  induction a as [|x a IH]; [reflexivity|].
  change (String x ((a +:+ b) +:+ c) = String x (a +:+ (b +:+ c))).
  f_equal. exact IH.
Qed.

Lemma append_empty_r (a : string) : a +:+ "" = a.
Proof.
  induction a as [|x a IH]; [reflexivity|].
  change (String x (a +:+ "") = String x a). f_equal. exact IH.
Qed.

Lemma fold_left_append (f : string -> string) (l : list string) (b : string) :
  fold_left (fun b x => b +:+ f x) l b = b +:+ concatStrings (f <$> l).
Proof.
  revert b. induction l as [|x l IH]; intros b.
  - cbn [fold_left fmap list_fmap concatStrings].
    symmetry. apply append_empty_r.
  - cbn [fold_left fmap list_fmap concatStrings].
    rewrite IH. apply append_assoc.
Qed.

Lemma String_of_sorted_paths (i : SchemeManagerIndex) :
  SchemeManagerIndex_String i =
    concatStrings (indexLine i <$> sortStrings (fst <$> map_to_list i)).
Proof. unfold SchemeManagerIndex_String. rewrite fold_left_append. reflexivity. Qed.

(** ** The index of a list of entries *)

Lemma indexOfEntries_other (es : list (string * string)) (i : SchemeManagerIndex)
    (p : string) :
  p ∉ es.*2 -> indexOfEntries es i !! p = i !! p.
Proof.
  revert i. induction es as [|e es IH]; intros i Hp; [reflexivity|].
  simpl in *. rewrite not_elem_of_cons in Hp. destruct Hp as [Hne Hp].
  unfold indexOfEntries in *. simpl. rewrite (IH _ Hp).
  apply lookup_insert_ne. congruence.
Qed.

Lemma indexOfEntries_overridden (es : list (string * string)) (i : SchemeManagerIndex)
    (p : string) (v : list byte) :
  p ∈ es.*2 -> indexOfEntries es (<[p := v]> i) = indexOfEntries es i.
Proof.
  revert i. induction es as [|e es IH]; intros i Hp; [inversion Hp|].
  simpl in Hp. unfold indexOfEntries in *. simpl.
  destruct (decide (e.2 = p)) as [->|Hne].
  - rewrite insert_insert_eq. reflexivity.
  - apply elem_of_cons in Hp as [Hp|Hp]; [congruence|].
    rewrite insert_insert_ne by congruence. apply IH. exact Hp.
Qed.

Lemma existsb_path (p : string) (es : list (string * string)) :
  existsb (fun e' : string * string => String.eqb e'.2 p) es = true <-> p ∈ es.*2.
Proof.
  rewrite existsb_exists, list_elem_of_fmap. split.
  - intros [e [Hin He]]. apply String.eqb_eq in He. exists e.
    split; [congruence | apply list_elem_of_In; exact Hin].
  - intros [e [-> Hin]]. exists e.
    split; [apply list_elem_of_In; exact Hin | apply String.eqb_refl].
Qed.

Lemma lastEntries_subset (es : list (string * string)) (e : string * string) :
  e ∈ lastEntries es -> e ∈ es.
Proof.
  induction es as [|x es IH]; simpl; [tauto|].
  destruct (existsb _ es).
  - intros He. right. auto.
  - intros He. apply elem_of_cons in He as [->|He]; [left | right; auto].
Qed.

Lemma lastEntries_paths (es : list (string * string)) (p : string) :
  p ∈ (lastEntries es).*2 <-> p ∈ es.*2.
Proof.
  induction es as [|x es IH]; simpl; [tauto|].
  destruct (existsb _ es) eqn:Hex.
  - apply existsb_path in Hex. rewrite IH. rewrite elem_of_cons.
    split; [tauto | intros [->|]; auto].
  - simpl. rewrite !elem_of_cons, IH. tauto.
Qed.

Lemma lastEntries_NoDup (es : list (string * string)) : NoDup (lastEntries es).*2.
Proof.
  induction es as [|x es IH]; simpl; [constructor|].
  destruct (existsb _ es) eqn:Hex; [exact IH|].
  simpl. constructor; [|exact IH].
  rewrite lastEntries_paths. intros Hin. apply existsb_path in Hin. congruence.
Qed.

Lemma lastEntries_id (es : list (string * string)) :
  NoDup es.*2 -> lastEntries es = es.
Proof.
  induction es as [|x es IH]; simpl; [reflexivity|].
  intros Hnd. apply NoDup_cons in Hnd as [Hx Hnd].
  destruct (existsb _ es) eqn:Hex.
  - apply existsb_path in Hex. contradiction.
  - rewrite (IH Hnd). reflexivity.
Qed.

Lemma indexOfEntries_lastEntries (es : list (string * string)) (i : SchemeManagerIndex) :
  indexOfEntries es i = indexOfEntries (lastEntries es) i.
Proof.
  revert i. induction es as [|x es IH]; intros i; [reflexivity|]. simpl.
  destruct (existsb _ es) eqn:Hex.
  - apply existsb_path in Hex. rewrite <- IH.
    change (indexOfEntries (x :: es) i)
      with (indexOfEntries es (<[x.2 := (DecodeString x.1).1]> i)).
    apply indexOfEntries_overridden. exact Hex.
  - change (indexOfEntries (x :: es) i)
      with (indexOfEntries es (<[x.2 := (DecodeString x.1).1]> i)).
    change (indexOfEntries (x :: lastEntries es) i)
      with (indexOfEntries (lastEntries es) (<[x.2 := (DecodeString x.1).1]> i)).
    apply IH.
Qed.

Lemma indexOfEntries_lookup (es : list (string * string)) (i : SchemeManagerIndex)
    (e : string * string) :
  NoDup es.*2 -> e ∈ es ->
  indexOfEntries es i !! e.2 = Some (DecodeString e.1).1.
Proof.
  revert i. induction es as [|x es IH]; intros i Hnd He; [inversion He|].
  simpl in Hnd. apply NoDup_cons in Hnd as [Hx Hnd].
  change (indexOfEntries (x :: es) i)
    with (indexOfEntries es (<[x.2 := (DecodeString x.1).1]> i)).
  apply elem_of_cons in He as [->|He].
  - rewrite (indexOfEntries_other es _ x.2 Hx). apply lookup_insert_eq.
  - apply IH; assumption.
Qed.

Lemma indexOfEntries_dom (es : list (string * string)) (p : string) :
  is_Some (indexOfEntries es ∅ !! p) <-> p ∈ es.*2.
Proof.
  rewrite (indexOfEntries_lastEntries es), <- (lastEntries_paths es).
  pose proof (lastEntries_NoDup es) as Hnd. split.
  - intros Hsome. destruct (decide (p ∈ (lastEntries es).*2)) as [|Hnot]; [assumption|].
    rewrite (indexOfEntries_other _ _ _ Hnot), lookup_empty in Hsome.
    destruct Hsome; discriminate.
  - intros Hin. apply list_elem_of_fmap in Hin as [e [-> He]].
    rewrite (indexOfEntries_lookup _ _ e Hnd He). eauto.
Qed.

(** The serialization of the index of entries with distinct paths. *)
Lemma String_indexOfEntries (es : list (string * string)) :
  NoDup es.*2 ->
  Forall (fun e => (DecodeString e.1).2 = None) es ->
  SchemeManagerIndex_String (indexOfEntries es ∅) =
    concatStrings (renderEntry <$> merge_sort entryLe es).
Proof.
  intros Hnd Hhex. rewrite String_of_sorted_paths. f_equal.
  set (i := indexOfEntries es ∅).
  assert (Hperm : merge_sort entryLe es ≡ₚ es) by apply merge_sort_Permutation.
  assert (Hpaths : sortStrings (map_to_list i).*1 = (merge_sort entryLe es).*2).
  { apply (StronglySorted_unique strLe).
    - apply StronglySorted_merge_sort; apply _.
    - apply (StronglySorted_fmap snd entryLe strLe); [auto|].
      apply StronglySorted_merge_sort; apply _.
    - unfold sortStrings. rewrite merge_sort_Permutation, Hperm.
      apply NoDup_Permutation; [apply NoDup_fst_map_to_list | exact Hnd |].
      intros p. rewrite <- (indexOfEntries_dom es p). fold i.
      rewrite list_elem_of_fmap. split.
      + intros [[k v] [-> Hin]]. apply elem_of_map_to_list in Hin. eauto.
      + intros [v Hv]. exists (p, v). split; [reflexivity|].
        apply elem_of_map_to_list. exact Hv. }
  rewrite Hpaths, <- list_fmap_compose.
  apply Forall_fmap_ext_1, Forall_forall. intros e He.
  rewrite Hperm in He.
  unfold compose, indexLine, renderEntry. subst i.
  rewrite (indexOfEntries_lookup es ∅ e Hnd He). simpl.
  rewrite Forall_forall in Hhex.
  rewrite (EncodeToString_DecodeString e.1 (Hhex e He)). reflexivity.
Qed.

(** The entries of an accepted text have hashes in hexadecimal. *)
Lemma entries_hex (s : string) :
  Forall wellFormedLine (linesOf s) ->
  Forall (fun e => (DecodeString e.1).2 = None) (entries s).
Proof.
  unfold entries. generalize (linesOf s). intros lines Hall.
  induction Hall as [|line lines Hline Hall IH]; [constructor|].
  cbn [List.filter]. destruct (String.eqb_spec line "") as [->|Hne]; [exact IH|].
  cbn [negb fmap list_fmap]. constructor; [|exact IH].
  apply (wellFormedLine_Split line Hne) in Hline as (h & p & Hsplit & Hdec).
  rewrite (Split_cutAtSpace line h p Hsplit). exact Hdec.
Qed.

Lemma FromString_entries (s : string) (i : SchemeManagerIndex) :
  FromString ∅ s = (i, None) ->
  i = indexOfEntries (entries s) ∅
  /\ Forall (fun e => (DecodeString e.1).2 = None) (entries s).
Proof.
  unfold FromString. intros Hparse.
  assert (Hnone : (FromLines ∅ 0 (Split s newline)).2 = None) by (rewrite Hparse; reflexivity).
  split.
  - pose proof (FromLines_index _ _ _ Hnone) as Hindex. rewrite Hparse in Hindex.
    exact Hindex.
  - apply entries_hex, FromLines_None with (i := ∅) (j := 0%nat). exact Hnone.
Qed.

(** C8, as the code has it.  For every index text accepted by
    [FromString] in which no path occurs on two lines, [String] of the
    parsed index is the canonical form of the text: the same entries in the
    lexicographic order of their paths, each as lower-case hexadecimal hash,
    one space, the path and a newline.  When a path occurs on several lines,
    only its last entry is emitted. *)
Theorem String_FromString_canonical (s : string) (i : SchemeManagerIndex) :
  FromString ∅ s = (i, None) ->
  SchemeManagerIndex_String i =
    concatStrings (renderEntry <$> merge_sort entryLe (lastEntries (entries s)))
  /\ (NoDup (entries s).*2 -> SchemeManagerIndex_String i = canonical_sort s)
  /\ StronglySorted entryLe (merge_sort entryLe (lastEntries (entries s)))
  /\ (NoDup (entries s).*2 -> merge_sort entryLe (lastEntries (entries s)) ≡ₚ entries s).
Proof.
  intros Hparse. destruct (FromString_entries s i Hparse) as [-> Hhex].
  assert (Hlast : SchemeManagerIndex_String (indexOfEntries (entries s) ∅) =
            concatStrings (renderEntry <$> merge_sort entryLe (lastEntries (entries s)))).
  { rewrite indexOfEntries_lastEntries. apply String_indexOfEntries.
    - apply lastEntries_NoDup.
    - rewrite Forall_forall in *. intros e He. apply Hhex, lastEntries_subset, He. }
  split; [exact Hlast|]. split; [|split].
  - intros Hnd. rewrite Hlast, (lastEntries_id _ Hnd). reflexivity.
  - apply StronglySorted_merge_sort; apply _.
  - intros Hnd. rewrite (lastEntries_id _ Hnd). apply merge_sort_Permutation.
Qed.


Lemma String_FromString_canonical_witness :
  FromString ∅ twoEntries =
    ({[ "z/description.xml" := [Byte.xbb]; "a/logo.png" := [Byte.xaa] ]}, None)
  /\ SchemeManagerIndex_String
       {[ "z/description.xml" := [Byte.xbb]; "a/logo.png" := [Byte.xaa] ]}
     = "aa a/logo.png" +:+ nl +:+ "bb z/description.xml" +:+ nl
  /\ canonical_sort twoEntries = "aa a/logo.png" +:+ nl +:+ "bb z/description.xml" +:+ nl.
Proof.
  assert (Hparse : FromString ∅ twoEntries =
            ({[ "z/description.xml" := [Byte.xbb]; "a/logo.png" := [Byte.xaa] ]}, None)).
  { vm_compute. reflexivity. }
  split; [exact Hparse|].
  destruct (String_FromString_canonical twoEntries _ Hparse) as (_ & Hcanonical & _).
  assert (Hnd : NoDup (entries twoEntries).*2).
  { vm_compute. apply NoDup_cons. split; [|apply NoDup_singleton].
    intros Hin. apply list_elem_of_singleton in Hin. discriminate. }
  split; [|vm_compute; reflexivity].
  rewrite (Hcanonical Hnd). vm_compute. reflexivity.
Defined.

(** An accepted text in which a path occurs twice: [String] emits one
    entry, the canonical form of the text has two. *)
Lemma String_FromString_repeated_path :
  FromString ∅ repeatedPath = ({[ "p" := [Byte.xbb] ]}, None)
  /\ SchemeManagerIndex_String {[ "p" := [Byte.xbb] ]} = "bb p" +:+ nl
  /\ canonical_sort repeatedPath = "aa p" +:+ nl +:+ "bb p" +:+ nl
  /\ SchemeManagerIndex_String (FromString ∅ repeatedPath).1 <> canonical_sort repeatedPath.
Proof.
  split; [vm_compute; reflexivity|]. split; [vm_compute; reflexivity|].
  split; [vm_compute; reflexivity|]. vm_compute. discriminate.
Qed.


(** * What parsing leaves alone *)

Section Parsing.
Context `{Libraries}.

Lemma sameManagers_refl (c : Configuration) : sameManagers c c.
Proof. split; reflexivity. Qed.

Lemma sameManagers_trans (c1 c2 c3 : Configuration) :
  sameManagers c1 c2 -> sameManagers c2 c3 -> sameManagers c1 c3.
Proof. intros [H1 H2] [H3 H4]. split; congruence. Qed.

Lemma framed_ret {A : Type} (a : A) : framed (mret a).
Proof. intros c c' r [= <- _]. apply sameManagers_refl. Qed.

Lemma framed_bind {A B : Type} (m : method A) (k : A -> method B) :
  framed m -> (forall a, framed (k a)) -> framed (m ≫= k).
Proof.
  intros Hm Hk c c' r. unfold mbind, method_bind.
  destruct (m c) as [c1 [a|p]] eqn:Hrun.
  - intros Hrest. exact (sameManagers_trans _ _ _ (Hm _ _ _ Hrun) (Hk a _ _ _ Hrest)).
  - intros [= <- _]. exact (Hm _ _ _ Hrun).
Qed.

Lemma framed_getConf : framed getConf.
Proof. intros c c' r [= <- _]. apply sameManagers_refl. Qed.

Lemma framed_managerAt (key : string) : framed (managerAt key).
Proof. intros c c' r [= <- _]. apply sameManagers_refl. Qed.

Lemma framed_liftOutcome {A : Type} (o : outcome A) : framed (liftOutcome o).
Proof. intros c c' r [= <- _]. apply sameManagers_refl. Qed.

Lemma framed_modify (f : Configuration -> Configuration) :
  (forall c, sameManagers c (f c)) -> framed (modify f).
Proof. intros Hf c c' r [= <- _]. apply Hf. Qed.

Lemma framed_warn (msg : string) : framed (warn msg).
Proof. apply framed_modify. intros c. split; reflexivity. Qed.

Lemma framed_forEachM {A : Type} (f : A -> method unit) (l : list A) :
  (forall a, framed (f a)) -> framed (forEachM f l).
Proof.
  intros Hf. induction l as [|a l IH]; simpl.
  - apply framed_ret.
  - apply framed_bind; [apply Hf | intros _; exact IH].
Qed.

(** Goals of the form [framed m]: by the structure of [m]. *)
Ltac framedStep :=
  match goal with
  | |- framed (mret _) => apply framed_ret
  | |- framed (_ ≫= _) => apply framed_bind
  | |- framed getConf => apply framed_getConf
  | |- framed (managerAt _) => apply framed_managerAt
  | |- framed (liftOutcome _) => apply framed_liftOutcome
  | |- framed (warn _) => apply framed_warn
  | |- framed (forEachM _ _) => apply framed_forEachM
  | |- framed (modify _) => apply framed_modify; intros ?; split; reflexivity
  | |- framed (match ?e with _ => _ end) => destruct e
  | |- forall _, _ => intros ?
  end.
Ltac framedAuto := repeat framedStep.

Lemma framed_checkTranslations (file : string)
    (translated : list (string * TranslatedString)) :
  framed (checkTranslations file translated).
Proof. unfold checkTranslations. framedAuto. Qed.

Lemma framed_checkVisitedPath (w : World) (index : SchemeManagerIndex)
    (path : string) (isDir : option bool) :
  framed (checkVisitedPath w index path isDir).
Proof. unfold checkVisitedPath. framedAuto. Qed.

Lemma framed_checkVisited (w : World) (index : SchemeManagerIndex)
    (visited : list (string * bool)) :
  framed (checkVisited w index visited).
Proof.
  induction visited as [|[path isDir] rest IH]; simpl.
  - apply framed_ret.
  - apply framed_bind; [apply framed_checkVisitedPath|].
    intros [e|]; [apply framed_ret | exact IH].
Qed.

Lemma framed_checkUnsignedFiles (w : World) (name : string)
    (index : SchemeManagerIndex) :
  framed (checkUnsignedFiles w name index).
Proof.
  unfold checkUnsignedFiles. apply framed_bind; [apply framed_getConf|].
  intros conf. destruct (Walk w _).
  - apply framed_checkVisited.
  - apply framed_checkVisitedPath.
Qed.

Lemma framed_parseIndex (w : World) (name : string) : framed (parseIndex w name).
Proof.
  unfold parseIndex. apply framed_bind; [apply framed_getConf|]. intros conf.
  destruct (AssertPathExists w _); [apply framed_ret|].
  destruct (ReadFile w _) as [bts [e|]]; [apply framed_ret|].
  destruct (FromString _ _) as [index [e|]]; [apply framed_ret|].
  apply framed_bind; [apply framed_checkUnsignedFiles | intros; apply framed_ret].
Qed.

Lemma framed_checkIssuer (w : World) (manager : SchemeManager) (issuer : Issuer)
    (dir : string) :
  framed (checkIssuer w manager issuer dir).
Proof.
  unfold checkIssuer.
  apply framed_bind; [apply framed_checkTranslations|]. framedAuto.
Qed.

Lemma framed_checkAttributeList (name : string) (count i : Z)
    (attrs : list AttributeType) (indices : gset Z) :
  framed (checkAttributeList name count i attrs indices).
Proof.
  revert i indices. induction attrs as [|attr rest IH]; intros i indices; simpl.
  - apply framed_ret.
  - apply framed_bind; [apply framed_checkTranslations|]. intros _.
    apply framed_bind; [framedAuto|]. intros _. apply IH.
Qed.

Lemma framed_checkAttributes (cred : CredentialType) : framed (checkAttributes cred).
Proof.
  unfold checkAttributes. destruct (_ =? 0); [apply framed_ret|].
  apply framed_bind; [apply framed_checkAttributeList|]. framedAuto.
Qed.

Lemma framed_checkCredentialType (w : World) (manager : SchemeManager)
    (issuer : Issuer) (cred : CredentialType) (dir : string) :
  framed (checkCredentialType w manager issuer cred dir).
Proof.
  unfold checkCredentialType.
  apply framed_bind; [apply framed_checkTranslations|]. intros _.
  repeat (match goal with |- framed (if ?b then _ else _) => destruct b end;
          [apply framed_ret|]).
  apply framed_bind; [framedAuto|]. intros _. apply framed_checkAttributes.
Qed.

Lemma framed_addReverseHash (credid : string) : framed (addReverseHash credid).
Proof. unfold addReverseHash. framedAuto. Qed.

Lemma framed_iterateDirs {S : Type} (w : World)
    (handler : string -> S -> method (S * option goerror)) (dirs : list string) (s : S) :
  (forall dir s, framed (handler dir s)) -> framed (iterateDirs w handler dirs s).
Proof.
  intros Hhandler. revert s. induction dirs as [|dir rest IH]; intros s; simpl.
  - apply framed_ret.
  - destruct (Stat w dir) as [[content|]|]; [apply IH| |apply framed_ret].
    destruct (HasSuffix dir "/.git"); [apply IH|].
    apply framed_bind; [apply Hhandler|]. intros [s' [e|]]; [apply framed_ret|apply IH].
Qed.

Lemma framed_parseCredentialFolder (w : World) (key : string) (issuer : Issuer)
    (dir : string) (foundcred : bool) :
  framed (parseCredentialFolder w key issuer dir foundcred).
Proof.
  unfold parseCredentialFolder.
  apply framed_bind; [apply framed_getConf|]. intros conf.
  apply framed_bind; [apply framed_managerAt|]. intros manager.
  apply framed_bind; [apply framed_liftOutcome|]. intros [[cred found] [e|]];
    [apply framed_ret|].
  destruct (negb found); [apply framed_ret|].
  apply framed_bind; [apply framed_checkCredentialType|]. intros [e|];
    [apply framed_ret|].
  apply framed_bind; [apply framed_getConf|]. intros conf'.
  destruct (SchemeManagers conf' !! _); [|apply framed_liftOutcome].
  apply framed_bind; [framedAuto|]. intros _.
  apply framed_bind; [apply framed_addReverseHash|]. intros _.
  apply framed_bind; [|intros; apply framed_ret].
  apply framed_forEachM. intros attr. framedAuto.
Qed.

Lemma framed_parseCredentialsFolder (w : World) (key : string) (issuer : Issuer)
    (path : string) :
  framed (parseCredentialsFolder w key issuer path).
Proof.
  unfold parseCredentialsFolder, iterateSubfolders.
  apply framed_bind.
  - apply framed_iterateDirs. intros. apply framed_parseCredentialFolder.
  - intros [foundcred err]. framedAuto.
Qed.

Lemma framed_parseIssuerFolder (w : World) (key : string) (dir : string) (u : unit) :
  framed (parseIssuerFolder w key dir u).
Proof.
  unfold parseIssuerFolder.
  apply framed_bind; [apply framed_getConf|]. intros conf.
  apply framed_bind; [apply framed_managerAt|]. intros manager.
  apply framed_bind; [apply framed_liftOutcome|]. intros [[issuer found] [e|]];
    [apply framed_ret|].
  destruct (negb found); [apply framed_ret|].
  destruct (_ <? 4); [apply framed_ret|].
  apply framed_bind; [apply framed_checkIssuer|]. intros [e|]; [apply framed_ret|].
  apply framed_bind; [apply framed_getConf|]. intros conf'.
  destruct (SchemeManagers conf' !! _).
  - apply framed_bind; [framedAuto|]. intros _.
    apply framed_bind; [apply framed_parseCredentialsFolder|].
    intros; apply framed_ret.
  - apply framed_bind; [framedAuto|]. intros _. apply framed_liftOutcome.
Qed.

Lemma framed_parseIssuerFolders (w : World) (key : string) (path : string) :
  framed (parseIssuerFolders w key path).
Proof.
  unfold parseIssuerFolders, iterateSubfolders.
  apply framed_bind.
  - apply framed_iterateDirs. intros. apply framed_parseIssuerFolder.
  - intros [u err]. apply framed_ret.
Qed.

End Parsing.


(** * Authenticated reading and verification of a scheme *)

Lemma bytesEqual_eq (a b : list byte) : bytesEqual a b = true <-> a = b.
Proof.
  revert b. induction a as [|x a IH]; intros [|y b]; simpl; try (split; congruence).
  rewrite andb_true_iff, IH. split.
  - intros [Hxy ->]. apply Byte.byte_dec_bl in Hxy. congruence.
  - intros [= -> ->]. split; [apply Byte.byte_dec_lb|]; reflexivity.
Qed.

(** The three outcomes of [PathExists]. *)
Lemma PathExists_cases (w : World) (p : string) :
  (is_Some (Stat w p) /\ PathExists w p = (true, None))
  \/ (Stat w p = None /\ PathExists w p = (false, None))
  \/ (Stat w p = None /\ PathExists w p = (true, Some (PathError "stat" p))).
Proof.
  unfold PathExists. destruct (Stat w p) as [n|]; [left; eauto|].
  destruct (statNotExist w p); auto.
Qed.

Section Verification.
Context `{Libraries}.

Lemma ReadAuthenticatedFile_cases (w : World) (conf : Configuration)
    (manager : SchemeManager) (path : string) :
  match SchemeManager_index manager !! ToSlash path with
  | None => ReadAuthenticatedFile w conf manager path = ([], false, None)
  | Some signedHash =>
      match ReadFile w (Join [Path conf; path]) with
      | (_, Some e) => ReadAuthenticatedFile w conf manager path = ([], true, Some e)
      | (bts, None) =>
          (Sha256.Sum256 bts = signedHash /\
           ReadAuthenticatedFile w conf manager path = (bts, true, None))
          \/ (Sha256.Sum256 bts <> signedHash /\
              ReadAuthenticatedFile w conf manager path =
                ([], true, Some (Errorf ("Hash of " +:+ path
                                           +:+ " does not match scheme manager index"))))
      end
  end.
Proof.
  unfold ReadAuthenticatedFile.
  destruct (SchemeManager_index manager !! ToSlash path) as [signedHash|]; [|reflexivity].
  destruct (ReadFile w _) as [bts [e|]]; [reflexivity|].
  destruct (bytesEqual (Sha256.Sum256 bts) signedHash) eqn:Heq.
  - left. apply bytesEqual_eq in Heq. auto.
  - right. split; [|reflexivity]. intros Hh. apply bytesEqual_eq in Hh. congruence.
Qed.

Lemma verifyFiles_verified (w : World) (conf : Configuration) (manager : SchemeManager)
    (entries : list (string * list byte)) :
  verifyFiles w conf manager entries = None ->
  forall file hash, (file, hash) ∈ entries ->
    SchemeManager_index manager !! file = Some hash ->
    PathExists w (Join [Path conf; file]) = (false, None)
    \/ exists bts, ReadFile w (Join [Path conf; file]) = (bts, None)
                   /\ Sha256.Sum256 bts = hash.
Proof.
  induction entries as [|[f h] rest IH]; intros Hverify file hash Hin Hlookup.
  - inversion Hin.
  - cbn [verifyFiles] in Hverify.
    destruct (PathExists_cases w (Join [Path conf; f]))
      as [[_ Hexists]|[[_ Hexists]|[_ Hexists]]];
      rewrite Hexists in Hverify; cbn [negb] in Hverify; [| |discriminate Hverify].
    + apply elem_of_cons in Hin as [[= -> ->]|Hin].
      * right.
        pose proof (ReadAuthenticatedFile_cases w conf manager f) as Hcases.
        unfold ToSlash in Hcases. rewrite Hlookup in Hcases.
        destruct (ReadFile w (Join [Path conf; f])) as [bts [e|]].
        -- rewrite Hcases in Hverify. discriminate Hverify.
        -- destruct Hcases as [[Hsum _]|[_ Hraf]]; [eauto|].
           rewrite Hraf in Hverify. discriminate Hverify.
      * apply IH; try assumption.
        destruct (ReadAuthenticatedFile w conf manager f) as [[? ?] [e|]];
          [discriminate Hverify | exact Hverify].
    + apply elem_of_cons in Hin as [[= -> ->]|Hin]; [left; exact Hexists|].
      apply IH; assumption.
Qed.

Lemma VerifySchemeManager_verified (w : World) (conf : Configuration)
    (manager : SchemeManager) :
  VerifySchemeManager w conf manager = Done None ->
  verified w (Path conf) manager.
Proof.
  unfold VerifySchemeManager. cbn [mbind outcome_bind].
  destruct (VerifySignature w conf _) as [[e|]|p]; try discriminate.
  intros [= Hverify] file hash Hlookup.
  apply (verifyFiles_verified w conf manager _ Hverify file hash); [|exact Hlookup].
  apply elem_of_map_to_list. exact Hlookup.
Qed.

Ltac stepIn' :=
  cbv beta iota zeta delta [mbind method_bind mret method_ret getConf managerAt
                            liftOutcome modify updateManager].

Ltac stepIn H :=
  cbv beta iota zeta delta [mbind method_bind mret method_ret getConf managerAt
                            liftOutcome modify updateManager] in H.

Lemma checkScheme_status (w : World) (key dir : string) (c c' : Configuration)
    (managers : gmap string SchemeManager) (m : SchemeManager)
    (r : outcome (option goerror)) :
  SchemeManagers c = <[key := m]> managers ->
  checkScheme w key dir c = (c', r) ->
  exists m', SchemeManagers c' = <[key := m']> managers /\ Path c' = Path c /\
             (r = Done None -> m' = m) /\
             (Status_ m <> SchemeManagerStatusValid ->
              Status_ m' <> SchemeManagerStatusValid).
Proof.
  intros Hmanagers. unfold checkScheme.
  cbv beta iota zeta delta [mbind method_bind managerAt]. cbn beta iota.
  rewrite Hmanagers, lookup_insert_eq. cbn [default].
  destruct (_ <? 7).
  { stepIn' . intros [= <- <-]. cbn. rewrite Hmanagers, alter_insert_eq.
    eexists. split; [reflexivity|]. split; [reflexivity|].
    split; [discriminate | cbn; congruence]. }
  destruct (negb (String.eqb (Base dir) _)).
  { stepIn'. intros [= <- <-]. cbn. rewrite Hmanagers, alter_insert_eq.
    eexists. split; [reflexivity|]. split; [reflexivity|].
    split; [discriminate | cbn; congruence]. }
  match goal with |- context [match ?e with Some _ => _ | None => _ end] =>
    destruct e end.
  { stepIn'. intros [= <- <-]. cbn. rewrite Hmanagers, alter_insert_eq.
    eexists. split; [reflexivity|]. split; [reflexivity|].
    split; [discriminate | cbn; congruence]. }
  stepIn'.
  destruct (checkTranslations _ _ c) as [c1 [[]|p]] eqn:Hct;
    apply framed_checkTranslations in Hct as [HM HP];
    intros [= <- <-]; exists m; rewrite HM, HP; auto.
Qed.

(** An exit of the body that leaves the manager with a status other
    than Valid. *)
Ltac exitNotValid Hrun Hmanagers :=
  cbv beta iota zeta in Hrun;
  injection Hrun as <- <-; cbn [SchemeManagers setSchemeManagers Path];
  rewrite ?Hmanagers, ?alter_insert_eq;
  eexists; split; [reflexivity|]; split; [reflexivity|];
  split; [discriminate | cbn; congruence].

Lemma parseSchemeManagerFolderBody_valid (w : World) (dir key : string)
    (c c' : Configuration) (managers : gmap string SchemeManager) (m0 : SchemeManager)
    (r : outcome (option goerror)) :
  SchemeManagers c = <[key := m0]> managers ->
  Status_ m0 <> SchemeManagerStatusValid ->
  parseSchemeManagerFolderBody w dir key c = (c', r) ->
  exists m', SchemeManagers c' = <[key := m']> managers /\ Path c' = Path c /\
             (r = Done None -> Status_ m' = SchemeManagerStatusValid) /\
             (Status_ m' = SchemeManagerStatusValid ->
              r = Done None /\ verified w (Path c) m').
Proof.
  intros Hmanagers Hstatus Hrun. unfold parseSchemeManagerFolderBody in Hrun.
  stepIn Hrun.
  destruct (VerifySignature w c _) as [[e|]|p];
    [exitNotValid Hrun Hmanagers | | exitNotValid Hrun Hmanagers].
  destruct (parseIndex w (Base dir) c) as [c1 [[index err]|p]] eqn:Hindex;
    apply framed_parseIndex in Hindex as [HM1 HP1]; rewrite Hmanagers in HM1;
    [|rewrite <- HP1; exitNotValid Hrun HM1].
  cbn [SchemeManagers setSchemeManagers Path] in Hrun.
  rewrite HM1, alter_insert_eq in Hrun.
  destruct err as [e|]; [rewrite <- HP1; exitNotValid Hrun HM1|].
  cbn [SchemeManagers setSchemeManagers Path] in Hrun.
  rewrite lookup_insert_eq in Hrun. cbn [default] in Hrun.
  destruct (pathToDescription _ _ _ _ _ _) as [[[desc found] err]|p];
    [|rewrite <- HP1; exitNotValid Hrun HM1].
  cbn [SchemeManagers setSchemeManagers Path] in Hrun.
  rewrite alter_insert_eq in Hrun.
  destruct err as [e|]; [rewrite <- HP1; exitNotValid Hrun HM1|].
  destruct (negb found); [rewrite <- HP1; exitNotValid Hrun HM1|].
  set (m2 := setDescription (setIndex m0 index) desc) in *.
  match type of Hrun with
  | context [checkScheme w key dir ?cc] => set (c2 := cc) in *
  end.
  assert (HM2 : SchemeManagers c2 = <[key := m2]> managers) by reflexivity.
  assert (HP2 : Path c2 = Path c) by exact HP1.
  assert (Hstatus2 : Status_ m2 <> SchemeManagerStatusValid) by exact Hstatus.
  clearbody c2 m2.
  destruct (checkScheme w key dir c2) as [c3 [err|p]] eqn:Hcheck;
    destruct (checkScheme_status _ _ _ _ _ _ _ _ HM2 Hcheck)
      as (m3 & HM3 & HP3 & Hsame & Hstatus3);
    specialize (Hstatus3 Hstatus2); rewrite HP2 in HP3.
  2: { cbv beta iota zeta in Hrun. injection Hrun as <- <-. exists m3.
       split; [exact HM3|]. split; [exact HP3|].
       split; [discriminate | intros; contradiction]. }
  destruct err as [e|].
  { cbv beta iota zeta in Hrun. injection Hrun as <- <-. exists m3.
    split; [exact HM3|]. split; [exact HP3|].
    split; [discriminate | intros; contradiction]. }
  cbv beta iota zeta in Hrun.
  rewrite HM3, lookup_insert_eq in Hrun. cbn [default from_option] in Hrun.
  unfold id in Hrun.
  destruct (VerifySchemeManager w c3 m3) as [[e|]|p] eqn:Hverify;
    [rewrite <- HP3; exitNotValid Hrun HM3 | | rewrite <- HP3; exitNotValid Hrun HM3].
  apply VerifySchemeManager_verified in Hverify. rewrite HP3 in Hverify.
  destruct (readTimestamp w _) as [[[ts|] [|]] [e|]];
    try (rewrite <- HP3; exitNotValid Hrun HM3).
  cbv beta iota zeta in Hrun.
  cbn [SchemeManagers setSchemeManagers Path] in Hrun.
  rewrite HM3, alter_insert_eq in Hrun.
  match type of Hrun with
  | context [parseIssuerFolders w key dir ?cc] => set (c4 := cc) in *
  end.
  assert (HM4 : SchemeManagers c4 = <[key := setTimestamp m3 ts]> managers)
    by reflexivity.
  assert (HP4 : Path c4 = Path c) by exact HP3.
  clearbody c4.
  destruct (parseIssuerFolders w key dir c4) as [c5 [err|p]] eqn:Hissuers;
    apply framed_parseIssuerFolders in Hissuers as [HM5 HP5];
    rewrite HM4 in HM5; rewrite HP4 in HP5;
    [|rewrite <- HP5; exitNotValid Hrun HM5].
  destruct err as [e|]; [rewrite <- HP5; exitNotValid Hrun HM5|].
  cbv beta iota zeta in Hrun.
  injection Hrun as <- <-. cbn [SchemeManagers setSchemeManagers Path].
  rewrite HM5, alter_insert_eq.
  eexists. split; [reflexivity|]. split; [exact HP5|].
  split; [reflexivity|]. intros _. split; [reflexivity|].
  exact Hverify.
Qed.

Lemma ParseSchemeManagerFolder_valid (w : World) (dir : string)
    (manager : SchemeManager) (c c' : Configuration) (r : outcome (option goerror)) :
  Status_ manager <> SchemeManagerStatusValid ->
  ParseSchemeManagerFolder w dir manager c = (c', r) ->
  exists m', SchemeManagers c' =
               <[SchemeManager_Identifier manager := m']> (SchemeManagers c) /\
             Path c' = Path c /\
             (r = Done None -> Status_ m' = SchemeManagerStatusValid) /\
             (Status_ m' = SchemeManagerStatusValid ->
              r = Done None /\ verified w (Path c) m').
Proof.
  intros Hstatus Hrun. unfold ParseSchemeManagerFolder in Hrun. stepIn Hrun.
  match type of Hrun with
  | context [parseSchemeManagerFolderBody w dir _ ?cc] => set (c0 := cc) in *
  end.
  assert (HM0 : SchemeManagers c0 =
                  <[SchemeManager_Identifier manager := manager]> (SchemeManagers c))
    by reflexivity.
  assert (HP0 : Path c0 = Path c) by reflexivity.
  clearbody c0.
  destruct (parseSchemeManagerFolderBody w dir _ c0) as [c1 rb] eqn:Hbody.
  destruct (parseSchemeManagerFolderBody_valid _ _ _ _ _ _ _ _ HM0 Hstatus Hbody)
    as (m' & HM1 & HP1 & Hok & Hvalid).
  rewrite HP0 in *. exists m'.
  destruct rb as [[e|]|p]; cbv beta iota zeta in Hrun; injection Hrun as <- <-.
  - split; [exact HM1|]. split; [exact HP1|]. split; [discriminate|].
    intros Hv. destruct (Hvalid Hv) as [[=] _].
  - split; [exact HM1|]. split; [exact HP1|]. split; [exact Hok | exact Hvalid].
  - split; [exact HM1|]. split; [exact HP1|]. split; [discriminate|].
    intros Hv. destruct (Hvalid Hv) as [[=] _].
Qed.

(** ** The whole folder *)

Lemma iterateDirs_validVerified {S : Type} (w : World)
    (handler : string -> S -> method (S * option goerror)) (dirs : list string) (s : S)
    (c c' : Configuration) (r : outcome (S * option goerror)) :
  (forall dir s c c' r,
     validVerified w c -> handler dir s c = (c', r) -> validVerified w c') ->
  validVerified w c ->
  iterateDirs w handler dirs s c = (c', r) ->
  validVerified w c'.
Proof.
  intros Hhandler. revert s c. induction dirs as [|dir rest IH]; intros s c Hc.
  - intros [= <- _]. exact Hc.
  - cbn [iterateDirs]. destruct (Stat w dir) as [[content|]|].
    + apply IH. exact Hc.
    + destruct (HasSuffix dir "/.git"); [apply IH; exact Hc|].
      unfold mbind, method_bind.
      destruct (handler dir s c) as [c1 [[s1 [e|]]|p]] eqn:Hrun;
        pose proof (Hhandler _ _ _ _ _ Hc Hrun) as Hc1.
      * intros [= <- _]. exact Hc1.
      * apply IH. exact Hc1.
      * intros [= <- _]. exact Hc1.
    + intros [= <- _]. exact Hc.
Qed.

Lemma parseManagerDir_validVerified (w : World) (dir : string)
    (mgrerr : option goerror) (c c' : Configuration)
    (r : outcome (option goerror * option goerror)) :
  validVerified w c ->
  parseManagerDir w dir mgrerr c = (c', r) ->
  validVerified w c'.
Proof.
  intros Hc Hrun. unfold parseManagerDir in Hrun.
  unfold mbind, method_bind in Hrun.
  destruct (ParseSchemeManagerFolder w dir _ c) as [c1 rp] eqn:Hparse.
  assert (Hfresh : Status_ (NewSchemeManager (Base dir)) <> SchemeManagerStatusValid)
    by discriminate.
  destruct (ParseSchemeManagerFolder_valid _ _ _ _ _ _ Hfresh Hparse)
    as (m' & HM1 & HP1 & _ & Hvalid).
  assert (Hc1 : validVerified w c1).
  { intros id m Hlookup Hv. rewrite HP1. rewrite HM1 in Hlookup.
    destruct (decide (SchemeManager_Identifier (NewSchemeManager (Base dir)) = id))
      as [<-|Hne].
    - rewrite lookup_insert_eq in Hlookup. injection Hlookup as <-.
      apply Hvalid. exact Hv.
    - rewrite lookup_insert_ne in Hlookup by exact Hne. exact (Hc id m Hlookup Hv). }
  destruct rp as [[e|]|p].
  - destruct e; stepIn Hrun; injection Hrun as <- _; exact Hc1.
  - injection Hrun as <- _. exact Hc1.
  - injection Hrun as <- _. exact Hc1.
Qed.

Lemma keepsConf_bind {A B : Type} (a : action A) (k : A -> action B) :
  keepsConf a -> (forall x, keepsConf (k x)) -> keepsConf (a ≫= k).
Proof.
  intros Ha Hk c w c' w' r. unfold mbind, action_bind.
  destruct (a (c, w)) as [[c1 w1] [x|p]] eqn:Hrun.
  - intros Hrest. rewrite <- (Ha _ _ _ _ _ Hrun). exact (Hk x _ _ _ _ _ Hrest).
  - intros [= <- _ _]. exact (Ha _ _ _ _ _ Hrun).
Qed.

Lemma keepsConf_ret {A : Type} (x : A) : keepsConf (mret x).
Proof. intros c w c' w' r [= <- _ _]. reflexivity. Qed.

Lemma keepsConf_getState : keepsConf getState.
Proof. intros c w c' w' r [= <- _ _]. reflexivity. Qed.

Lemma keepsConf_liftWorld {A : Type} (f : World -> World * A) :
  keepsConf (liftWorld f).
Proof.
  intros c w c' w' r. unfold liftWorld. simpl. destruct (f w). intros [= <- _ _].
  reflexivity.
Qed.

Lemma keepsConf_liftWorldOutcome {A : Type} (f : World -> World * outcome A) :
  keepsConf (liftWorldOutcome f).
Proof.
  intros c w c' w' r. unfold liftWorldOutcome. simpl. destruct (f w).
  intros [= <- _ _]. reflexivity.
Qed.

Lemma keepsConf_liftOutcome {A : Type} (o : outcome A) :
  keepsConf (liftMethod (fun _ => liftOutcome o)).
Proof. intros c w c' w' r [= <- _ _]. reflexivity. Qed.

Lemma keepsConf_CopyManagerFromAssets (scheme : string) :
  keepsConf (CopyManagerFromAssets scheme).
Proof.
  unfold CopyManagerFromAssets. apply keepsConf_bind; [apply keepsConf_getState|].
  intros [conf w]. destruct (_ || _); [apply keepsConf_ret|].
  apply keepsConf_bind; [apply keepsConf_liftWorld|]. intros [e|]; [apply keepsConf_ret|].
  apply keepsConf_bind; [apply keepsConf_liftWorldOutcome|]. intros err.
  apply keepsConf_ret.
Qed.

Lemma keepsConf_iterateDirsWriting (handler : string -> action (option goerror))
    (dirs : list string) :
  (forall dir, keepsConf (handler dir)) -> keepsConf (iterateDirsWriting handler dirs).
Proof.
  intros Hhandler. induction dirs as [|dir rest IH]; cbn [iterateDirsWriting].
  - apply keepsConf_ret.
  - apply keepsConf_bind; [apply keepsConf_getState|]. intros [conf w].
    destruct (Stat w dir) as [[content|]|]; [exact IH| |apply keepsConf_ret].
    destruct (HasSuffix dir "/.git"); [exact IH|].
    apply keepsConf_bind; [apply Hhandler|]. intros [e|]; [apply keepsConf_ret|exact IH].
Qed.

Lemma keepsConf_copyFromAssets : keepsConf copyFromAssets.
Proof.
  unfold copyFromAssets. apply keepsConf_bind; [apply keepsConf_getState|].
  intros [conf w]. apply keepsConf_iterateDirsWriting. intros dir.
  apply keepsConf_bind; [apply keepsConf_getState|]. intros [conf' w'].
  apply keepsConf_bind; [apply keepsConf_liftOutcome|]. intros [uptodate [e|]];
    [apply keepsConf_ret|].
  destruct (negb uptodate); [|apply keepsConf_ret].
  apply keepsConf_bind; [apply keepsConf_CopyManagerFromAssets|].
  intros [copied err]. apply keepsConf_ret.
Qed.

Lemma action_bind_inv {A B : Type} (a : action A) (k : A -> action B)
    (s s' : Configuration * World) (r : outcome B) :
  (a ≫= k) s = (s', r) ->
  (exists s1 x, a s = (s1, Done x) /\ k x s1 = (s', r))
  \/ (exists p, a s = (s', Panics p) /\ r = Panics p).
Proof.
  unfold mbind, action_bind. destruct (a s) as [s1 [x|p]].
  - intros Hrest. left. eauto.
  - intros [= <- <-]. right. eauto.
Qed.

Lemma ParseFolder_validVerified (c c' : Configuration) (w w' : World)
    (r : outcome (option goerror)) :
  ParseFolder (c, w) = ((c', w'), r) -> validVerified w' c'.
Proof.
  assert (Hempty : forall w0, validVerified w0 (clear c)).
  { intros w0 id m Hlookup. cbn in Hlookup. rewrite lookup_empty in Hlookup.
    discriminate. }
  unfold ParseFolder. intros Hrun.
  apply action_bind_inv in Hrun as [(s1 & [] & Hclear & Hrun)|(p & [=] & _)].
  injection Hclear as <-. cbn [fst snd] in Hrun.
  apply action_bind_inv in Hrun as [(s2 & [conf w0] & Hget & Hrun)|(p & [=] & _)].
  injection Hget as <- <- <-.
  apply action_bind_inv in Hrun as [([c1 w1] & err & Hcopy & Hrun)|(p & Hcopy & ->)].
  2: { assert (c' = clear c) as ->; [|apply Hempty].
       destruct (negb _).
       - exact (keepsConf_copyFromAssets _ _ _ _ _ Hcopy).
       - exact (keepsConf_ret _ _ _ _ _ _ Hcopy). }
  assert (c1 = clear c) as ->.
  { destruct (negb _).
    - exact (keepsConf_copyFromAssets _ _ _ _ _ Hcopy).
    - exact (keepsConf_ret _ _ _ _ _ _ Hcopy). }
  destruct err as [e|]; [injection Hrun as <- <- _; apply Hempty|].
  apply action_bind_inv in Hrun as [([c2 w2] & [mgrerr err] & Hiter & Hrun)
                                   |(p & Hiter & ->)].
  - assert (Hc2 : validVerified w2 c2).
    { unfold liftMethod in Hiter. cbn [fst snd] in Hiter.
      unfold mbind, method_bind, getConf, iterateSubfolders in Hiter.
      destruct (iterateDirs w1 _ _ _ _) as [c3 r3] eqn:Hdirs.
      injection Hiter as <- <- _.
      apply (iterateDirs_validVerified w1) in Hdirs;
        [exact Hdirs | intros dir s; apply parseManagerDir_validVerified | apply Hempty]. }
    destruct err as [e|]; [injection Hrun as <- <- _; exact Hc2|].
    apply action_bind_inv in Hrun as [(s3 & [] & Hinit & Hrun)|(p & [=] & _)].
    injection Hinit as <-. injection Hrun as <- <- _. exact Hc2.
  - unfold liftMethod in Hiter. cbn [fst snd] in Hiter.
    unfold mbind, method_bind, getConf, iterateSubfolders in Hiter.
    destruct (iterateDirs w1 _ _ _ _) as [c3 r3] eqn:Hdirs.
    injection Hiter as <- <- _.
    apply (iterateDirs_validVerified w1) in Hdirs;
      [exact Hdirs | intros dir s; apply parseManagerDir_validVerified | apply Hempty].
Qed.

End Verification.

(** C2, as the code has it.  [ReadAuthenticatedFile] returns the bytes of
    the file, with found = true and no error, if and only if the path is a
    key of the index of the scheme, the file can be read, and the SHA-256 of
    its bytes is the hash that the index records.  For a path that is not in
    the index it returns no bytes, found = false and no error; for a file
    that cannot be read it returns found = true and the error of the read;
    for a file with another hash it returns found = true and a hash
    mismatch error. *)
Theorem ReadAuthenticatedFile_outcomes (w : World) (conf : Configuration)
    (manager : SchemeManager) (path : string) :
  (forall bts,
     ReadAuthenticatedFile w conf manager path = (bts, true, None) <->
     ReadFile w (Join [Path conf; path]) = (bts, None) /\
     SchemeManager_index manager !! ToSlash path = Some (Sha256.Sum256 bts))
  /\ (SchemeManager_index manager !! ToSlash path = None ->
      ReadAuthenticatedFile w conf manager path = ([], false, None))
  /\ (forall bts e,
        is_Some (SchemeManager_index manager !! ToSlash path) ->
        ReadFile w (Join [Path conf; path]) = (bts, Some e) ->
        ReadAuthenticatedFile w conf manager path = ([], true, Some e))
  /\ (forall bts,
        is_Some (SchemeManager_index manager !! ToSlash path) ->
        ReadFile w (Join [Path conf; path]) = (bts, None) ->
        SchemeManager_index manager !! ToSlash path <> Some (Sha256.Sum256 bts) ->
        ReadAuthenticatedFile w conf manager path =
          ([], true, Some (Errorf ("Hash of " +:+ path
                                     +:+ " does not match scheme manager index")))).
Proof.
  pose proof (ReadAuthenticatedFile_cases w conf manager path) as Hcases.
  destruct (SchemeManager_index manager !! ToSlash path) as [signedHash|].
  - destruct (ReadFile w (Join [Path conf; path])) as [content [e|]].
    + split; [|split; [discriminate|split]].
      * intros bts. rewrite Hcases. split; [discriminate | intros [[=] _]].
      * intros bts e' _ [= <- <-]. exact Hcases.
      * intros bts _ [=].
    + split; [|split; [discriminate|split]].
      * intros bts. destruct Hcases as [[Hsum ->]|[Hsum ->]].
        -- split; [intros [= <-]; rewrite Hsum; auto | intros [[= <-] _]; reflexivity].
        -- split; [discriminate | intros [[= <-] [= Hh]]; congruence].
      * intros bts e _ [=].
      * intros bts _ [= <-] Hne. destruct Hcases as [[Hsum _]|[_ ->]];
          [congruence | reflexivity].
  - split; [|split; [intros _; exact Hcases|split]].
    + intros bts. rewrite Hcases. split; [discriminate | intros [_ [=]]].
    + intros bts e [h [=]].
    + intros bts [h [=]].
Qed.

Lemma ReadAuthenticatedFile_outcomes_witness :
  ReadAuthenticatedFile demoWorld demoConf demoManager "irma-demo/timestamp" =
    (bytes ("100" +:+ nl), true, None).
Proof.
  apply (proj1 (ReadAuthenticatedFile_outcomes demoWorld demoConf demoManager
                  "irma-demo/timestamp")).
  split; vm_compute; reflexivity.
Defined.

(** For a file that is on the disk and not in the index,
    [ReadAuthenticatedFile] returns no error. *)
Lemma ReadAuthenticatedFile_not_indexed_is_no_error :
  Stat demoWorld "/conf/irma-demo/pk.pem" = Some (File (bytes "pem"))
  /\ SchemeManager_index demoManager !! "irma-demo/pk.pem" = None
  /\ ReadAuthenticatedFile demoWorld demoConf demoManager "irma-demo/pk.pem" =
       ([], false, None).
Proof. split; [|split]; vm_compute; reflexivity. Qed.

(** C1, as the code has it.  For every scheme manager whose status is Valid
    after [ParseFolder], and for every scheme manager whose status is Valid
    after [ParseSchemeManagerFolder] was called with a manager whose status
    was not Valid, as [NewSchemeManager] makes it: every path listed in its
    index either does not exist under the configuration path, as
    [fs.PathExists] reports it, and is then skipped by the verification, or
    is a file that can be read and whose SHA-256 is the hash recorded in
    the index. *)
Theorem valid_scheme_files_match (L : Libraries) :
  (forall w dir manager c c' r m,
     Status_ manager <> SchemeManagerStatusValid ->
     ParseSchemeManagerFolder w dir manager c = (c', r) ->
     SchemeManagers c' !! SchemeManager_Identifier manager = Some m ->
     Status_ m = SchemeManagerStatusValid ->
     verified w (Path c') m)
  /\ (forall c w c' w' r id m,
        ParseFolder (c, w) = ((c', w'), r) ->
        SchemeManagers c' !! id = Some m ->
        Status_ m = SchemeManagerStatusValid ->
        verified w' (Path c') m).
Proof.
  split.
  - intros w dir manager c c' r m Hstatus Hrun Hlookup Hvalid.
    destruct (ParseSchemeManagerFolder_valid _ _ _ _ _ _ Hstatus Hrun)
      as (m' & HM & HP & _ & Hverified).
    rewrite HM, lookup_insert_eq in Hlookup. injection Hlookup as ->.
    rewrite HP. apply Hverified. exact Hvalid.
  - intros c w c' w' r id m Hrun Hlookup Hvalid.
    exact (ParseFolder_validVerified c c' w w' r Hrun id m Hlookup Hvalid).
Qed.

Lemma valid_scheme_files_match_witness :
  exists m,
    SchemeManagers (ParseFolder (demoConf, demoWorld)).1.1 !! "irma-demo" = Some m
    /\ Status_ m = SchemeManagerStatusValid
    /\ verified (ParseFolder (demoConf, demoWorld)).1.2
         (Path (ParseFolder (demoConf, demoWorld)).1.1) m.
Proof.
  set (res := ParseFolder (demoConf, demoWorld)).
  exists (default (NewSchemeManager "")
            (SchemeManagers res.1.1 !! "irma-demo")).
  assert (Hlookup : SchemeManagers res.1.1 !! "irma-demo" =
            Some (default (NewSchemeManager "") (SchemeManagers res.1.1 !! "irma-demo"))).
  { vm_compute. reflexivity. }
  assert (Hvalid : Status_ (default (NewSchemeManager "")
                              (SchemeManagers res.1.1 !! "irma-demo"))
                   = SchemeManagerStatusValid).
  { vm_compute. reflexivity. }
  split; [exact Hlookup|]. split; [exact Hvalid|].
  apply (proj2 (valid_scheme_files_match demoLibraries) demoConf demoWorld
           res.1.1 res.1.2 res.2 "irma-demo"); [|exact Hlookup|exact Hvalid].
  subst res. destruct (ParseFolder (demoConf, demoWorld)) as [[c' w'] r]. reflexivity.
Defined.

(** The demonstration scheme is Valid after [ParseFolder], although its
    index lists the logo of the issuer and no such file is on the disk. *)
Lemma valid_scheme_with_missing_file :
  exists m,
    SchemeManagers (ParseFolder (demoConf, demoWorld)).1.1 !! "irma-demo" = Some m
    /\ Status_ m = SchemeManagerStatusValid
    /\ is_Some (SchemeManager_index m !! "irma-demo/RU/logo.png")
    /\ Stat (ParseFolder (demoConf, demoWorld)).1.2
         (Join [Path (ParseFolder (demoConf, demoWorld)).1.1; "irma-demo/RU/logo.png"])
       = None.
Proof.
  eexists. split; [vm_compute; reflexivity|]. split; [reflexivity|].
  split; [eexists; vm_compute; reflexivity | vm_compute; reflexivity].
Qed.

(** [ParseSchemeManagerFolder] does not reset the status of the manager
    that it is given: a manager that is passed in with the status Valid
    keeps it when the signature of its index does not verify. *)
Lemma ParseSchemeManagerFolder_keeps_status_of_argument :
  exists c' e m,
    @ParseSchemeManagerFolder brokenLibraries brokenWorld "/conf/irma-demo"
      (setStatus (NewSchemeManager "irma-demo") SchemeManagerStatusValid) demoConf
    = (c', Done (Some (SchemeManagerError "irma-demo" SchemeManagerStatusValid e)))
    /\ SchemeManagers c' !! "irma-demo" = Some m
    /\ Status_ m = SchemeManagerStatusValid.
Proof.
  eexists _, _, _. split; [vm_compute; reflexivity|].
  split; [vm_compute; reflexivity|reflexivity].
Qed.


(** * Verification of the signature *)

Lemma ReadFile_exists (w : World) (p : string) (bts : list byte) :
  ReadFile w p = (bts, None) -> PathExists w p = (true, None).
Proof.
  unfold ReadFile, PathExists. destruct (Stat w p) as [[content|]|]; try discriminate.
  reflexivity.
Qed.




(** * Malformed index lines *)

Lemma VerifySignature_path (L : Libraries) (w : World) (c c0 : Configuration)
    (id : string) :
  Path c0 = Path c -> VerifySignature w c0 id = VerifySignature w c id.
Proof.
  intros HP. unfold VerifySignature, verifySignatureBody. rewrite HP. reflexivity.
Qed.

(** A scheme whose index does not parse ends with the status InvalidIndex. *)
Lemma ParseSchemeManagerFolder_invalid_index (L : Libraries) (w : World) (dir : string)
    (manager : SchemeManager) (c : Configuration) (bts : list byte) (e : goerror) :
  VerifySignature w c (SchemeManager_Identifier manager) = Done None ->
  ReadFile w (Join [Path c; Base dir; "index"]) = (bts, None) ->
  (FromString ∅ (string_of_list_byte bts)).2 = Some e ->
  exists c' m,
    ParseSchemeManagerFolder w dir manager c =
      (c', Done (Some (SchemeManagerError (SchemeManager_Identifier manager)
                         SchemeManagerStatusInvalidIndex e)))
    /\ SchemeManagers c' !! SchemeManager_Identifier manager = Some m
    /\ Status_ m = SchemeManagerStatusInvalidIndex.
Proof.
  intros Hsig Hread Hparse.
  unfold ParseSchemeManagerFolder, parseSchemeManagerFolderBody, parseIndex.
  cbv beta iota zeta delta [mbind method_bind mret method_ret getConf managerAt
                            liftOutcome modify updateManager].
  cbn [SchemeManagers setSchemeManagers Path].
  rewrite lookup_insert_eq. cbn [default from_option]. unfold id.
  match goal with
  | |- context [VerifySignature w ?c0 ?i] =>
      rewrite (VerifySignature_path L w c c0 i eq_refl)
  end.
  rewrite Hsig.
  unfold setSchemeManagers at 1 2 3 4. cbn [Path AssertPathExists]. rewrite (ReadFile_exists _ _ _ Hread). cbn [negb].
  rewrite Hread.
  destruct (FromString ∅ (string_of_list_byte bts)) as [index err].
  simpl in Hparse. subst err.
  cbn [SchemeManagers setSchemeManagers Path].
  rewrite !alter_insert_eq, lookup_insert_eq. cbn [default from_option]. unfold id.
  eexists _, _. split; [reflexivity|]. split; [apply lookup_insert_eq | reflexivity].
Qed.

(** C6, as the code has it.  [FromString] accepts a text if and only if
    every line is empty or consists of a hash of an even number of
    hexadecimal digits, one space and a path without spaces; the length of
    the hash is not checked.  The first line that is not of this form makes
    it fail: with the zero-based number of the line when the line does not
    have exactly two parts, with the error of the hexadecimal decoder (which
    names no line) when the hash is malformed.  Empty lines are ignored: the
    parsed index is the index of the entries of the lines that are not
    empty.  A scheme whose index does not parse gets the status
    InvalidIndex. *)
Theorem FromString_malformed_lines :
  (forall i s, (FromString i s).2 = None <-> Forall wellFormedLine (linesOf s))
  /\ (forall i s pre line post,
        linesOf s = pre ++ line :: post -> Forall wellFormedLine pre ->
        line <> "" -> countChar space line <> 1%nat ->
        (FromString i s).2 =
          Some (Errorf ("Scheme manager index line " +:+ Itoa (Z.of_nat (length pre))
                          +:+ " has incorrect amount of parts")))
  /\ (forall i s pre h p post,
        linesOf s = pre ++ (h +:+ " " +:+ p) :: post -> Forall wellFormedLine pre ->
        noSpace h = true -> noSpace p = true -> hexString h = false ->
        exists e, (FromString i s).2 = Some e /\
                  (e = HexErrLength \/ exists c, e = HexInvalidByte c))
  /\ (forall i s, (FromString i s).2 = None ->
                  (FromString i s).1 = indexOfEntries (entries s) i)
  /\ (forall (L : Libraries) w dir manager c bts e,
        VerifySignature w c (SchemeManager_Identifier manager) = Done None ->
        ReadFile w (Join [Path c; Base dir; "index"]) = (bts, None) ->
        (FromString ∅ (string_of_list_byte bts)).2 = Some e ->
        exists c' m,
          ParseSchemeManagerFolder w dir manager c =
            (c', Done (Some (SchemeManagerError (SchemeManager_Identifier manager)
                               SchemeManagerStatusInvalidIndex e)))
          /\ SchemeManagers c' !! SchemeManager_Identifier manager = Some m
          /\ Status_ m = SchemeManagerStatusInvalidIndex).
Proof.
  split; [|split; [|split; [|split]]].
  - intros i s. apply FromLines_None.
  - intros i s pre line post Hlines Hpre Hline Hcount.
    unfold FromString. unfold linesOf in Hlines. rewrite Hlines.
    rewrite (FromLines_first_fault pre line post i 0 Hpre Hline).
    pose proof (length_Split line space) as Hlen.
    destruct (Split line space) as [|h [|p [|q parts]]]; try reflexivity.
    simpl in Hlen. lia.
  - intros i s pre h p post Hlines Hpre Hh Hp Hhex.
    assert (Hline : h +:+ " " +:+ p <> "").
    { destruct h; discriminate. }
    unfold FromString. unfold linesOf in Hlines. rewrite Hlines.
    rewrite (FromLines_first_fault pre _ post i 0 Hpre Hline).
    rewrite (proj2 (Split_two (h +:+ " " +:+ p) h p) (conj eq_refl (conj Hh Hp))).
    destruct (DecodeString h).2 as [e|] eqn:Hdec.
    + exists e. split; [reflexivity|]. apply (DecodeString_error h e Hdec).
    + apply DecodeString_None in Hdec. congruence.
  - intros i s. apply FromLines_index.
  - exact ParseSchemeManagerFolder_invalid_index.
Qed.

Lemma FromString_malformed_lines_witness :
  linesOf ("aa p" +:+ nl +:+ "bb  q" +:+ nl) = ["aa p"] ++ "bb  q" :: [""]
  /\ (FromString ∅ ("aa p" +:+ nl +:+ "bb  q" +:+ nl)).2 =
       Some (Errorf "Scheme manager index line 1 has incorrect amount of parts").
Proof.
  split; [vm_compute; reflexivity|].
  apply (proj1 (proj2 FromString_malformed_lines) ∅ _ ["aa p"] "bb  q" [""]).
  - vm_compute. reflexivity.
  - constructor; [|constructor]. right. exists "aa", "p". vm_compute. auto.
  - discriminate.
  - vm_compute. lia.
Defined.

(** A line whose hash has four hexadecimal digits is accepted. *)
Lemma FromString_accepts_short_hash :
  String.length "abcd" <> 64%nat
  /\ FromString ∅ ("abcd irma-demo/description.xml" +:+ nl) =
       ({[ "irma-demo/description.xml" := [Byte.xab; Byte.xcd] ]}, None).
Proof. split; [vm_compute; lia | vm_compute; reflexivity]. Qed.


(** * Updates *)

(** C9.  When the timestamp of the remote scheme is not strictly newer than
    the stored one, [UpdateSchemeManager] returns without an error after
    fetching the timestamp alone: the configuration, with the index of the
    scheme, and the files on the disk are unchanged.  Two updates in a row
    against an unchanged remote therefore leave all files as they are. *)
Theorem UpdateSchemeManager_not_newer (L : Libraries) (c : Configuration) (w : World)
    (id : string) (manager : SchemeManager) (downloaded : option IrmaIdentifierSet)
    (bts : list byte) (remoteTime : Z) :
  readOnly c = false ->
  SchemeManagers c !! id = Some manager ->
  remote w !! timestampURL manager = Some bts ->
  parseTimestamp bts = inl remoteTime ->
  remoteTime <= Timestamp manager ->
  UpdateSchemeManager id downloaded (c, w) =
    ((c, fetched w (timestampURL manager)), Done (downloaded, None))
  /\ UpdateSchemeManager id downloaded (c, fetched w (timestampURL manager)) =
       ((c, fetched (fetched w (timestampURL manager)) (timestampURL manager)),
        Done (downloaded, None))
  /\ files (fetched (fetched w (timestampURL manager)) (timestampURL manager)) = files w.
Proof.
  intros Hro Hmanager Hremote Hparse Hle.
  assert (Hrun : forall w0, remote w0 = remote w ->
            UpdateSchemeManager id downloaded (c, w0) =
              ((c, fetched w0 (timestampURL manager)), Done (downloaded, None))).
  { intros w0 Hw0. unfold UpdateSchemeManager.
    cbv beta iota zeta delta [mbind action_bind mret action_ret getState].
    rewrite Hro, Hmanager.
    unfold GetBytes, liftWorld. cbn [fst snd].
    fold (timestampURL manager).
    rewrite <- Hw0 in Hremote. rewrite Hremote, Hparse.
    replace (Timestamp manager <? remoteTime) with false
      by (symmetry; apply Z.ltb_ge; exact Hle).
    cbn [negb]. reflexivity. }
  split; [apply Hrun; reflexivity|]. split; [apply Hrun; reflexivity | reflexivity].
Qed.

Lemma UpdateSchemeManager_not_newer_witness :
  UpdateSchemeManager "irma-demo" None (loadedConf, mirrorWorld) =
    ((loadedConf, fetched mirrorWorld "https://example.org/irma-demo/timestamp"),
     Done (None, None)).
Proof.
  apply (UpdateSchemeManager_not_newer demoLibraries loadedConf mirrorWorld "irma-demo"
           loadedManager None (bytes ("100" +:+ nl)) 100).
  - vm_compute. reflexivity.
  - vm_compute. reflexivity.
  - vm_compute. reflexivity.
  - vm_compute. reflexivity.
  - vm_compute. discriminate.
Defined.


(** * Read-only configurations *)

Lemma filter_lookup_negb {A : Type} (m : gmap string A) (f : string -> bool) (k : string) :
  filter (fun kv : string * A => negb (f (fst kv))) m !! k =
    if f k then None else m !! k.
Proof.
  rewrite map_lookup_filter. destruct (m !! k) as [x|]; simpl.
  - case_guard as Hg; simpl in Hg; destruct (f k); simpl in *;
      first [reflexivity | contradiction | exfalso; apply Hg; exact I].
  - destruct (f k); reflexivity.
Qed.

(** What [RemoveSchemeManager] does, on every configuration. *)
Lemma RemoveSchemeManager_effect (id : string) (c : Configuration) (w : World) :
  exists c',
    (forall fromStorage,
       RemoveSchemeManager id fromStorage (c, w) =
         if fromStorage || negb (readOnly c)
         then ((c', (RemoveAll w (Path c +:+ "/" +:+ id)).1),
               Done (RemoveAll w (Path c +:+ "/" +:+ id)).2)
         else ((c', w), Done None))
    /\ SchemeManagers c' = delete id (SchemeManagers c)
    /\ (forall k, Issuers c' !! k =
                    if String.eqb (Parent k) id then None else Issuers c !! k)
    /\ (forall k, publicKeys c' !! k =
                    if String.eqb (Parent k) id then None else publicKeys c !! k)
    /\ (forall k, CredentialTypes c' !! k =
                    if String.eqb (Parent (Parent k)) id then None
                    else CredentialTypes c !! k)
    /\ Path c' = Path c /\ readOnly c' = readOnly c
    /\ DisabledSchemeManagers c' = DisabledSchemeManagers c.
Proof.
  unfold RemoveSchemeManager.
  cbv beta iota zeta delta [mbind action_bind mret action_ret getState liftMethod
                            liftWorld modify fst snd].
  unfold setSchemeManagers, setPublicKeys, setIssuers, setCredentialTypes.
  cbn [readOnly SchemeManagers DisabledSchemeManagers Issuers CredentialTypes
       publicKeys Path].
  set (c' := mkConfiguration _ _ _ _ _ _ _ _ _ _ _ _).
  exists c'. split.
  { intros fromStorage. destruct (fromStorage || negb (readOnly c)); [|reflexivity].
    destruct (RemoveAll w (Path c +:+ "/" +:+ id)) as [w1 err]. reflexivity. }
  subst c'. cbn [SchemeManagers Issuers publicKeys CredentialTypes Path readOnly
                 DisabledSchemeManagers].
  split; [reflexivity|]. split; [|split; [|split; [|auto]]]; intros k.
  - apply (filter_lookup_negb (Issuers c) (fun k => String.eqb (Parent k) id)).
  - apply (filter_lookup_negb (publicKeys c) (fun k => String.eqb (Parent k) id)).
  - apply (filter_lookup_negb (CredentialTypes c)
             (fun k => String.eqb (Parent (Parent k)) id)).
Qed.




(** * Session traces: what every run of a session respects *)

Lemma releasedFrom_weaken (t : list event) (prev : bool) :
  releasedFrom false t = true -> releasedFrom prev t = true.
Proof.
  destruct t as [|e t]; [reflexivity|]. simpl.
  rewrite !andb_true_iff, !orb_true_iff. intros [[H|H] H']; [|discriminate].
  split; [left; exact H|exact H'].
Qed.

Lemma releasedFrom_app (a b : list event) (prev : bool) :
  releasedFrom prev a = true -> releasedFrom false b = true ->
  releasedFrom prev (a ++ b) = true.
Proof.
  revert prev. induction a as [|e a IH]; intros prev Ha Hb; simpl in *.
  - apply releasedFrom_weaken. exact Hb.
  - apply andb_true_iff in Ha as [He Ha]. rewrite He. simpl. apply IH; assumption.
Qed.

Lemma releasedFrom_spec (t : list event) (prev : bool) :
  releasedFrom prev t = true ->
  forall t1 e t2, t = t1 ++ e :: t2 -> needsDelete e = true ->
    (t1 = [] /\ prev = true) \/ exists t0, t1 = t0 ++ [EvDelete].
Proof.
  revert prev. induction t as [|x t IH]; intros prev Hrel t1 e t2 Heq He.
  - destruct t1; discriminate.
  - simpl in Hrel. apply andb_true_iff in Hrel as [Hx Hrel].
    destruct t1 as [|y t1]; simpl in Heq; injection Heq as -> ->.
    + left. rewrite He in Hx. simpl in Hx. auto.
    + right. destruct (IH _ Hrel t1 e t2 eq_refl He) as [[-> Hdel]|[t0 ->]].
      * exists []. destruct y; try discriminate. reflexivity.
      * exists (y :: t0). reflexivity.
Qed.

Lemma released_bind {A B : Type} (m : proc A) (k : A -> proc B) :
  released m -> (forall a, released (k a)) -> released (m ≫= k).
Proof.
  unfold released. destruct m as [t [a|p]]; simpl; intros Hm Hk; [|exact Hm].
  specialize (Hk a). destruct (k a) as [t' r]. simpl in *.
  apply releasedFrom_app; assumption.
Qed.

Lemma released_forEach {A : Type} (f : A -> proc unit) (l : list A) :
  (forall a, released (f a)) -> released (forEach f l).
Proof.
  intros Hf. induction l as [|x l IH]; simpl; [reflexivity|].
  apply released_bind; [apply Hf|intros _; exact IH].
Qed.

Lemma released_fail (s : session) (code : ErrorCode) : released (fail s code).
Proof. reflexivity. Qed.

Lemma released_sendResponse (env : Env) (s : session) (m : message) :
  released (sendResponse env s m).
Proof.
  unfold sendResponse, released.
  destruct (sAction s), (postError env), (String.eqb (response env) "VALID"),
    (constructError env), m; reflexivity.
Qed.

Lemma released_startKeyshareSession (env : Env) (s : session) :
  released (startKeyshareSession env s).
Proof.
  unfold startKeyshareSession. apply released_bind; [reflexivity|]. intros _.
  apply released_forEach. intros [m| |d|]; try reflexivity.
  apply released_sendResponse.
Qed.

Lemma released_do (env : Env) (s : session) (proceed : bool) :
  released (do env s proceed).
Proof.
  unfold do. destruct proceed; cbn [negb]; [|reflexivity].
  apply released_bind; [reflexivity|]. intros _.
  destruct (distributed env); cbn [negb].
  - apply released_bind; [|intros _; apply released_startKeyshareSession].
    destruct (sAction s), (buildersError env); reflexivity.
  - destruct (sAction s), (proofsError env);
      first [apply released_fail | apply released_sendResponse].
Qed.

Lemma released_start (env : Env) (s : session) : released (start env s).
Proof.
  unfold start. apply released_bind; [reflexivity|]. intros _.
  apply released_bind; [reflexivity|]. intros _.
  destruct (getJwtError env); [apply released_fail|].
  destruct (jwtError env); [apply released_fail|].
  destruct (0 <? missing env)%nat; [reflexivity|].
  apply released_bind; [reflexivity|]. intros _.
  apply released_bind; [destruct (sAction s); reflexivity|]. intros _.
  apply released_forEach. apply released_do.
Qed.

Lemma released_NewSession (env : Env) (qr : Qr) : released (NewSession env qr).
Proof.
  unfold NewSession. apply released_bind; [reflexivity|].
  intros [version [err|]]; [apply released_fail|].
  cbn [sAction]. destruct (Qr_Type qr);
    first [apply released_start | apply released_fail].
Qed.

(** X1.  The session at the server is released before the user hears of a
    failure or a cancellation: in every run of a session, each Failure and
    each Cancelled callback is directly preceded by the DELETE of the
    session. *)
Theorem failure_and_cancel_follow_delete (env : Env) (qr : Qr)
    (t1 t2 : list event) (e : event) :
  (NewSession env qr).1 = t1 ++ e :: t2 ->
  needsDelete e = true ->
  exists t0, t1 = t0 ++ [EvDelete].
Proof.
  intros Heq He.
  destruct (releasedFrom_spec _ false (released_NewSession env qr) t1 e t2 Heq He)
    as [[_ Hprev]|Ht0]; [discriminate|exact Ht0].
Qed.

Lemma failure_and_cancel_follow_delete_witness :
  exists t0,
    [EvStatusUpdate ActionDisclosing StatusCommunicating; EvGet "jwt";
     EvStatusUpdate ActionDisclosing StatusConnected; EvAskVerificationPermission;
     EvDelete] = t0 ++ [EvDelete].
Proof.
  apply (failure_and_cancel_follow_delete envCancelled qrDisclosure _ []
           (EvCancelled ActionDisclosing)); reflexivity.
Defined.

(** ** Properties of every event of a run *)

Lemma always_bind {A B : Type} (P : event -> Prop) (m : proc A) (k : A -> proc B) :
  always P m -> (forall a, always P (k a)) -> always P (m ≫= k).
Proof.
  unfold always. destruct m as [t [a|p]]; simpl; intros Hm Hk; [|exact Hm].
  specialize (Hk a). destruct (k a) as [t' r]. simpl in *.
  apply Forall_app. split; assumption.
Qed.

Lemma always_forEach {A : Type} (P : event -> Prop) (f : A -> proc unit) (l : list A) :
  (forall a, a ∈ l -> always P (f a)) -> always P (forEach f l).
Proof.
  induction l as [|x l IH]; intros Hf; simpl; [constructor|].
  apply always_bind; [apply Hf; left|].
  intros _. apply IH. intros a Ha. apply Hf. right. exact Ha.
Qed.

Lemma always_impl {A : Type} (P Q : event -> Prop) (m : proc A) :
  (forall e, P e -> Q e) -> always P m -> always Q m.
Proof. intros HPQ Hm. unfold always. eapply Forall_impl; [exact Hm|exact HPQ]. Qed.

Lemma always_emit (P : event -> Prop) (e : event) : P e -> always P (emit e).
Proof. intros He. constructor; [exact He|constructor]. Qed.

Lemma always_ret {A : Type} (P : event -> Prop) (a : A) : always P (mret a).
Proof. constructor. Qed.

Lemma always_raise {A : Type} (P : event -> Prop) (p : panic) : always P (@raise A p).
Proof. constructor. Qed.

Lemma always_fail (P : event -> Prop) (s : session) (code : ErrorCode) :
  P EvDelete -> P (EvFailure (sAction s) code) -> always P (fail s code).
Proof. intros H1 H2. repeat constructor; assumption. Qed.

(** Splits a run into its events. *)
Ltac eachEvent :=
  repeat first
    [ apply always_bind; [|intros _]
    | apply always_fail
    | apply always_raise
    | apply always_ret
    | apply always_emit
    | match goal with
      | |- always _ (match ?x with _ => _ end) => destruct x eqn:?
      | |- always _ (if ?x then _ else _) => destruct x eqn:?
      end ].

Lemma justified_weaken (env : Env) (a : Action) (P Q : Prop) (e : event) :
  (P -> Q) -> justified env a P e -> justified env a Q e.
Proof. intros HPQ. destruct e; simpl; tauto. Qed.

Lemma sendResponse_justified (env : Env) (s : session) (m : message) :
  always (justified env (sAction s) True) (sendResponse env s m).
Proof.
  unfold sendResponse.
  destruct (sAction s) eqn:Haction; eachEvent; simpl; auto.
  all: repeat split; auto.
  all: match goal with
       | H : negb (String.eqb _ _) = false |- _ =>
           apply negb_false_iff, String.eqb_eq in H; exact H
       end.
Qed.

Lemma startKeyshareSession_justified (env : Env) (s : session) :
  always (justified env (sAction s) True) (startKeyshareSession env s).
Proof.
  unfold startKeyshareSession. apply always_bind; [apply always_emit; exact I|].
  intros _. apply always_forEach. intros [m| |d|] _.
  - apply sendResponse_justified.
  - unfold KeyshareCancelled. eachEvent; exact I.
  - unfold KeyshareBlocked. eachEvent; exact I.
  - unfold KeyshareError. eachEvent; exact I.
Qed.

Lemma do_justified (env : Env) (s : session) (proceed : bool) :
  always (justified env (sAction s) (proceed = true)) (do env s proceed).
Proof.
  unfold do. destruct proceed; cbn [negb]; [|eachEvent; exact I].
  apply (always_impl (justified env (sAction s) True));
    [intros e; apply justified_weaken; auto|].
  apply always_bind; [apply always_emit; exact I|]. intros _.
  destruct (distributed env); cbn [negb].
  - apply always_bind; [|intros _; apply startKeyshareSession_justified].
    destruct (sAction s), (buildersError env); eachEvent; exact I.
  - destruct (sAction s) eqn:Haction, (proofsError env);
      first [ rewrite <- Haction; apply sendResponse_justified
            | eachEvent; exact I ].
Qed.

Lemma start_justified (env : Env) (s : session) :
  always (justified env (sAction s) (true ∈ permission env)) (start env s).
Proof.
  unfold start.
  apply always_bind; [apply always_emit; exact I|]. intros _.
  apply always_bind; [apply always_emit; exact I|]. intros _.
  destruct (getJwtError env); [eachEvent; exact I|].
  destruct (jwtError env); [eachEvent; exact I|].
  destruct (0 <? missing env)%nat; [eachEvent; exact I|].
  apply always_bind; [apply always_emit; exact I|]. intros _.
  apply always_bind; [destruct (sAction s); eachEvent; exact I|]. intros _.
  apply always_forEach. intros proceed Hin.
  apply (always_impl (justified env (sAction s) (proceed = true)));
    [|apply do_justified].
  intros e. apply justified_weaken. intros ->. exact Hin.
Qed.

Lemma NewSession_justified (env : Env) (qr : Qr) :
  always (justified env (Qr_Type qr)
            ((Qr_Type qr = ActionDisclosing \/ Qr_Type qr = ActionSigning
              \/ Qr_Type qr = ActionIssuing) /\ true ∈ permission env))
    (NewSession env qr).
Proof.
  unfold NewSession. apply always_bind; [constructor|].
  intros [version [err|]]; [eachEvent; exact I|].
  cbn [sAction ServerURL Version].
  destruct (Qr_Type qr) eqn:Htype; try (eachEvent; exact I).
  all: match goal with
       | |- always _ (start ?e ?s) =>
           apply (always_impl (justified e (sAction s) (true ∈ permission e)));
             [|apply start_justified]
       end.
  all: intros e; destruct (negb _); cbn [sAction];
    apply justified_weaken; intros Hin; split; auto.
Qed.

(** X2.  Success is reported only for a response that the server accepted:
    in every run of a session, a Success callback is for the action of the
    QR, one of disclosing, signing and issuing; the POST of the response
    returned no error; the server answered VALID (disclosing, signing) or
    the credentials could be constructed (issuing); and the user gave
    permission. *)
Theorem success_after_accepted_response (env : Env) (qr : Qr) (a : Action) :
  In (EvSuccess a) (NewSession env qr).1 ->
  a = Qr_Type qr
  /\ (a = ActionDisclosing \/ a = ActionSigning \/ a = ActionIssuing)
  /\ postError env = None
  /\ (a = ActionIssuing -> constructError env = false)
  /\ (a <> ActionIssuing -> response env = "VALID")
  /\ In true (permission env).
Proof.
  intros Hin. pose proof (NewSession_justified env qr) as Hall.
  unfold always in Hall. rewrite List.Forall_forall in Hall.
  destruct (Hall _ Hin) as (-> & Haccepted & Haction & Hperm).
  split; [reflexivity|]. split; [exact Haction|].
  apply list_elem_of_In in Hperm. unfold accepted in Haccepted.
  destruct Haction as [Ha|[Ha|Ha]]; rewrite Ha in *; destruct Haccepted as [H1 H2];
    repeat split; auto; try discriminate; congruence.
Qed.

Lemma success_after_accepted_response_witness :
  ActionDisclosing = Qr_Type qrDisclosure
  /\ (ActionDisclosing = ActionDisclosing \/ ActionDisclosing = ActionSigning
      \/ ActionDisclosing = ActionIssuing)
  /\ postError envAccepted = None
  /\ (ActionDisclosing = ActionIssuing -> constructError envAccepted = false)
  /\ (ActionDisclosing <> ActionIssuing -> response envAccepted = "VALID")
  /\ In true (permission envAccepted).
Proof.
  apply (success_after_accepted_response envAccepted qrDisclosure ActionDisclosing).
  vm_compute. tauto.
Defined.

(** X3.  Nothing is sent without the user's permission: in every run of a
    session, a response is posted to the server only if the handler
    answered a permission request with proceed = true; it is posted to
    "commitments" by an issuing session and to "proofs" by a disclosing or
    signing session. *)
Theorem post_only_with_permission (env : Env) (qr : Qr) (path : string) :
  In (EvPost path) (NewSession env qr).1 ->
  In true (permission env)
  /\ (Qr_Type qr = ActionDisclosing \/ Qr_Type qr = ActionSigning
      \/ Qr_Type qr = ActionIssuing)
  /\ path = responsePath (Qr_Type qr).
Proof.
  intros Hin. pose proof (NewSession_justified env qr) as Hall.
  unfold always in Hall. rewrite List.Forall_forall in Hall.
  destruct (Hall _ Hin) as (-> & Haction & Hperm).
  apply list_elem_of_In in Hperm. auto.
Qed.

Lemma post_only_with_permission_witness :
  In true (permission envAccepted)
  /\ (Qr_Type qrDisclosure = ActionDisclosing \/ Qr_Type qrDisclosure = ActionSigning
      \/ Qr_Type qrDisclosure = ActionIssuing)
  /\ "proofs" = responsePath (Qr_Type qrDisclosure).
Proof.
  apply (post_only_with_permission envAccepted qrDisclosure "proofs").
  vm_compute. tauto.
Defined.

(** * The index: from the map to the text and back *)

Lemma hex_of_byte (b : byte) :
  fromHexChar (hexDigit (Z_of_byte b / 16)) = Some (Z_of_byte b / 16)
  /\ fromHexChar (hexDigit (Z_of_byte b mod 16)) = Some (Z_of_byte b mod 16)
  /\ byte_of_Z (Z_of_byte b / 16 * 16 + Z_of_byte b mod 16) = b.
Proof. destruct b; vm_compute; auto. Qed.

Lemma hexDigit_of_byte_plain (b : byte) (sep : ascii) :
  sep = space \/ sep = newline ->
  Ascii.eqb (hexDigit (Z_of_byte b / 16)) sep = false
  /\ Ascii.eqb (hexDigit (Z_of_byte b mod 16)) sep = false.
Proof. intros [->| ->]; destruct b; vm_compute; auto. Qed.

Lemma DecodeString_EncodeToString (bs : list byte) :
  DecodeString (EncodeToString bs) = (bs, None).
Proof.
  induction bs as [|b bs IH]; [reflexivity|].
  destruct (hex_of_byte b) as (H1 & H2 & H3).
  cbn [EncodeToString DecodeString]. rewrite H1, H2, IH, H3. reflexivity.
Qed.

Lemma countChar_EncodeToString (bs : list byte) (sep : ascii) :
  sep = space \/ sep = newline -> countChar sep (EncodeToString bs) = 0%nat.
Proof.
  intros Hsep. induction bs as [|b bs IH]; [reflexivity|].
  destruct (hexDigit_of_byte_plain b sep Hsep) as [H1 H2].
  cbn [EncodeToString countChar]. rewrite H1, H2, IH. reflexivity.
Qed.

Lemma countChar_append (sep : ascii) (a b : string) :
  countChar sep (a +:+ b) = (countChar sep a + countChar sep b)%nat.
Proof.
  induction a as [|c a IH]; [reflexivity|].
  change (String c a +:+ b) with (String c (a +:+ b)). cbn [countChar].
  rewrite IH. lia.
Qed.

Lemma indexLine_entryText (i : SchemeManagerIndex) (path rest : string) :
  indexLine i path +:+ rest = entryText i path +:+ String newline rest.
Proof.
  unfold indexLine, entryText. rewrite !append_assoc. reflexivity.
Qed.

Lemma linesOf_index_text (i : SchemeManagerIndex) (paths : list string) :
  Forall (fun p => countChar newline p = 0%nat) paths ->
  linesOf (concatStrings (indexLine i <$> paths)) = (entryText i <$> paths) ++ [""].
Proof.
  unfold linesOf. induction 1 as [|p paths Hp _ IH]; [reflexivity|].
  cbn [fmap list_fmap concatStrings app]. rewrite indexLine_entryText.
  rewrite Split_append; [rewrite IH; reflexivity|].
  unfold entryText. rewrite !countChar_append, countChar_EncodeToString by auto.
  rewrite Hp. reflexivity.
Qed.

Lemma entryText_not_empty (i : SchemeManagerIndex) (p : string) : entryText i p <> "".
Proof.
  unfold entryText. intros Heq.
  assert (countChar space (EncodeToString (default [] (i !! p)) +:+ " " +:+ p) = 0%nat)
    as Hcount by (rewrite Heq; reflexivity).
  rewrite !countChar_append in Hcount. simpl in Hcount. lia.
Qed.

Lemma entryText_Split (i : SchemeManagerIndex) (p : string) :
  noSpace p = true ->
  Split (entryText i p) space = [EncodeToString (default [] (i !! p)); p].
Proof.
  intros Hp. apply Split_two. split; [reflexivity|]. split; [|exact Hp].
  apply noSpace_countChar, countChar_EncodeToString. auto.
Qed.

Lemma entries_index_text (i : SchemeManagerIndex) (paths : list string) :
  Forall (fun p => noSpace p = true /\ countChar newline p = 0%nat) paths ->
  Forall wellFormedLine (linesOf (concatStrings (indexLine i <$> paths)))
  /\ entries (concatStrings (indexLine i <$> paths)) =
       (fun p => (EncodeToString (default [] (i !! p)), p)) <$> paths.
Proof.
  intros Hpaths. unfold entries. rewrite linesOf_index_text
    by (eapply Forall_impl; [exact Hpaths|]; intros p [_ Hp]; exact Hp).
  split.
  - apply Forall_app. split; [|constructor; [left; reflexivity|constructor]].
    apply Forall_fmap. eapply Forall_impl; [exact Hpaths|]. intros p [Hp _].
    right. exists (EncodeToString (default [] (i !! p))), p.
    split; [reflexivity|]. split; [|split; [exact Hp|]].
    + apply noSpace_countChar, countChar_EncodeToString. auto.
    + apply DecodeString_None. rewrite DecodeString_EncodeToString. reflexivity.
  - induction Hpaths as [|p paths [Hp _] _ IH]; [reflexivity|].
    cbn [fmap list_fmap app List.filter].
    destruct (String.eqb (entryText i p) "") eqn:Hempty.
    + apply String.eqb_eq in Hempty. destruct (entryText_not_empty i p Hempty).
    + cbn [negb]. rewrite fmap_cons. f_equal; [|exact IH].
      apply Split_cutAtSpace, entryText_Split, Hp.
Qed.

(** X4.  An index survives being written and read back: for every index
    whose paths contain neither a space nor a newline, [FromString] of the
    text that [String] produces returns no error and yields the index
    itself. *)
Theorem FromString_String_roundtrip (i : SchemeManagerIndex) :
  (forall p, is_Some (i !! p) -> noSpace p = true /\ countChar newline p = 0%nat) ->
  FromString ∅ (SchemeManagerIndex_String i) = (i, None).
Proof.
  intros Hpaths. rewrite String_of_sorted_paths.
  set (paths := sortStrings (fst <$> map_to_list i)).
  assert (paths ≡ₚ (fst <$> map_to_list i)) as Hperm
    by apply merge_sort_Permutation.
  assert (forall p, p ∈ paths <-> is_Some (i !! p)) as Hin.
  { intros p. rewrite Hperm, list_elem_of_fmap. split.
    - intros [[k v] [-> Hkv]]. apply elem_of_map_to_list in Hkv. eauto.
    - intros [v Hv]. exists (p, v). split; [reflexivity|].
      apply elem_of_map_to_list. exact Hv. }
  assert (NoDup paths) as Hnodup.
  { rewrite Hperm. apply NoDup_fst_map_to_list. }
  assert (Forall (fun p => noSpace p = true /\ countChar newline p = 0%nat) paths)
    as Hall.
  { apply Forall_forall. intros p Hp. apply Hpaths, Hin, Hp. }
  destruct (entries_index_text i paths Hall) as [Hlines Hentries].
  set (s := concatStrings (indexLine i <$> paths)) in *.
  pose proof (proj2 (FromLines_None (Split s newline) ∅ 0) Hlines) as Hnone.
  pose proof (FromLines_index (Split s newline) ∅ 0 Hnone) as Hindex.
  change (cutAtSpace <$> List.filter _ (Split s newline)) with (entries s) in Hindex.
  unfold FromString. destruct (FromLines ∅ 0 (Split s newline)) as [i' err].
  simpl in Hnone, Hindex. subst err. f_equal.
  rewrite Hindex, Hentries.
  set (es := (fun p => (EncodeToString (default [] (i !! p)), p)) <$> paths).
  assert (es.*2 = paths) as Hsnd.
  { unfold es. rewrite <- list_fmap_compose. apply list_fmap_id. }
  apply map_eq. intros p. destruct (i !! p) as [h|] eqn:Hp.
  - assert ((EncodeToString (default [] (i !! p)), p) ∈ es) as Hentry.
    { unfold es. apply list_elem_of_fmap. exists p. split; [reflexivity|].
      apply Hin. eauto. }
    pose proof (indexOfEntries_lookup es ∅ _ ltac:(rewrite Hsnd; exact Hnodup) Hentry)
      as Hlookup.
    simpl in Hlookup. rewrite Hlookup, DecodeString_EncodeToString, Hp. reflexivity.
  - rewrite indexOfEntries_other; [apply lookup_empty|].
    rewrite Hsnd, Hin, Hp. intros [? [=]].
Qed.

Lemma FromString_String_roundtrip_witness :
  FromString ∅
    (SchemeManagerIndex_String {[ "irma-demo/description.xml" := [Byte.xab; Byte.xcd] ]})
  = ({[ "irma-demo/description.xml" := [Byte.xab; Byte.xcd] ]}, None).
Proof.
  apply FromString_String_roundtrip.
  intros p [h Hp]. apply lookup_singleton_Some in Hp as [<- _].
  split; vm_compute; reflexivity.
Defined.

(** * Files *)

Lemma underFile_spec (w : World) (a : string) :
  underFile w a = true <->
  exists d content, files w !! d = Some (File content) /\ below d a = true.
Proof.
  unfold underFile. rewrite existsb_exists. split.
  - intros [[d n] [Hin Hd]]. apply list_elem_of_In, elem_of_map_to_list in Hin.
    cbn [fst snd] in Hd. apply andb_prop in Hd as [Hfile Hbelow].
    destruct n as [content|]; [eauto|discriminate].
  - intros (d & content & Hlookup & Hbelow). exists (d, File content).
    split; [apply list_elem_of_In, elem_of_map_to_list; exact Hlookup|].
    cbn [fst snd isFile]. rewrite Hbelow. reflexivity.
Qed.

Lemma below_irrefl (a : string) : below a a = false.
Proof. unfold below. rewrite String.eqb_refl. apply andb_false_r. Qed.

(** When [os.Stat] finds a node. *)
Lemma Stat_found (w : World) (p : string) (n : node) :
  Stat w p = Some n <->
  p <> "" /\ underFile w (Abs w p) = false
  /\ (if String.eqb (Abs w p) "/" then n = Directory else files w !! Abs w p = Some n).
Proof.
  unfold Stat. destruct (String.eqb_spec p "") as [->|Hp]; cbn [orb].
  - split; [discriminate|]. intros [[] _]. reflexivity.
  - destruct (underFile w (Abs w p)).
    + split; [discriminate|]. intros (_ & [=] & _).
    + destruct (String.eqb (Abs w p) "/").
      * split; [intros [= <-]; auto|]. intros (_ & _ & ->). reflexivity.
      * split; [auto|]. intros (_ & _ & Hlookup). exact Hlookup.
Qed.

Lemma PathExists_Stat (w : World) (p : string) :
  is_Some (Stat w p) -> PathExists w p = (true, None).
Proof. intros [n Hn]. unfold PathExists. rewrite Hn. reflexivity. Qed.

Lemma AssertPathExists_cons (w : World) (p : string) (rest : list string) :
  AssertPathExists w (p :: rest) =
    match Stat w p with
    | Some _ => AssertPathExists w rest
    | None => Some (if statNotExist w p
                    then Errorf ("Path " +:+ p +:+ " does not exist")
                    else PathError "stat" p)
    end.
Proof.
  unfold AssertPathExists, PathExists.
  destruct (Stat w p); [reflexivity|]. destruct (statNotExist w p); reflexivity.
Qed.

Lemma AssertPathNotExists_cons (w : World) (p : string) (rest : list string) :
  AssertPathNotExists w (p :: rest) =
    match Stat w p with
    | Some _ => Some (Errorf ("Path " +:+ p +:+ " exists but should not"))
    | None =>
        if statNotExist w p then AssertPathNotExists w rest
        else Some (PathError "stat" p)
    end.
Proof.
  unfold AssertPathNotExists, PathExists.
  destruct (Stat w p); [reflexivity|]. destruct (statNotExist w p); reflexivity.
Qed.

(** X5.  [AssertPathExists] returns nil exactly when [os.Stat] succeeds on
    all paths; otherwise its error is about the first path on which it
    fails: that the path does not exist when the error of [os.Stat] is a
    not-exist error, and the error of [os.Stat] itself when it is another
    one, as for a path below a regular file.  [AssertPathNotExists] returns
    nil exactly when [os.Stat] fails with a not-exist error on all paths;
    otherwise its error is about the first path for which this is not so:
    that the path exists but should not when [os.Stat] succeeds, and the
    error of [os.Stat] otherwise. *)
Theorem AssertPathExists_first_missing (w : World) (paths : list string) :
  (AssertPathExists w paths = None <-> Forall (fun p => is_Some (Stat w p)) paths)
  /\ (forall pre p post,
        paths = pre ++ p :: post ->
        Forall (fun p => is_Some (Stat w p)) pre -> Stat w p = None ->
        AssertPathExists w paths =
          Some (if statNotExist w p
                then Errorf ("Path " +:+ p +:+ " does not exist")
                else PathError "stat" p))
  /\ (AssertPathNotExists w paths = None <->
      Forall (fun p => Stat w p = None /\ statNotExist w p = true) paths)
  /\ (forall pre p post,
        paths = pre ++ p :: post ->
        Forall (fun p => Stat w p = None /\ statNotExist w p = true) pre ->
        (is_Some (Stat w p) ->
         AssertPathNotExists w paths =
           Some (Errorf ("Path " +:+ p +:+ " exists but should not")))
        /\ (Stat w p = None -> statNotExist w p = false ->
            AssertPathNotExists w paths = Some (PathError "stat" p))).
Proof.
  split; [|split; [|split]].
  - induction paths as [|p rest IH]; [split; [constructor|reflexivity]|].
    rewrite AssertPathExists_cons, Forall_cons. destruct (Stat w p) as [n|].
    + rewrite IH. split; [intros Hrest; split; [eauto|exact Hrest]|intros [_ Hrest]; exact Hrest].
    + split; [discriminate|]. intros [[? [=]] _].
  - intros pre p post -> Hpre Hp. induction Hpre as [|q pre [n Hq] _ IH].
    + simpl app. rewrite AssertPathExists_cons, Hp. reflexivity.
    + change ((q :: pre) ++ p :: post) with (q :: (pre ++ p :: post)).
      rewrite AssertPathExists_cons, Hq. exact IH.
  - induction paths as [|p rest IH]; [split; [constructor|reflexivity]|].
    rewrite AssertPathNotExists_cons, Forall_cons. destruct (Stat w p) as [n|].
    + split; [discriminate|]. intros [[[=] _] _].
    + destruct (statNotExist w p).
      * rewrite IH. split; [intros Hrest; auto|intros [_ Hrest]; exact Hrest].
      * split; [discriminate|]. intros [[_ [=]] _].
  - intros pre p post -> Hpre. induction Hpre as [|q pre [Hq Hq'] _ IH].
    + simpl app. rewrite AssertPathNotExists_cons. split.
      * intros [n ->]. reflexivity.
      * intros -> ->. reflexivity.
    + change ((q :: pre) ++ p :: post) with (q :: (pre ++ p :: post)).
      rewrite AssertPathNotExists_cons, Hq, Hq'. exact IH.
Qed.

(** X6.  [ReadKey] returns without an error exactly when one of key and path
    is given and the result is not empty: the result is then the key
    itself, or the content of the file at the path. *)
Theorem ReadKey_returns_nonempty_key (w : World) (key path : string) (bts : list byte) :
  ReadKey w key path = (bts, None) <->
  bts <> []
  /\ ((path = "" /\ key <> "" /\ bts = list_byte_of_string key)
      \/ (key = "" /\ path <> "" /\ Stat w path = Some (File bts))).
Proof.
  unfold ReadKey.
  destruct (String.eqb_spec key "") as [Hkey|Hkey],
           (String.eqb_spec path "") as [Hpath|Hpath]; cbn [negb andb orb].
  - split; [discriminate|]. intros [_ [(_ & Hk & _)|(_ & Hp & _)]]; contradiction.
  - unfold ReadFile. destruct (Stat w path) as [[content|]|] eqn:Hstat.
    + destruct content as [|b content]; cbn [length Nat.eqb].
      * split; [discriminate|]. intros [Hne [(Hp & _)|(_ & _ & [= <-])]]; contradiction.
      * split.
        -- intros [= <-]. split; [discriminate|]. right. auto.
        -- intros [_ [(Hp & _)|(_ & _ & [= <-])]]; [contradiction|reflexivity].
    + split; [discriminate|]. intros [_ [(Hp & _)|(_ & _ & [=])]]. contradiction.
    + split; [discriminate|]. intros [_ [(Hp & _)|(_ & _ & [=])]]. contradiction.
  - destruct (list_byte_of_string key) as [|b content] eqn:Hbytes; cbn [length Nat.eqb].
    + split; [discriminate|]. intros [Hne [(_ & _ & ->)|(Hk & _)]]; contradiction.
    + split.
      * intros [= <-]. split; [discriminate|]. left. auto.
      * intros [_ [(_ & _ & ->)|(Hk & _)]]; [reflexivity|contradiction].
  - split; [discriminate|]. intros [_ [(Hp & _)|(Hk & _)]]; contradiction.
Qed.

Lemma ReadKey_returns_nonempty_key_witness :
  ReadKey demoWorld "" "/conf/irma-demo/pk.pem" = (bytes "pem", None).
Proof.
  apply ReadKey_returns_nonempty_key. split; [vm_compute; discriminate|].
  right. split; [reflexivity|]. split; [discriminate|]. vm_compute. reflexivity.
Defined.

Lemma AssertPathExists_first_missing_witness :
  AssertPathExists demoWorld ["/conf"; "/nowhere"; "/conf/irma-demo"] =
    Some (Errorf "Path /nowhere does not exist").
Proof.
  apply (proj1 (proj2 (AssertPathExists_first_missing demoWorld
                         ["/conf"; "/nowhere"; "/conf/irma-demo"]))
           ["/conf"] "/nowhere" ["/conf/irma-demo"] eq_refl).
  - constructor; [|constructor]. vm_compute. eauto.
  - vm_compute. reflexivity.
Defined.

(** Below a regular file [AssertPathNotExists] does not return nil: it
    returns the error of [os.Stat]. *)
Lemma AssertPathNotExists_below_file :
  Stat demoWorld "/conf/irma-demo/index/x" = None
  /\ AssertPathNotExists demoWorld ["/conf/irma-demo/index/x"] =
       Some (PathError "stat" "/conf/irma-demo/index/x").
Proof. split; vm_compute; reflexivity. Qed.

Lemma isDirectory_Stat (w : World) (p : string) :
  isDirectory w p = true <-> Stat w p = Some Directory.
Proof.
  unfold isDirectory. destruct (Stat w p) as [[content|]|]; split; congruence.
Qed.

Lemma SaveFile_written (w w' : World) (fpath : string) (content : list byte) :
  SaveFile w fpath content = (w', None) ->
  exists randBytes,
    head (entropy w) = Some randBytes
    /\ ReadFile w' fpath = (content, None)
    /\ files w' =
         <[Abs w fpath := File content]>
           (delete (Abs w (Join [Dir fpath; EncodeToString randBytes])) (files w)).
Proof.
  unfold SaveFile. destruct (entropy w) as [|randBytes later] eqn:Hentropy; [discriminate|].
  set (w1 := mkWorld (cwd w) (files w) (unremovable w) (remote w) (requests w) later).
  set (tmp := Join [Dir fpath; EncodeToString randBytes]).
  unfold WriteFile.
  destruct (negb (String.eqb tmp "") && negb (underFile w1 (Abs w1 tmp))
            && isDirectory w1 (Dir (Abs w1 tmp)) && negb (isDirectory w1 tmp));
    [|discriminate].
  set (w2 := setFiles w1 (<[Abs w1 tmp := File content]> (files w1))).
  unfold Rename. destruct (Stat w2 tmp) as [[content'|]|] eqn:Hstat; try discriminate.
  destruct (String.eqb_spec fpath "") as [|Hpath]; [discriminate|].
  destruct (underFile w2 (Abs w2 fpath)) eqn:Hunder; [discriminate|].
  destruct (isDirectory w2 (Dir (Abs w2 fpath))) eqn:Hdir; [|discriminate].
  destruct (isDirectory w2 fpath) eqn:Htarget; [discriminate|].
  destruct (pinned w2 (Abs w2 tmp)); [discriminate|].
  destruct (pinned w2 (Abs w2 fpath)); [discriminate|].
  cbn [andb negb]. intros [= <-].
  assert (content' = content) as ->.
  { apply Stat_found in Hstat as (_ & _ & Hlookup).
    destruct (String.eqb (Abs w2 tmp) "/"); [discriminate|].
    unfold w2 in Hlookup. cbn [files setFiles] in Hlookup.
    change (Abs (setFiles w1 _) tmp) with (Abs w1 tmp) in Hlookup.
    rewrite lookup_insert_eq in Hlookup. congruence. }
  exists randBytes. split; [reflexivity|].
  assert (Abs w2 fpath <> "/") as Hroot.
  { intros Habs. apply not_true_iff_false in Htarget. apply Htarget.
    apply isDirectory_Stat, Stat_found. rewrite Habs in Hunder |- *.
    split; [exact Hpath|]. split; [exact Hunder|reflexivity]. }
  split.
  - unfold ReadFile.
    match goal with |- context [Stat ?w3 fpath] =>
      assert (Stat w3 fpath = Some (File content)) as ->; [|reflexivity] end.
    apply Stat_found. change (Abs (setFiles w2 _) fpath) with (Abs w2 fpath).
    split; [exact Hpath|]. split.
    + apply not_true_iff_false. intros Hbelow.
      apply underFile_spec in Hbelow as (d & c & Hlookup & Hbelow).
      cbn [files setFiles] in Hlookup.
      destruct (decide (Abs w2 fpath = d)) as [<-|Hne];
        [rewrite below_irrefl in Hbelow; discriminate|].
      rewrite lookup_insert_ne in Hlookup by exact Hne.
      apply lookup_delete_Some in Hlookup as [_ Hlookup].
      apply not_true_iff_false in Hunder. apply Hunder, underFile_spec. eauto.
    + destruct (String.eqb_spec (Abs w2 fpath) "/") as [Habs|_]; [contradiction|].
      cbn [files setFiles]. apply lookup_insert_eq.
  - change (Abs w2) with (Abs w). change (Abs w1) with (Abs w).
    cbn [files setFiles w2 w1]. rewrite delete_insert_eq. reflexivity.
Qed.

(** X7.  What [SaveFile] has written can be read back: after a successful
    [SaveFile] the file at the path holds the content, no file with the
    temporary name is left, and every other file is as before.  When no
    random name can be drawn, nothing is written. *)
Theorem SaveFile_then_ReadFile (w w' : World) (fpath : string) (content : list byte) :
  (SaveFile w fpath content = (w', None) ->
   exists randBytes,
     head (entropy w) = Some randBytes
     /\ ReadFile w' fpath = (content, None)
     /\ files w' =
          <[Abs w fpath := File content]>
            (delete (Abs w (Join [Dir fpath; EncodeToString randBytes])) (files w)))
  /\ (entropy w = [] -> SaveFile w fpath content = (w, Some (ExternalError "rand.Read"))).
Proof.
  split; [apply SaveFile_written|].
  intros Hnone. unfold SaveFile. rewrite Hnone. reflexivity.
Qed.

Lemma SaveFile_then_ReadFile_witness :
  exists randBytes,
    head (entropy writableWorld) = Some randBytes
    /\ ReadFile (SaveFile writableWorld "/conf/irma-demo/timestamp" (bytes "200")).1
         "/conf/irma-demo/timestamp" = (bytes "200", None)
    /\ files (SaveFile writableWorld "/conf/irma-demo/timestamp" (bytes "200")).1 =
         <[Abs writableWorld "/conf/irma-demo/timestamp" := File (bytes "200")]>
           (delete (Abs writableWorld
                      (Join [Dir "/conf/irma-demo/timestamp"; EncodeToString randBytes]))
              (files writableWorld)).
Proof.
  apply (proj1 (SaveFile_then_ReadFile writableWorld _ "/conf/irma-demo/timestamp"
                  (bytes "200"))).
  vm_compute. reflexivity.
Defined.

(** X8.  [Copy] of a source that does not exist is no error and writes
    nothing; when [os.Stat] fails on the source with another error, as for
    a source below a regular file, [Copy] returns that error and writes
    nothing; a [Copy] that returns no error for a source that exists has
    read a file, and the destination holds its content afterwards. *)
Theorem Copy_of_missing_source (w : World) (src dest : string) :
  (Stat w src = None -> statNotExist w src = true -> Copy w src dest = (w, None))
  /\ (Stat w src = None -> statNotExist w src = false ->
      Copy w src dest = (w, Some (PathError "stat" src)))
  /\ (forall w', is_Some (Stat w src) -> Copy w src dest = (w', None) ->
        exists bts, Stat w src = Some (File bts) /\ ReadFile w' dest = (bts, None)).
Proof.
  unfold Copy, PathExists, ReadFile. split; [|split].
  - intros -> ->. reflexivity.
  - intros -> ->. reflexivity.
  - intros w' [n Hstat]. rewrite Hstat. cbn [negb].
    destruct n as [bts|]; [|discriminate].
    intros Hsave. exists bts. split; [reflexivity|].
    destruct (SaveFile_written w w' dest bts Hsave) as (_ & _ & Hread & _).
    exact Hread.
Qed.

Lemma Copy_of_missing_source_witness :
  Copy demoWorld "/conf/irma-demo/RU/logo.png" "/conf/logo.png" = (demoWorld, None).
Proof.
  apply (proj1 (Copy_of_missing_source demoWorld "/conf/irma-demo/RU/logo.png"
                  "/conf/logo.png")).
  - vm_compute. reflexivity.
  - vm_compute. reflexivity.
Defined.

(** A source below a regular file is not taken for a missing one. *)
Lemma Copy_below_file :
  Copy demoWorld "/conf/irma-demo/index/x" "/conf/x" =
    (demoWorld, Some (PathError "stat" "/conf/irma-demo/index/x")).
Proof. vm_compute. reflexivity. Qed.

(** ** Directories *)

Lemma ancestors_acc (fuel : nat) (p : string) (acc : list string) (d : string) :
  d ∈ acc -> d ∈ ancestors fuel p acc.
Proof.
  revert p acc. induction fuel as [|fuel IH]; intros p acc Hd; simpl; [exact Hd|].
  destruct (String.eqb p "/" || String.eqb p "."); [exact Hd|].
  apply IH. right. exact Hd.
Qed.

Lemma ancestors_self (p : string) :
  p <> "/" -> p <> "." -> p <> "" -> p ∈ ancestors (String.length p) p [].
Proof.
  intros Hroot Hdot Hempty. destruct p as [|c p]; [contradiction|].
  cbn [String.length ancestors].
  destruct (String.eqb_spec (String c p) "/") as [?|_]; [contradiction|].
  destruct (String.eqb_spec (String c p) ".") as [?|_]; [contradiction|].
  apply ancestors_acc. left.
Qed.

Lemma mkdir_chain (chain : list string) (f : gmap string node) :
  Forall (fun d => forall content, f !! d <> Some (File content)) chain ->
  f ⊆ fold_left (fun f d => <[d := Directory]> f) chain f
  /\ forall d, d ∈ chain ->
       fold_left (fun f d => <[d := Directory]> f) chain f !! d = Some Directory.
Proof.
  revert f. induction chain as [|x chain IH]; intros f Hchain.
  - split; [reflexivity|]. intros d Hd. inversion Hd.
  - apply Forall_cons in Hchain as [Hx Hchain]. cbn [fold_left].
    assert (f ⊆ <[x := Directory]> f) as Hsub.
    { destruct (f !! x) as [[content|]|] eqn:Hfx.
      - destruct (Hx content eq_refl).
      - rewrite insert_id by exact Hfx. reflexivity.
      - apply insert_subseteq. exact Hfx. }
    destruct (IH (<[x := Directory]> f)) as [Hsub' Hdirs].
    { eapply Forall_impl; [exact Hchain|]. intros d Hd content.
      destruct (decide (x = d)) as [->|Hne].
      - rewrite lookup_insert_eq. discriminate.
      - rewrite lookup_insert_ne by exact Hne. apply Hd. }
    split; [etrans; eassumption|].
    intros d Hd. apply elem_of_cons in Hd as [->|Hd]; [|apply Hdirs, Hd].
    eapply lookup_weaken; [|exact Hsub']. apply lookup_insert_eq.
Qed.

Lemma Clean_rooted (p : string) :
  isRooted p = true -> exists body, Clean p = "/" +:+ body.
Proof. intros Hp. unfold Clean. rewrite Hp. eauto. Qed.

Lemma Abs_rooted (w : World) (p : string) :
  isRooted (cwd w) = true -> exists body, Abs w p = "/" +:+ body.
Proof.
  intros Hcwd. unfold Abs. destruct (isRooted p) eqn:Hp; [apply Clean_rooted, Hp|].
  cbn [Join]. destruct (cwd w) as [|c rest] eqn:Hw; [discriminate|].
  cbn [String.eqb]. apply Clean_rooted. exact Hcwd.
Qed.

Lemma mkdir_chain_files (chain : list string) (f : gmap string node)
    (d : string) (content : list byte) :
  fold_left (fun f d => <[d := Directory]> f) chain f !! d = Some (File content) ->
  f !! d = Some (File content).
Proof.
  revert f. induction chain as [|x chain IH]; intros f; cbn [fold_left]; [auto|].
  intros Hlookup. apply IH in Hlookup.
  destruct (decide (x = d)) as [->|Hne].
  - rewrite lookup_insert_eq in Hlookup. discriminate.
  - rewrite lookup_insert_ne in Hlookup by exact Hne. exact Hlookup.
Qed.

Lemma MkdirAll_creates (w w' : World) (p : string) :
  isRooted (cwd w) = true ->
  MkdirAll w p = (w', None) ->
  is_Some (Stat w' p) /\ files w ⊆ files w' /\ cwd w' = cwd w.
Proof.
  intros Hcwd. unfold MkdirAll.
  set (a := Abs w p). set (chain := ancestors (String.length a) a []).
  destruct (String.eqb_spec p "") as [|Hp]; [discriminate|].
  destruct (underFile w a) eqn:Hunder; [discriminate|].
  destruct (existsb _ chain) eqn:Hfile; [discriminate|]. cbn [orb]. intros [= <-].
  assert (Forall (fun d => forall content, files w !! d <> Some (File content)) chain)
    as Hchain.
  { apply Forall_forall. intros d Hd content Hlookup.
    apply not_true_iff_false in Hfile. apply Hfile. apply existsb_exists.
    exists d. split; [apply list_elem_of_In, Hd|]. rewrite Hlookup. reflexivity. }
  destruct (mkdir_chain chain (files w) Hchain) as [Hsub Hdirs].
  split; [|split; [exact Hsub|reflexivity]].
  assert (underFile (setFiles w (fold_left (fun f d => <[d := Directory]> f) chain
                                   (files w))) a = false) as Hunder'.
  { apply not_true_iff_false. intros Hbelow.
    apply underFile_spec in Hbelow as (d & c & Hlookup & Hbelow).
    cbn [files setFiles] in Hlookup. apply mkdir_chain_files in Hlookup.
    apply not_true_iff_false in Hunder. apply Hunder, underFile_spec. eauto. }
  exists Directory. apply Stat_found. change (Abs (setFiles w _) p) with a.
  split; [exact Hp|]. split; [exact Hunder'|].
  destruct (String.eqb_spec a "/") as [_|Hroot]; [reflexivity|].
  destruct (Abs_rooted w p Hcwd) as [body Ha]. fold a in Ha.
  cbn [files setFiles]. apply Hdirs.
  apply ancestors_self; [exact Hroot| |]; rewrite Ha; discriminate.
Qed.

(** X9.  [EnsureDirectoryExists] creates what is missing and touches
    nothing else: when it returns no error the path exists afterwards and
    every entry of the disk is still there; a path that exists already,
    be it a regular file, is accepted without any change. *)
Theorem EnsureDirectoryExists_creates (w w' : World) (p : string) :
  isRooted (cwd w) = true ->
  EnsureDirectoryExists w p = (w', None) ->
  is_Some (Stat w' p)
  /\ files w ⊆ files w'
  /\ (is_Some (Stat w p) -> w' = w).
Proof.
  intros Hcwd. unfold EnsureDirectoryExists, PathExists.
  destruct (Stat w p) as [n|] eqn:Hstat.
  - intros [= <-]. rewrite Hstat. split; [eauto|]. split; [reflexivity|auto].
  - destruct (statNotExist w p); [|discriminate].
    intros Hmkdir. destruct (MkdirAll_creates w w' p Hcwd Hmkdir) as (H1 & H2 & _).
    split; [exact H1|]. split; [exact H2|]. intros [? [=]].
Qed.

Lemma EnsureDirectoryExists_creates_witness :
  is_Some (Stat (EnsureDirectoryExists demoWorld "/conf/pbdf/pbdf").1 "/conf/pbdf/pbdf")
  /\ files demoWorld ⊆ files (EnsureDirectoryExists demoWorld "/conf/pbdf/pbdf").1
  /\ (is_Some (Stat demoWorld "/conf/pbdf/pbdf") ->
      (EnsureDirectoryExists demoWorld "/conf/pbdf/pbdf").1 = demoWorld).
Proof.
  apply (EnsureDirectoryExists_creates demoWorld _ "/conf/pbdf/pbdf").
  - reflexivity.
  - vm_compute. reflexivity.
Defined.

(** X10.  A new configuration starts empty.  When an assets folder is named
    on which [os.Stat] fails, [NewConfigurationFromAssets] fails before it
    touches the disk; the error wraps the message that the path does not
    exist, or the error of [os.Stat] when that is no not-exist error.  A
    configuration that is returned has empty maps and is not initialized;
    its directory exists afterwards, created if it was missing, also by
    [NewConfigurationReadOnly], which returns the configuration
    read-only. *)
Theorem new_configuration_is_empty (path assets_ : string) (w : World) :
  (assets_ <> "" -> Stat w assets_ = None ->
   NewConfigurationFromAssets path assets_ w =
     (w, (None, Some (WrapPrefix
                        (if statNotExist w assets_
                         then Errorf ("Path " +:+ assets_ +:+ " does not exist")
                         else PathError "stat" assets_)
                        "Nonexistent assets folder specified"))))
  /\ (forall w' conf,
        isRooted (cwd w) = true ->
        NewConfigurationFromAssets path assets_ w = (w', (Some conf, None)) ->
        conf = emptyConfiguration path assets_ false
        /\ (assets_ <> "" -> is_Some (Stat w assets_))
        /\ is_Some (Stat w' path) /\ files w ⊆ files w')
  /\ (forall w' conf,
        isRooted (cwd w) = true ->
        NewConfigurationReadOnly path w = (w', (Some conf, None)) ->
        conf = emptyConfiguration path "" true
        /\ is_Some (Stat w' path) /\ files w ⊆ files w').
Proof.
  assert (forall w1, isRooted (cwd w) = true ->
            EnsureDirectoryExists w path = (w1, None) ->
            is_Some (Stat w1 path) /\ files w ⊆ files w1) as Hcreated.
  { intros w1 Hcwd. unfold EnsureDirectoryExists, PathExists.
    destruct (Stat w path) as [n|] eqn:Hstat.
    - intros [= <-]. rewrite Hstat. split; [eauto|reflexivity].
    - destruct (statNotExist w path); [|discriminate].
      intros Hmkdir. destruct (MkdirAll_creates w w1 path Hcwd Hmkdir) as (H1 & H2 & _).
      auto. }
  split; [|split].
  - intros Hassets Hstat. unfold NewConfigurationFromAssets, newConfiguration.
    cbn [assets]. destruct (String.eqb_spec assets_ "") as [?|_]; [contradiction|].
    cbn [negb]. rewrite AssertPathExists_cons, Hstat. reflexivity.
  - intros w' conf Hcwd. unfold NewConfigurationFromAssets, newConfiguration.
    cbn [assets Path].
    destruct (if negb (String.eqb assets_ "") then AssertPathExists w [assets_] else None)
      as [err|] eqn:Hassert; [discriminate|].
    destruct (EnsureDirectoryExists w path) as [w1 [e|]] eqn:Hensure; [discriminate|].
    intros [= <- <-].
    destruct (Hcreated w1 Hcwd eq_refl) as [H1 H2].
    split; [reflexivity|]. split; [|auto].
    intros Hassets. destruct (String.eqb_spec assets_ "") as [?|_]; [contradiction|].
    cbn [negb] in Hassert. rewrite AssertPathExists_cons in Hassert.
    destruct (Stat w assets_); [eauto|discriminate].
  - intros w' conf Hcwd. unfold NewConfigurationReadOnly, newConfiguration.
    cbn [assets Path String.eqb negb].
    destruct (EnsureDirectoryExists w path) as [w1 [e|]] eqn:Hensure; [discriminate|].
    intros [= <- <-].
    destruct (Hcreated w1 Hcwd eq_refl) as [H1 H2].
    split; [reflexivity|]. auto.
Qed.

Lemma new_configuration_is_empty_witness :
  (NewConfigurationReadOnly "/conf/new" demoWorld).2 =
    (Some (emptyConfiguration "/conf/new" "" true), None)
  /\ Stat demoWorld "/conf/new" = None
  /\ is_Some (Stat (NewConfigurationReadOnly "/conf/new" demoWorld).1 "/conf/new").
Proof.
  assert (NewConfigurationReadOnly "/conf/new" demoWorld =
            ((NewConfigurationReadOnly "/conf/new" demoWorld).1,
             (Some (emptyConfiguration "/conf/new" "" true), None))) as Hrun
    by (vm_compute; reflexivity).
  destruct (proj2 (proj2 (new_configuration_is_empty "/conf/new" "" demoWorld))
              _ _ eq_refl Hrun) as (_ & Hexists & _).
  split; [vm_compute; reflexivity|]. split; [vm_compute; reflexivity|exact Hexists].
Defined.

(** * Relative paths *)

Lemma prefix_append (a b : string) :
  String.prefix a b = true <-> exists rest, b = a +:+ rest.
Proof.
  revert b. induction a as [|c a IH]; intros b.
  - split; [intros _; exists b; reflexivity|]. intros _. destruct b; reflexivity.
  - destruct b as [|d b]; cbn [String.prefix].
    + split; [discriminate|]. intros [rest Hrest]. discriminate.
    + destruct (Ascii.ascii_dec c d) as [->|Hne].
      * rewrite IH. split; intros [rest Hrest]; exists rest.
        -- rewrite Hrest. reflexivity.
        -- change (String d a +:+ rest) with (String d (a +:+ rest)) in Hrest.
           congruence.
      * split; [discriminate|]. intros [rest Hrest].
        change (String c a +:+ rest) with (String c (a +:+ rest)) in Hrest. congruence.
Qed.

Lemma length_append (a b : string) :
  String.length (a +:+ b) = (String.length a + String.length b)%nat.
Proof.
  induction a as [|c a IH]; [reflexivity|].
  change (String c a +:+ b) with (String c (a +:+ b)). cbn [String.length].
  rewrite IH. reflexivity.
Qed.

Lemma substring_all (s : string) : substring 0 (String.length s) s = s.
Proof. induction s as [|c s IH]; [reflexivity|]. cbn. rewrite IH. reflexivity. Qed.

Lemma substring_append (a b : string) (n : nat) :
  substring (String.length a + n) (String.length b - n) (a +:+ b) =
    substring n (String.length b - n) b.
Proof.
  induction a as [|c a IH]; [reflexivity|].
  change (String c a +:+ b) with (String c (a +:+ b)). cbn [String.length Nat.add substring].
  exact IH.
Qed.

Lemma sliceFrom_append (a : string) (c : ascii) (rel : string) :
  sliceFrom (a +:+ String c rel) (String.length a + 1) = Done rel.
Proof.
  unfold sliceFrom. rewrite length_append. cbn [String.length].
  destruct (Nat.leb_spec (String.length a + 1) (String.length a + S (String.length rel)))
    as [_|Hlt]; [|lia].
  f_equal.
  replace (String.length a + S (String.length rel) - (String.length a + 1))%nat
    with (String.length (String c rel) - 1)%nat by (cbn [String.length]; lia).
  rewrite substring_append. cbn [String.length substring Nat.sub].
  rewrite Nat.sub_0_r. apply substring_all.
Qed.

(** X11.  [relativePath] returns the part of the inner path that follows the
    outer path and one more character: joined again they are the inner
    path.  It returns an error when the outer path is not a prefix of the
    inner path, and it panics when both are the same path. *)
Theorem relativePath_outcomes (w : World) (outer inner : string) :
  (forall rel,
     relativePath w outer inner = Done (rel, None) <->
     exists c, Abs w inner = Abs w outer +:+ String c rel)
  /\ (HasPrefix (Abs w inner) (Abs w outer) = false ->
      relativePath w outer inner =
        Done ("", Some (Errorf "inner path is not contained in outer path")))
  /\ (Abs w inner = Abs w outer ->
      relativePath w outer inner = Panics SliceBoundsOutOfRange).
Proof.
  unfold relativePath, HasPrefix. split; [|split].
  - intros rel. destruct (String.prefix (Abs w outer) (Abs w inner)) eqn:Hprefix; cbn [negb].
    + apply prefix_append in Hprefix as [rest Hrest]. rewrite Hrest.
      destruct rest as [|c rel'].
      * rewrite append_empty_r. unfold sliceFrom.
        destruct (Nat.leb_spec (String.length (Abs w outer) + 1)
                    (String.length (Abs w outer))) as [Hle|_]; [lia|].
        split; [discriminate|]. intros [c Hc].
        apply (f_equal String.length) in Hc. rewrite length_append in Hc.
        cbn [String.length] in Hc. lia.
      * rewrite sliceFrom_append. cbn. split.
        -- intros [= <-]. exists c. reflexivity.
        -- intros [c' Hc]. apply (f_equal (fun s =>
             substring (String.length (Abs w outer) + 1) (String.length s - (String.length (Abs w outer) + 1)) s)) in Hc.
           pose proof (sliceFrom_append (Abs w outer) c rel') as H1.
           pose proof (sliceFrom_append (Abs w outer) c' rel) as H2.
           unfold sliceFrom in H1, H2. rewrite !length_append in *.
           cbn [String.length] in *.
           destruct (_ <=? _)%nat in H1; [|discriminate].
           destruct (_ <=? _)%nat in H2; [|discriminate].
           congruence.
    + split; [discriminate|]. intros [c Hc].
      assert (String.prefix (Abs w outer) (Abs w inner) = true) as Htrue
        by (apply prefix_append; eauto).
      congruence.
  - intros ->. reflexivity.
  - intros ->. assert (String.prefix (Abs w outer) (Abs w outer) = true) as ->
      by (apply prefix_append; exists ""; symmetry; apply append_empty_r).
    cbn [negb]. unfold sliceFrom.
    destruct (Nat.leb_spec (String.length (Abs w outer) + 1)
                (String.length (Abs w outer))) as [Hle|_]; [lia|reflexivity].
Qed.

Lemma relativePath_outcomes_witness :
  relativePath demoWorld "/conf" "/conf/irma-demo/index" = Done ("irma-demo/index", None).
Proof.
  apply (proj1 (relativePath_outcomes demoWorld "/conf" "/conf/irma-demo/index")).
  exists "/"%char. vm_compute. reflexivity.
Defined.

(** * Removing scheme managers *)

Lemma filter_lookup_bool {A : Type} (m : gmap string A) (f : string -> bool) (k : string) :
  filter (fun kv : string * A => f (fst kv)) m !! k = if f k then m !! k else None.
Proof.
  rewrite map_lookup_filter. destruct (m !! k) as [x|]; simpl.
  - case_guard as Hg; simpl in Hg; destruct (f k); simpl in *;
      first [reflexivity | contradiction | exfalso; apply Hg; exact I].
  - destruct (f k); reflexivity.
Qed.

Lemma underFile_mono (w w1 : World) (a : string) :
  files w1 ⊆ files w -> underFile w1 a = true -> underFile w a = true.
Proof.
  intros Hsub Hunder. apply underFile_spec in Hunder as (d & content & Hlookup & Hbelow).
  apply underFile_spec. exists d, content.
  split; [eapply lookup_weaken; eassumption|exact Hbelow].
Qed.

Lemma held_mono (w w1 : World) (q : string) :
  unremovable w1 = unremovable w -> files w1 ⊆ files w ->
  held w1 q = true -> held w q = true.
Proof.
  intros Hun Hsub. unfold held, pinned. rewrite Hun. intros Hheld.
  apply orb_true_iff in Hheld as [Hroot|Hheld]; [rewrite Hroot; reflexivity|].
  apply orb_true_iff. right.
  apply existsb_exists in Hheld as [u [Hin Hu]]. apply existsb_exists. exists u.
  split; [exact Hin|]. apply andb_prop in Hu as [Hwithin Hpinned].
  apply andb_prop in Hpinned as [Hlisted Hexists].
  rewrite Hwithin, Hlisted. cbn [andb].
  apply bool_decide_eq_true. apply bool_decide_eq_true in Hexists as [n Hn].
  exists n. eapply lookup_weaken; eassumption.
Qed.

(** What [os.RemoveAll] leaves of the disk: nothing is added, and after a
    success nothing is left at a path that is not empty. *)
Lemma RemoveAll_files (w : World) (p : string) :
  cwd (RemoveAll w p).1 = cwd w
  /\ unremovable (RemoveAll w p).1 = unremovable w
  /\ files (RemoveAll w p).1 ⊆ files w
  /\ ((RemoveAll w p).2 = None -> p <> "" ->
      files (RemoveAll w p).1 !! Abs w p = None).
Proof.
  unfold RemoveAll. destruct (String.eqb_spec p "") as [->|Hp].
  { cbn [fst snd]. repeat split; try reflexivity. intros _ Hne. destruct Hne. reflexivity. }
  destruct (endsWithDot p).
  { cbn [fst snd]. repeat split; try reflexivity. discriminate. }
  destruct (underFile w (Abs w p)).
  { cbn [fst snd]. repeat split; try reflexivity. discriminate. }
  cbn [fst snd files cwd unremovable setFiles].
  split; [reflexivity|]. split; [reflexivity|]. split; [apply map_filter_subseteq|].
  destruct (held w (Abs w p)) eqn:Hheld; [discriminate|]. intros _ _.
  rewrite (filter_lookup_bool (files w)
             (fun k => negb (within (Abs w p) k) || held w k)).
  unfold within. rewrite String.eqb_refl, Hheld. reflexivity.
Qed.

(** A removal that succeeds on a disk succeeds on every part of it. *)
Lemma RemoveAll_succeeds_mono (w w1 : World) (p : string) :
  cwd w1 = cwd w -> unremovable w1 = unremovable w -> files w1 ⊆ files w ->
  (RemoveAll w p).2 = None -> (RemoveAll w1 p).2 = None.
Proof.
  intros Hcwd Hun Hsub. unfold RemoveAll.
  assert (Abs w1 p = Abs w p) as -> by (unfold Abs; rewrite Hcwd; reflexivity).
  destruct (String.eqb p ""); [reflexivity|].
  destruct (endsWithDot p); [discriminate|].
  destruct (underFile w (Abs w p)) eqn:Hunder; [discriminate|].
  destruct (underFile w1 (Abs w p)) eqn:Hunder1.
  { apply (underFile_mono w w1) in Hunder1; [congruence|exact Hsub]. }
  cbn [snd]. destruct (held w (Abs w p)) eqn:Hheld; [discriminate|]. intros _.
  destruct (held w1 (Abs w p)) eqn:Hheld1; [|reflexivity].
  apply (held_mono w w1) in Hheld1; [congruence|exact Hun|exact Hsub].
Qed.

(** X12.  [DeleteSchemeManager] removes the scheme manager, its entry among
    the disabled scheme managers, and every issuer, public key and
    credential type whose identifier starts with its name, and keeps all
    others; the attribute types and the reverse hashes stay as they are.
    Afterwards [Contains] finds no credential type of the scheme.  On a
    read-only configuration the disk is untouched and the result is nil;
    otherwise the result is that of [os.RemoveAll] on the directory of the
    scheme, which can be an error: nothing is added to the disk, and when
    the result is nil and the path is not empty, the directory is gone. *)
Theorem DeleteSchemeManager_removes (id : string) (c : Configuration) (w : World) :
  exists c' w' err,
    DeleteSchemeManager id (c, w) = ((c', w'), Done err)
    /\ SchemeManagers c' = delete id (SchemeManagers c)
    /\ DisabledSchemeManagers c' = delete id (DisabledSchemeManagers c)
    /\ (forall k, Issuers c' !! k =
                    if String.eqb (Root k) id then None else Issuers c !! k)
    /\ (forall k, publicKeys c' !! k =
                    if String.eqb (Root k) id then None else publicKeys c !! k)
    /\ (forall k, CredentialTypes c' !! k =
                    if String.eqb (Root k) id then None else CredentialTypes c !! k)
    /\ AttributeTypes c' = AttributeTypes c
    /\ reverseHashes c' = reverseHashes c
    /\ (forall cred, Root cred = id -> Contains c' cred = false)
    /\ (readOnly c = true -> w' = w /\ err = None)
    /\ (readOnly c = false ->
        (w', err) = RemoveAll w (Join [Path c; Name id])
        /\ files w' ⊆ files w
        /\ (err = None -> Join [Path c; Name id] <> "" ->
            files w' !! Abs w (Join [Path c; Name id]) = None)).
Proof.
  unfold DeleteSchemeManager.
  cbv beta iota zeta delta [mbind action_bind mret action_ret getState liftMethod
                            liftWorld modify fst snd].
  unfold setSchemeManagers, setDisabledSchemeManagers, setPublicKeys, setIssuers,
    setCredentialTypes.
  cbn [readOnly SchemeManagers DisabledSchemeManagers Issuers CredentialTypes
       publicKeys AttributeTypes reverseHashes Path].
  set (c' := mkConfiguration _ _ _ _ _ _ _ _ _ _ _ _).
  assert (forall k, CredentialTypes c' !! k =
                      if String.eqb (Root k) id then None else CredentialTypes c !! k)
    as Hcreds.
  { intros k. subst c'. cbn [CredentialTypes].
    apply (filter_lookup_negb (CredentialTypes c) (fun k => String.eqb (Root k) id)). }
  assert (forall cred, Root cred = id -> Contains c' cred = false) as Hcontains.
  { intros cred Hroot. unfold Contains. rewrite (Hcreds cred), Hroot, String.eqb_refl.
    rewrite (bool_decide_eq_false_2 (is_Some None)) by (intros [? [=]]).
    apply andb_false_r. }
  destruct (readOnly c) eqn:Hro; cbn [negb].
  - exists c', w, None. split; [reflexivity|]. subst c'.
    cbn [SchemeManagers DisabledSchemeManagers Issuers CredentialTypes publicKeys
         AttributeTypes reverseHashes] in *.
    repeat split; try reflexivity; try assumption; try discriminate.
    + intros k. apply (filter_lookup_negb (Issuers c) (fun k => String.eqb (Root k) id)).
    + intros k. apply (filter_lookup_negb (publicKeys c) (fun k => String.eqb (Root k) id)).
  - destruct (RemoveAll_files w (Join [Path c; Name id])) as (_ & _ & Hsub & Hgone).
    destruct (RemoveAll w (Join [Path c; Name id])) as [w1 err] eqn:Hremove.
    cbn [fst snd] in Hsub, Hgone.
    exists c', w1, err. split; [reflexivity|]. subst c'.
    cbn [SchemeManagers DisabledSchemeManagers Issuers CredentialTypes publicKeys
         AttributeTypes reverseHashes] in *.
    repeat split; try reflexivity; try assumption; try discriminate.
    + intros k. apply (filter_lookup_negb (Issuers c) (fun k => String.eqb (Root k) id)).
    + intros k. apply (filter_lookup_negb (publicKeys c) (fun k => String.eqb (Root k) id)).
Qed.

Lemma DeleteSchemeManager_removes_witness :
  Contains loadedConf "irma-demo.RU.studentCard" = true
  /\ Contains (DeleteSchemeManager "irma-demo" (loadedConf, demoWorld)).1.1
       "irma-demo.RU.studentCard" = false.
Proof.
  destruct (DeleteSchemeManager_removes "irma-demo" loadedConf demoWorld)
    as (c' & w' & err & Hrun & _ & _ & _ & _ & _ & _ & _ & Hcontains & _).
  rewrite Hrun. split; [vm_compute; reflexivity|].
  apply Hcontains. vm_compute. reflexivity.
Defined.

(** When an entry of the scheme cannot be unlinked, [DeleteSchemeManager]
    returns the error of [os.RemoveAll]: the scheme is gone from the
    configuration in memory, the entry and its directory are still on the
    disk, and the other files of the scheme are removed. *)
Lemma DeleteSchemeManager_returns_removal_error :
  (DeleteSchemeManager "irma-demo" (loadedConf, stuckWorld)).2 =
    Done (Some (PathError "unlinkat" "/conf/irma-demo"))
  /\ SchemeManagers (DeleteSchemeManager "irma-demo" (loadedConf, stuckWorld)).1.1
       !! "irma-demo" = None
  /\ files (DeleteSchemeManager "irma-demo" (loadedConf, stuckWorld)).1.2
       !! "/conf/irma-demo/index" = Some (File (bytes demoIndex))
  /\ files (DeleteSchemeManager "irma-demo" (loadedConf, stuckWorld)).1.2
       !! "/conf/irma-demo" = Some Directory
  /\ files (DeleteSchemeManager "irma-demo" (loadedConf, stuckWorld)).1.2
       !! "/conf/irma-demo/timestamp" = None.
Proof. repeat split; vm_compute; reflexivity. Qed.

Lemma pruneAll_effect (l : list (string * SchemeManager)) (c : Configuration)
    (w : World) :
  exists c' w',
    pruneAll l (c, w) = ((c', w'), Done tt)
    /\ (forall k, SchemeManagers c' !! k =
                    if bool_decide (k ∈ pruned l) then None else SchemeManagers c !! k)
    /\ (forall k, Issuers c' !! k =
                    if bool_decide (Parent k ∈ pruned l) then None else Issuers c !! k)
    /\ (forall k, publicKeys c' !! k =
                    if bool_decide (Parent k ∈ pruned l) then None
                    else publicKeys c !! k)
    /\ (forall k, CredentialTypes c' !! k =
                    if bool_decide (Parent (Parent k) ∈ pruned l) then None
                    else CredentialTypes c !! k)
    /\ Path c' = Path c /\ readOnly c' = readOnly c
    /\ DisabledSchemeManagers c' = DisabledSchemeManagers c
    /\ cwd w' = cwd w /\ unremovable w' = unremovable w /\ files w' ⊆ files w
    /\ (readOnly c = true -> w' = w)
    /\ (readOnly c = false ->
        forall id, id ∈ pruned l ->
          (RemoveAll w (Path c +:+ "/" +:+ id)).2 = None ->
          files w' !! Abs w (Path c +:+ "/" +:+ id) = None).
Proof.
  revert c w. induction l as [|[key m] l IH]; intros c w.
  - exists c, w. split; [reflexivity|]. unfold pruned. cbn [List.filter fmap list_fmap].
    repeat split; try reflexivity.
    intros _ id Hid. inversion Hid.
  - unfold pruneAll. cbn [fold_right snd]. fold (pruneAll l).
    destruct (SchemeManager_Valid m) eqn:Hvalid; cbn [negb].
    + destruct (IH c w) as (c' & w' & Hrun & Hrest).
      exists c', w'. split.
      * cbv beta iota zeta delta [mbind action_bind mret action_ret]. exact Hrun.
      * unfold pruned in *. cbn [List.filter snd]. rewrite Hvalid. cbn [negb]. exact Hrest.
    + destruct (RemoveSchemeManager_effect (SchemeManager_Identifier m) c w)
        as (c1 & Hremove & Hm1 & Hi1 & Hp1 & Hc1 & Hpath1 & Hro1 & Hd1).
      specialize (Hremove false).
      assert (exists w1 err1,
                RemoveSchemeManager (SchemeManager_Identifier m) false (c, w) =
                  ((c1, w1), Done err1)
                /\ (w1, err1) =
                     if false || negb (readOnly c)
                     then RemoveAll w (Path c +:+ "/" +:+ SchemeManager_Identifier m)
                     else (w, None)) as (w1 & err1 & Hremove' & Hw1).
      { destruct (false || negb (readOnly c)).
        - destruct (RemoveAll w _) as [w1 err1]. eauto.
        - eauto. }
      clear Hremove. rename Hremove' into Hremove.
      destruct (IH c1 w1) as (c' & w' & Hrun & Hm & Hi & Hp & Hc & Hpath & Hro & Hd
                              & Hcwd & Hun & Hsub & Hsame & Hgone).
      exists c', w'. split.
      { cbv beta iota zeta delta [mbind action_bind mret action_ret].
        rewrite Hremove. exact Hrun. }
      assert (pruned ((key, m) :: l) = SchemeManager_Identifier m :: pruned l) as ->.
      { unfold pruned. cbn [List.filter snd]. rewrite Hvalid. reflexivity. }
      assert (forall {A} (k : string) (x y : option A),
                (if bool_decide (k ∈ pruned l) then None
                 else if String.eqb k (SchemeManager_Identifier m) then None else y) =
                (if bool_decide (k ∈ SchemeManager_Identifier m :: pruned l) then None
                 else y)) as Hcase.
      { intros A k _ y. destruct (String.eqb_spec k (SchemeManager_Identifier m)) as [->|Hne].
        - rewrite (bool_decide_eq_true_2 (_ ∈ _ :: _)) by left.
          destruct (bool_decide _); reflexivity.
        - destruct (decide (k ∈ pruned l)) as [Hin|Hnin].
          + rewrite !bool_decide_eq_true_2; [reflexivity|right; exact Hin|exact Hin].
          + rewrite !bool_decide_eq_false_2; [reflexivity| |exact Hnin].
            intros Hin. apply elem_of_cons in Hin as [?|?]; contradiction. }
      assert (cwd w1 = cwd w /\ unremovable w1 = unremovable w /\ files w1 ⊆ files w)
        as (Hcwd1 & Hun1 & Hsub1).
      { destruct (false || negb (readOnly c)).
        - destruct (RemoveAll_files w (Path c +:+ "/" +:+ SchemeManager_Identifier m))
            as (H1 & H2 & H3 & _). rewrite <- Hw1 in H1, H2, H3. auto.
        - injection Hw1 as -> _. auto. }
      split; [|split; [|split; [|split]]].
      * intros k. rewrite Hm, Hm1. rewrite <- (Hcase _ k None).
        destruct (bool_decide _); [reflexivity|].
        destruct (String.eqb_spec k (SchemeManager_Identifier m)) as [->|Hne].
        -- apply lookup_delete_eq.
        -- apply lookup_delete_ne. congruence.
      * intros k. rewrite Hi, Hi1. apply (Hcase _ (Parent k) None).
      * intros k. rewrite Hp, Hp1. apply (Hcase _ (Parent k) None).
      * intros k. rewrite Hc, Hc1. apply (Hcase _ (Parent (Parent k)) None).
      * split; [congruence|]. split; [congruence|]. split; [congruence|].
        split; [congruence|]. split; [congruence|]. split; [etrans; eassumption|]. split.
        -- intros Htrue. rewrite Hsame by congruence. rewrite Htrue in Hw1.
           injection Hw1 as -> _. reflexivity.
        -- intros Hfalse id Hid Hok.
           assert (Abs w1 = Abs w) as Habs by (unfold Abs; rewrite Hcwd1; reflexivity).
           apply elem_of_cons in Hid as [->|Hid].
           ++ eapply lookup_weaken_None; [|exact Hsub].
              rewrite Hfalse in Hw1. cbn [negb orb] in Hw1.
              destruct (RemoveAll_files w (Path c +:+ "/" +:+ SchemeManager_Identifier m))
                as (_ & _ & _ & Hhere).
              rewrite <- Hw1 in Hhere. cbn [fst snd] in Hhere. apply Hhere.
              ** rewrite <- Hw1 in Hok. exact Hok.
              ** destruct (Path c); discriminate.
           ++ rewrite <- Habs, <- Hpath1. apply Hgone; [congruence|exact Hid|].
              rewrite Hpath1.
              apply (RemoveAll_succeeds_mono w w1); assumption.
Qed.

Lemma pruned_managers (M : gmap string SchemeManager) (k : string) :
  (forall k m, M !! k = Some m -> SchemeManager_Identifier m = k) ->
  k ∈ pruned (map_to_list M) <->
  exists m, M !! k = Some m /\ SchemeManager_Valid m = false.
Proof.
  intros Hkeys. unfold pruned. rewrite list_elem_of_fmap. split.
  - intros [[k' m] [-> Hin]]. apply list_elem_of_In, filter_In in Hin as [Hin Hvalid].
    apply list_elem_of_In, elem_of_map_to_list in Hin. cbn [snd] in *.
    exists m. rewrite (Hkeys _ _ Hin). split; [exact Hin|].
    apply negb_true_iff. exact Hvalid.
  - intros [m [Hm Hvalid]]. exists (k, m). cbn [snd]. split; [symmetry; eauto|].
    apply list_elem_of_In, filter_In. split.
    + apply list_elem_of_In, elem_of_map_to_list. exact Hm.
    + cbn [snd]. rewrite Hvalid. reflexivity.
Qed.

Lemma pruned_invalidManager (c : Configuration) (k : string) :
  keyedByIdentifier c ->
  bool_decide (k ∈ pruned (map_to_list (SchemeManagers c))) = invalidManager c k.
Proof.
  intros Hkeys. unfold invalidManager.
  destruct (decide (k ∈ pruned (map_to_list (SchemeManagers c)))) as [Hin|Hnin].
  - rewrite bool_decide_eq_true_2 by exact Hin.
    apply pruned_managers in Hin as [m [-> ->]]; [reflexivity|exact Hkeys].
  - rewrite bool_decide_eq_false_2 by exact Hnin.
    destruct (SchemeManagers c !! k) as [m|] eqn:Hm; [|reflexivity].
    destruct (SchemeManager_Valid m) eqn:Hvalid; [reflexivity|].
    destruct Hnin. apply pruned_managers; eauto.
Qed.

(** X13.  [Prune] removes exactly the scheme managers that are not valid,
    with their issuers, public keys and credential types, and keeps the
    valid ones with all they own; the disabled scheme managers stay listed.
    On a read-only configuration the disk is untouched; otherwise
    [os.RemoveAll] is called on the directories of the removed scheme
    managers and its result is discarded: nothing is added to the disk, and
    each of the directories that [os.RemoveAll] can remove without an error
    is gone from it. *)
Theorem Prune_keeps_valid (c : Configuration) (w : World) :
  keyedByIdentifier c ->
  exists c' w',
    Prune (c, w) = ((c', w'), Done tt)
    /\ (forall k m, SchemeManagers c' !! k = Some m <->
                    SchemeManagers c !! k = Some m /\ SchemeManager_Valid m = true)
    /\ (forall k, Issuers c' !! k =
                    if invalidManager c (Parent k) then None else Issuers c !! k)
    /\ (forall k, publicKeys c' !! k =
                    if invalidManager c (Parent k) then None else publicKeys c !! k)
    /\ (forall k, CredentialTypes c' !! k =
                    if invalidManager c (Parent (Parent k)) then None
                    else CredentialTypes c !! k)
    /\ DisabledSchemeManagers c' = DisabledSchemeManagers c
    /\ files w' ⊆ files w
    /\ (readOnly c = true -> w' = w)
    /\ (readOnly c = false ->
        forall k, invalidManager c k = true ->
                  (RemoveAll w (Path c +:+ "/" +:+ k)).2 = None ->
                  files w' !! Abs w (Path c +:+ "/" +:+ k) = None).
Proof.
  intros Hkeys.
  destruct (pruneAll_effect (map_to_list (SchemeManagers c)) c w)
    as (c' & w' & Hrun & Hm & Hi & Hp & Hc & _ & _ & Hd & _ & _ & Hsub & Hsame & Hgone).
  exists c', w'. split; [exact Hrun|].
  split; [|split; [|split; [|split; [|split; [exact Hd|split;
    [exact Hsub|split; [exact Hsame|]]]]]]].
  - intros k m. rewrite Hm, (pruned_invalidManager c k Hkeys). unfold invalidManager.
    destruct (SchemeManagers c !! k) as [m'|]; [|split; [discriminate|intros [[=] _]]].
    destruct (SchemeManager_Valid m') eqn:Hvalid; cbn [negb].
    + split; [intros [= <-]; auto|intros [H _]; exact H].
    + split; [discriminate|]. intros [[= <-] Hv]. congruence.
  - intros k. rewrite Hi, (pruned_invalidManager c _ Hkeys). reflexivity.
  - intros k. rewrite Hp, (pruned_invalidManager c _ Hkeys). reflexivity.
  - intros k. rewrite Hc, (pruned_invalidManager c _ Hkeys). reflexivity.
  - intros Hro k Hk Hok. apply (Hgone Hro); [|exact Hok].
    rewrite <- (pruned_invalidManager c k Hkeys) in Hk.
    apply bool_decide_eq_true in Hk. exact Hk.
Qed.

Lemma Prune_keeps_valid_witness :
  keyedByIdentifier mixedConf
  /\ exists c' w',
       Prune (mixedConf, demoWorld) = ((c', w'), Done tt)
       /\ SchemeManagers c' !! "pbdf" = None
       /\ SchemeManagers c' !! "irma-demo" = Some loadedManager.
Proof.
  assert (keyedByIdentifier mixedConf) as Hkeys.
  { apply (bool_decide_unpack (map_Forall (fun k m => SchemeManager_Identifier m = k)
                                 (SchemeManagers mixedConf))).
    vm_compute. reflexivity. }
  split; [exact Hkeys|].
  destruct (Prune_keeps_valid mixedConf demoWorld Hkeys) as (c' & w' & Hrun & Hm & _).
  exists c', w'. split; [exact Hrun|]. split.
  - destruct (SchemeManagers c' !! "pbdf") as [m|] eqn:Hpbdf; [|reflexivity].
    apply Hm in Hpbdf as [Hlookup Hvalid]. vm_compute in Hlookup.
    injection Hlookup as <-. discriminate Hvalid.
  - apply Hm. split; vm_compute; reflexivity.
Defined.

(** X14.  A credential type is found again through its reverse hash: after
    [addReverseHash] of an identifier, [hashToCredentialType] of the first
    16 bytes of the SHA-256 of the identifier returns the credential type
    stored under it; the lookup of any hash with another encoding is as
    before. *)
Theorem hashToCredentialType_addReverseHash (credid : string)
    (c : Configuration) :
  hashToCredentialType (addReverseHash credid c).1
    (take 16 (Sha256.Sum256 (list_byte_of_string credid)))
  = CredentialTypes c !! credid
  /\ (forall hash,
        base64Encode hash <>
          base64Encode (take 16 (Sha256.Sum256 (list_byte_of_string credid))) ->
        hashToCredentialType (addReverseHash credid c).1 hash =
          hashToCredentialType c hash).
Proof.
  unfold hashToCredentialType, addReverseHash, modify. cbn [fst].
  unfold setReverseHashes. cbn [reverseHashes CredentialTypes]. split.
  - change (firstn 16) with (@take byte 16). rewrite lookup_insert_eq. reflexivity.
  - intros hash Hne. change (firstn 16) with (@take byte 16).
    rewrite lookup_insert_ne by congruence. reflexivity.
Qed.

Lemma hashToCredentialType_addReverseHash_witness :
  hashToCredentialType (addReverseHash "irma-demo.RU.studentCard" demoConf).1 [] =
    hashToCredentialType demoConf [].
Proof.
  apply (proj2 (hashToCredentialType_addReverseHash "irma-demo.RU.studentCard" demoConf)).
  vm_compute. discriminate.
Defined.

Section Bookkeeping.
Context `{Libraries}.

Lemma sameBookkeeping_refl (c : Configuration) : sameBookkeeping c c.
Proof. repeat split; reflexivity. Qed.

Lemma sameBookkeeping_trans (c1 c2 c3 : Configuration) :
  sameBookkeeping c1 c2 -> sameBookkeeping c2 c3 -> sameBookkeeping c1 c3.
Proof.
  intros (A1 & A2 & A3 & A4 & A5 & A6) (B1 & B2 & B3 & B4 & B5 & B6).
  repeat split; congruence.
Qed.

Lemma quiet_ret {A : Type} (a : A) : quiet (mret a).
Proof. intros c c' r [= <- _]. apply sameBookkeeping_refl. Qed.

Lemma quiet_bind {A B : Type} (m : method A) (k : A -> method B) :
  quiet m -> (forall a, quiet (k a)) -> quiet (m ≫= k).
Proof.
  intros Hm Hk c c' r. unfold mbind, method_bind.
  destruct (m c) as [c1 [a|p]] eqn:Hrun.
  - intros Hrest.
    exact (sameBookkeeping_trans _ _ _ (Hm _ _ _ Hrun) (Hk a _ _ _ Hrest)).
  - intros [= <- _]. exact (Hm _ _ _ Hrun).
Qed.

Lemma quiet_getConf : quiet getConf.
Proof. intros c c' r [= <- _]. apply sameBookkeeping_refl. Qed.

Lemma quiet_managerAt (key : string) : quiet (managerAt key).
Proof. intros c c' r [= <- _]. apply sameBookkeeping_refl. Qed.

Lemma quiet_liftOutcome {A : Type} (o : outcome A) : quiet (liftOutcome o).
Proof. intros c c' r [= <- _]. apply sameBookkeeping_refl. Qed.

Lemma quiet_modify (f : Configuration -> Configuration) :
  (forall c, sameBookkeeping c (f c)) -> quiet (modify f).
Proof. intros Hf c c' r [= <- _]. apply Hf. Qed.

Lemma quiet_warn (msg : string) : quiet (warn msg).
Proof. apply quiet_modify. intros c. repeat split; reflexivity. Qed.

Lemma quiet_updateManager (key : string) (f : SchemeManager -> SchemeManager) :
  quiet (updateManager key f).
Proof. apply quiet_modify. intros c. repeat split; reflexivity. Qed.

Lemma quiet_forEachM {A : Type} (f : A -> method unit) (l : list A) :
  (forall a, quiet (f a)) -> quiet (forEachM f l).
Proof.
  intros Hf. induction l as [|a l IH]; simpl.
  - apply quiet_ret.
  - apply quiet_bind; [apply Hf | intros _; exact IH].
Qed.

Lemma quiet_iterateDirs {S : Type} (w : World)
    (handler : string -> S -> method (S * option goerror)) (dirs : list string) (s : S) :
  (forall dir s, quiet (handler dir s)) -> quiet (iterateDirs w handler dirs s).
Proof.
  intros Hhandler. revert s. induction dirs as [|dir rest IH]; intros s; simpl.
  - apply quiet_ret.
  - destruct (Stat w dir) as [[content|]|]; [apply IH| |apply quiet_ret].
    destruct (HasSuffix dir "/.git"); [apply IH|].
    apply quiet_bind; [apply Hhandler|]. intros [s' [e|]]; [apply quiet_ret|apply IH].
Qed.

Create HintDb quiet.
#[local] Hint Resolve quiet_ret quiet_getConf quiet_managerAt quiet_liftOutcome
  quiet_warn quiet_updateManager : quiet.

(** Goals of the form [quiet m]: by the structure of [m]. *)
Ltac quietStep :=
  match goal with
  | |- quiet _ => solve [auto with quiet]
  | |- quiet (_ ≫= _) => apply quiet_bind
  | |- quiet (forEachM _ _) => apply quiet_forEachM
  | |- quiet (iterateDirs _ _ _ _) => apply quiet_iterateDirs
  | |- quiet (modify _) => apply quiet_modify; intros ?; repeat split; reflexivity
  | |- quiet (match ?e with _ => _ end) => destruct e
  | |- forall _, _ => intros ?
  end.
Ltac quietAuto := repeat quietStep.

Lemma quiet_checkTranslations (file : string)
    (translated : list (string * TranslatedString)) :
  quiet (checkTranslations file translated).
Proof. unfold checkTranslations. quietAuto. Qed.
#[local] Hint Resolve quiet_checkTranslations : quiet.

Lemma quiet_checkVisitedPath (w : World) (index : SchemeManagerIndex)
    (path : string) (isDir : option bool) :
  quiet (checkVisitedPath w index path isDir).
Proof. unfold checkVisitedPath. quietAuto. Qed.
#[local] Hint Resolve quiet_checkVisitedPath : quiet.

Lemma quiet_checkVisited (w : World) (index : SchemeManagerIndex)
    (visited : list (string * bool)) :
  quiet (checkVisited w index visited).
Proof.
  induction visited as [|[path isDir] rest IH]; simpl; [apply quiet_ret|].
  apply quiet_bind; [apply quiet_checkVisitedPath|].
  intros [e|]; [apply quiet_ret | exact IH].
Qed.
#[local] Hint Resolve quiet_checkVisited : quiet.

Lemma quiet_checkUnsignedFiles (w : World) (name : string)
    (index : SchemeManagerIndex) :
  quiet (checkUnsignedFiles w name index).
Proof. unfold checkUnsignedFiles. quietAuto. Qed.
#[local] Hint Resolve quiet_checkUnsignedFiles : quiet.

Lemma quiet_parseIndex (w : World) (name : string) : quiet (parseIndex w name).
Proof. unfold parseIndex. quietAuto. Qed.
#[local] Hint Resolve quiet_parseIndex : quiet.

Lemma quiet_checkScheme (w : World) (key dir : string) : quiet (checkScheme w key dir).
Proof. unfold checkScheme. quietAuto. Qed.
#[local] Hint Resolve quiet_checkScheme : quiet.

Lemma quiet_checkIssuer (w : World) (manager : SchemeManager) (issuer : Issuer)
    (dir : string) :
  quiet (checkIssuer w manager issuer dir).
Proof. unfold checkIssuer. quietAuto. Qed.
#[local] Hint Resolve quiet_checkIssuer : quiet.

Lemma quiet_checkAttributeList (name : string) (count i : Z)
    (attrs : list AttributeType) (indices : gset Z) :
  quiet (checkAttributeList name count i attrs indices).
Proof.
  revert i indices. induction attrs as [|attr rest IH]; intros i indices; simpl.
  - apply quiet_ret.
  - apply quiet_bind; [apply quiet_checkTranslations|]. intros _.
    apply quiet_bind; [quietAuto|]. intros _. apply IH.
Qed.
#[local] Hint Resolve quiet_checkAttributeList : quiet.

Lemma quiet_checkAttributes (cred : CredentialType) : quiet (checkAttributes cred).
Proof. unfold checkAttributes. quietAuto. Qed.
#[local] Hint Resolve quiet_checkAttributes : quiet.

Lemma quiet_checkCredentialType (w : World) (manager : SchemeManager)
    (issuer : Issuer) (cred : CredentialType) (dir : string) :
  quiet (checkCredentialType w manager issuer cred dir).
Proof. unfold checkCredentialType. quietAuto. Qed.
#[local] Hint Resolve quiet_checkCredentialType : quiet.

Lemma quiet_addReverseHash (credid : string) : quiet (addReverseHash credid).
Proof. unfold addReverseHash. quietAuto. Qed.
#[local] Hint Resolve quiet_addReverseHash : quiet.

Lemma quiet_parseCredentialFolder (w : World) (key : string) (issuer : Issuer)
    (dir : string) (foundcred : bool) :
  quiet (parseCredentialFolder w key issuer dir foundcred).
Proof. unfold parseCredentialFolder. quietAuto. Qed.
#[local] Hint Resolve quiet_parseCredentialFolder : quiet.

Lemma quiet_parseCredentialsFolder (w : World) (key : string) (issuer : Issuer)
    (path : string) :
  quiet (parseCredentialsFolder w key issuer path).
Proof. unfold parseCredentialsFolder, iterateSubfolders. quietAuto. Qed.
#[local] Hint Resolve quiet_parseCredentialsFolder : quiet.

Lemma quiet_parseIssuerFolder (w : World) (key : string) (dir : string) (u : unit) :
  quiet (parseIssuerFolder w key dir u).
Proof. unfold parseIssuerFolder. quietAuto. Qed.
#[local] Hint Resolve quiet_parseIssuerFolder : quiet.

Lemma quiet_parseIssuerFolders (w : World) (key : string) (path : string) :
  quiet (parseIssuerFolders w key path).
Proof. unfold parseIssuerFolders, iterateSubfolders. quietAuto. Qed.
#[local] Hint Resolve quiet_parseIssuerFolders : quiet.

Lemma quiet_parseSchemeManagerFolderBody (w : World) (dir key : string) :
  quiet (parseSchemeManagerFolderBody w dir key).
Proof. unfold parseSchemeManagerFolderBody. quietAuto. Qed.

Lemma quiet_ParseSchemeManagerFolder (w : World) (dir : string)
    (manager : SchemeManager) :
  quiet (ParseSchemeManagerFolder w dir manager).
Proof.
  unfold ParseSchemeManagerFolder.
  apply quiet_bind; [apply quiet_modify; intros c; repeat split; reflexivity|].
  intros _. apply quiet_bind; [apply quiet_parseSchemeManagerFolderBody|].
  quietAuto.
Qed.

End Bookkeeping.

(** * Parsing: what the caller can rely on *)

Section ParsingReports.
Context `{Libraries}.

Ltac runMethod :=
  cbv beta iota zeta delta [mbind method_bind mret method_ret getConf managerAt
                            liftOutcome modify updateManager].

Ltac runMethodIn H :=
  cbv beta iota zeta delta [mbind method_bind mret method_ret getConf managerAt
                            liftOutcome modify updateManager] in H.

Lemma checkScheme_flag (w : World) (key dir : string) (c c' : Configuration)
    (managers : gmap string SchemeManager) (m : SchemeManager)
    (r : outcome (option goerror)) :
  SchemeManagers c = <[key := m]> managers ->
  checkScheme w key dir c = (c', r) ->
  exists m', SchemeManagers c' = <[key := m']> managers /\
             SchemeManager_Valid m' = SchemeManager_Valid m.
Proof.
  intros Hmanagers. unfold checkScheme.
  cbv beta iota zeta delta [mbind method_bind managerAt]. cbn beta iota.
  rewrite Hmanagers, lookup_insert_eq. cbn [default].
  destruct (_ <? 7).
  { runMethod. intros [= <- <-]. cbn. rewrite Hmanagers, alter_insert_eq.
    eexists. split; reflexivity. }
  destruct (negb (String.eqb (Base dir) _)).
  { runMethod. intros [= <- <-]. cbn. rewrite Hmanagers, alter_insert_eq.
    eexists. split; reflexivity. }
  match goal with |- context [match ?e with Some _ => _ | None => _ end] =>
    destruct e end.
  { runMethod. intros [= <- <-]. cbn. rewrite Hmanagers, alter_insert_eq.
    eexists. split; reflexivity. }
  runMethod.
  destruct (checkTranslations _ _ c) as [c1 [[]|p]] eqn:Hct;
    apply framed_checkTranslations in Hct as [HM HP];
    intros [= <- <-]; exists m; rewrite HM; auto.
Qed.

(** An exit of the body that leaves the flag of the manager alone. *)
Ltac exitUnflagged Hrun Hmanagers Hflag :=
  cbv beta iota zeta in Hrun;
  injection Hrun as <- <-; cbn [SchemeManagers setSchemeManagers];
  rewrite ?Hmanagers, ?alter_insert_eq;
  eexists; split; [reflexivity|];
  cbn [SchemeManager_Valid setStatus setIndex setDescription setTimestamp];
  rewrite ?Hflag; split; [discriminate | intros [=]].

Lemma parseSchemeManagerFolderBody_flag (w : World) (dir key : string)
    (c c' : Configuration) (managers : gmap string SchemeManager) (m0 : SchemeManager)
    (r : outcome (option goerror)) :
  SchemeManagers c = <[key := m0]> managers ->
  SchemeManager_Valid m0 = false ->
  parseSchemeManagerFolderBody w dir key c = (c', r) ->
  exists m', SchemeManagers c' = <[key := m']> managers /\
             (SchemeManager_Valid m' = true <-> r = Done None).
Proof.
  intros Hmanagers Hflag Hrun. unfold parseSchemeManagerFolderBody in Hrun.
  runMethodIn Hrun.
  destruct (VerifySignature w c _) as [[e|]|p];
    [exitUnflagged Hrun Hmanagers Hflag | | exitUnflagged Hrun Hmanagers Hflag].
  destruct (parseIndex w (Base dir) c) as [c1 [[index err]|p]] eqn:Hindex;
    apply framed_parseIndex in Hindex as [HM1 HP1]; rewrite Hmanagers in HM1;
    [|exitUnflagged Hrun HM1 Hflag].
  cbn [SchemeManagers setSchemeManagers Path] in Hrun.
  rewrite HM1, alter_insert_eq in Hrun.
  destruct err as [e|]; [exitUnflagged Hrun HM1 Hflag|].
  cbn [SchemeManagers setSchemeManagers Path] in Hrun.
  rewrite lookup_insert_eq in Hrun. cbn [default] in Hrun.
  destruct (pathToDescription _ _ _ _ _ _) as [[[desc found] err]|p];
    [|exitUnflagged Hrun HM1 Hflag].
  cbn [SchemeManagers setSchemeManagers Path] in Hrun.
  rewrite alter_insert_eq in Hrun.
  destruct err as [e|]; [exitUnflagged Hrun HM1 Hflag|].
  destruct (negb found); [exitUnflagged Hrun HM1 Hflag|].
  set (m2 := setDescription (setIndex m0 index) desc) in *.
  match type of Hrun with
  | context [checkScheme w key dir ?cc] => set (c2 := cc) in *
  end.
  assert (HM2 : SchemeManagers c2 = <[key := m2]> managers) by reflexivity.
  assert (Hflag2 : SchemeManager_Valid m2 = false) by exact Hflag.
  clearbody c2 m2.
  destruct (checkScheme w key dir c2) as [c3 [err|p]] eqn:Hcheck;
    destruct (checkScheme_flag _ _ _ _ _ _ _ _ HM2 Hcheck) as (m3 & HM3 & Hflag3);
    rewrite Hflag2 in Hflag3.
  2: { cbv beta iota zeta in Hrun. injection Hrun as <- <-. exists m3.
       split; [exact HM3|]. rewrite Hflag3. split; discriminate. }
  destruct err as [e|].
  { cbv beta iota zeta in Hrun. injection Hrun as <- <-. exists m3.
    split; [exact HM3|]. rewrite Hflag3. split; discriminate. }
  cbv beta iota zeta in Hrun.
  rewrite HM3, lookup_insert_eq in Hrun. cbn [default from_option] in Hrun.
  unfold id in Hrun.
  destruct (VerifySchemeManager w c3 m3) as [[e|]|p] eqn:Hverify;
    [exitUnflagged Hrun HM3 Hflag3 | | exitUnflagged Hrun HM3 Hflag3].
  destruct (readTimestamp w _) as [[[ts|] [|]] [e|]];
    try (exitUnflagged Hrun HM3 Hflag3).
  cbv beta iota zeta in Hrun.
  cbn [SchemeManagers setSchemeManagers Path] in Hrun.
  rewrite HM3, alter_insert_eq in Hrun.
  match type of Hrun with
  | context [parseIssuerFolders w key dir ?cc] => set (c4 := cc) in *
  end.
  assert (HM4 : SchemeManagers c4 = <[key := setTimestamp m3 ts]> managers)
    by reflexivity.
  clearbody c4.
  destruct (parseIssuerFolders w key dir c4) as [c5 [err|p]] eqn:Hissuers;
    apply framed_parseIssuerFolders in Hissuers as [HM5 HP5];
    rewrite HM4 in HM5;
    [|exitUnflagged Hrun HM5 Hflag3].
  destruct err as [e|]; [exitUnflagged Hrun HM5 Hflag3|].
  cbv beta iota zeta in Hrun.
  injection Hrun as <- <-. cbn [SchemeManagers setSchemeManagers Path].
  rewrite HM5, alter_insert_eq.
  eexists. split; [reflexivity|]. split; reflexivity.
Qed.

Lemma ParseSchemeManagerFolder_report (w : World) (dir : string)
    (manager : SchemeManager) (c c' : Configuration) (r : outcome (option goerror)) :
  Status_ manager <> SchemeManagerStatusValid ->
  SchemeManager_Valid manager = false ->
  ParseSchemeManagerFolder w dir manager c = (c', r) ->
  exists m',
    SchemeManagers c' = <[SchemeManager_Identifier manager := m']> (SchemeManagers c)
    /\ sameBookkeeping c c'
    /\ (r = Done None <-> Status_ m' = SchemeManagerStatusValid)
    /\ (Status_ m' = SchemeManagerStatusValid <-> SchemeManager_Valid m' = true)
    /\ (forall e, r = Done (Some e) ->
          exists cause,
            e = SchemeManagerError (SchemeManager_Identifier m') (Status_ m') cause).
Proof.
  intros Hstatus Hflag Hrun.
  pose proof (quiet_ParseSchemeManagerFolder w dir manager _ _ _ Hrun) as Hquiet.
  destruct (ParseSchemeManagerFolder_valid w dir manager c c' r Hstatus Hrun)
    as (m1 & HM1 & _ & Hok & Hvalid).
  unfold ParseSchemeManagerFolder in Hrun. runMethodIn Hrun.
  match type of Hrun with
  | context [parseSchemeManagerFolderBody w dir _ ?cc] => set (c0 := cc) in *
  end.
  assert (HM0 : SchemeManagers c0 =
                  <[SchemeManager_Identifier manager := manager]> (SchemeManagers c))
    by reflexivity.
  clearbody c0.
  destruct (parseSchemeManagerFolderBody w dir _ c0) as [c1 rb] eqn:Hbody.
  destruct (parseSchemeManagerFolderBody_flag _ _ _ _ _ _ _ _ HM0 Hflag Hbody)
    as (m2 & HM2 & Hflag2).
  assert (c' = c1) as -> by (destruct rb as [[e|]|p]; congruence).
  assert (m2 = m1) as ->.
  { rewrite HM1 in HM2.
    apply (f_equal (fun M => M !! SchemeManager_Identifier manager)) in HM2.
    rewrite !lookup_insert_eq in HM2. congruence. }
  exists m1. split; [exact HM1|]. split; [exact Hquiet|].
  split; [split; [exact Hok|intros Hv; apply Hvalid, Hv]|].
  assert (r = Done None <-> rb = Done None) as Hrb.
  { destruct rb as [[e|]|p]; cbv beta iota zeta in Hrun; injection Hrun as <-;
      split; intros; congruence. }
  split.
  - split.
    + intros Hv. apply Hflag2, Hrb, Hvalid, Hv.
    + intros Hv. apply Hok, Hrb, Hflag2, Hv.
  - intros e ->. destruct rb as [[e0|]|p]; cbv beta iota zeta in Hrun;
      try discriminate.
    rewrite HM1, lookup_insert_eq in Hrun. cbn [default from_option] in Hrun.
    injection Hrun as <-. eauto.
Qed.

Lemma parseManagerDir_parsedSoFar (w : World) (dir : string)
    (mgrerr mgrerr' : option goerror) (c c' : Configuration) (err : option goerror) :
  parsedSoFar mgrerr c ->
  parseManagerDir w dir mgrerr c = (c', Done (mgrerr', err)) ->
  parsedSoFar mgrerr' c' /\ err = None /\ initialized c' = initialized c.
Proof.
  intros (Hflags & Hnone & Hsome) Hrun. unfold parseManagerDir in Hrun.
  runMethodIn Hrun.
  destruct (ParseSchemeManagerFolder w dir _ c) as [c1 rp] eqn:Hparse.
  destruct (ParseSchemeManagerFolder_report w dir (NewSchemeManager (Base dir)) c c1 rp
              ltac:(discriminate) eq_refl Hparse)
    as (m' & HM1 & Hquiet & Hok & Hflag & Herr).
  destruct Hquiet as (Hd1 & Hi1 & _).
  assert (forall id m, SchemeManagers c1 !! id = Some m ->
            (Status_ m = SchemeManagerStatusValid <-> SchemeManager_Valid m = true))
    as Hflags1.
  { intros id m. rewrite HM1.
    destruct (decide (SchemeManager_Identifier (NewSchemeManager (Base dir)) = id))
      as [<-|Hne].
    - rewrite lookup_insert_eq. intros [= <-]. exact Hflag.
    - rewrite lookup_insert_ne by exact Hne. apply Hflags. }
  destruct rp as [[e|]|p]; [| |discriminate].
  - destruct (Herr e eq_refl) as [cause ->]. runMethodIn Hrun.
    injection Hrun as <- <- <-.
    split; [|split; [reflexivity|exact Hi1]].
    split; [exact Hflags1|]. split; [discriminate|].
    intros e [= <-]. cbn [DisabledSchemeManagers setDisabledSchemeManagers].
    split; [eexists; apply lookup_insert_eq|eauto].
  - injection Hrun as <- <- <-.
    split; [|split; [reflexivity|exact Hi1]].
    split; [exact Hflags1|]. split.
    + intros ->. destruct (Hnone eq_refl) as [Hempty Hall].
      split; [congruence|]. intros id m. rewrite HM1.
      destruct (decide (SchemeManager_Identifier (NewSchemeManager (Base dir)) = id))
        as [<-|Hne].
      * rewrite lookup_insert_eq. intros [= <-]. apply Hok. reflexivity.
      * rewrite lookup_insert_ne by exact Hne. apply Hall.
    + intros e ->. destruct (Hsome e eq_refl) as [[id Hid] Hshape].
      split; [exists id; congruence|exact Hshape].
Qed.

Lemma iterateDirs_parsedSoFar (w : World) (dirs : list string)
    (mgrerr mgrerr' : option goerror) (c c' : Configuration) (err : option goerror) :
  parsedSoFar mgrerr c ->
  iterateDirs w (parseManagerDir w) dirs mgrerr c = (c', Done (mgrerr', err)) ->
  parsedSoFar mgrerr' c' /\ initialized c' = initialized c.
Proof.
  revert mgrerr c. induction dirs as [|dir rest IH]; intros mgrerr c Hinv; simpl.
  - intros [= <- <- _]. auto.
  - destruct (Stat w dir) as [[content|]|]; [apply IH, Hinv| |intros [= <- <- _]; auto].
    destruct (HasSuffix dir "/.git"); [apply IH, Hinv|].
    unfold mbind, method_bind.
    destruct (parseManagerDir w dir mgrerr c) as [c1 [[mgrerr1 err1]|p]] eqn:Hdir;
      [|discriminate].
    destruct (parseManagerDir_parsedSoFar _ _ _ _ _ _ _ Hinv Hdir) as (Hinv1 & -> & Hi1).
    intros Hrest. destruct (IH _ _ Hinv1 Hrest) as [Hinv' Hi']. split; [exact Hinv'|].
    congruence.
Qed.

Lemma ParseFolder_parsed (c c' : Configuration) (w w' : World)
    (r : option goerror) :
  ParseFolder (c, w) = ((c', w'), Done r) ->
  (r = None -> initialized c' = true /\ parsedSoFar None c')
  /\ (forall e, r = Some e -> initialized c = false -> initialized c' = true ->
                parsedSoFar (Some e) c').
Proof.
  assert (Hempty : parsedSoFar None (clear c)).
  { split; [|split].
    - intros id m Hlookup. cbn in Hlookup. rewrite lookup_empty in Hlookup.
      discriminate.
    - intros _. split; [reflexivity|]. intros id m Hlookup. cbn in Hlookup.
      rewrite lookup_empty in Hlookup. discriminate.
    - discriminate. }
  unfold ParseFolder. intros Hrun.
  apply action_bind_inv in Hrun as [(s1 & [] & Hclear & Hrun)|(p & [=] & _)].
  injection Hclear as <-. cbn [fst snd] in Hrun.
  apply action_bind_inv in Hrun as [(s2 & [conf w0] & Hget & Hrun)|(p & [=] & _)].
  injection Hget as <- <- <-.
  apply action_bind_inv in Hrun as [([c1 w1] & err & Hcopy & Hrun)|(p & _ & [=])].
  assert (c1 = clear c) as ->.
  { destruct (negb _).
    - exact (keepsConf_copyFromAssets _ _ _ _ _ Hcopy).
    - exact (keepsConf_ret _ _ _ _ _ _ Hcopy). }
  destruct err as [e|].
  { injection Hrun as <- <- <-. split; [discriminate|].
    intros e' _ Hfalse Htrue. cbn in Htrue. congruence. }
  apply action_bind_inv in Hrun as [([c2 w2] & [mgrerr err] & Hiter & Hrun)
                                   |(p & _ & [=])].
  unfold liftMethod in Hiter. cbn [fst snd] in Hiter.
  unfold mbind, method_bind, getConf, iterateSubfolders in Hiter.
  destruct (iterateDirs w1 _ _ _ _) as [c3 r3] eqn:Hdirs.
  injection Hiter as <- <- ->.
  destruct (iterateDirs_parsedSoFar _ _ _ _ _ _ _ Hempty Hdirs) as [Hinv Hinit].
  cbn [initialized clear] in Hinit.
  destruct err as [e|].
  { injection Hrun as <- <- <-. split; [discriminate|].
    intros e' _ Hfalse Htrue. congruence. }
  apply action_bind_inv in Hrun as [(s3 & [] & Hset & Hrun)|(p & [=] & _)].
  injection Hset as <-. injection Hrun as <- <- <-.
  cbn [fst snd initialized setInitialized].
  split.
  - intros ->. split; [reflexivity|exact Hinv].
  - intros e -> _ _. exact Hinv.
Qed.

(** ** The disk during [ParseFolder] *)

Lemma iterateDirsWriting_idle (handler : string -> action (option goerror))
    (dirs : list string) (c : Configuration) (w : World)
    (s' : Configuration * World) (r : outcome (option goerror)) :
  (forall dir w0, handler dir (c, w0) = ((c, w0), Done None)) ->
  iterateDirsWriting handler dirs (c, w) = (s', r) -> s' = (c, w).
Proof.
  intros Hhandler. induction dirs as [|dir rest IH]; cbn [iterateDirsWriting].
  - intros [= <- _]. reflexivity.
  - cbv beta iota zeta delta [mbind action_bind mret action_ret getState].
    destruct (Stat w dir) as [[content|]|]; [exact IH| |intros [= <- _]; reflexivity].
    destruct (HasSuffix dir "/.git"); [exact IH|].
    rewrite Hhandler. exact IH.
Qed.

Lemma copyFromAssets_readOnly (c : Configuration) (w : World)
    (s' : Configuration * World) (r : outcome (option goerror)) :
  readOnly c = true -> copyFromAssets (c, w) = (s', r) -> s' = (c, w).
Proof.
  intros Hro. unfold copyFromAssets.
  cbv beta iota zeta delta [mbind action_bind getState].
  apply iterateDirsWriting_idle. intros dir w0.
  cbv beta iota zeta delta [mbind action_bind mret action_ret getState liftMethod
                            liftOutcome fst snd].
  unfold isUpToDate. rewrite Hro, orb_true_r. reflexivity.
Qed.

End ParsingReports.

(** X15.  What [ParseSchemeManagerFolder] reports.  For a scheme manager that
    is not yet valid, it registers the manager under its identifier in
    every case and changes no other scheme manager; it returns nil exactly
    when it has given the manager the status Valid; the status Valid and
    the flag Valid go together; and every error it returns is a
    [SchemeManagerError] that carries the identifier and the status of the
    manager.  The disabled scheme managers, the public keys, the flags and
    the paths of the configuration are as before. *)
Theorem ParseSchemeManagerFolder_reports (L : Libraries) (w : World) (dir : string)
    (manager : SchemeManager) (c c' : Configuration) (r : outcome (option goerror)) :
  Status_ manager <> SchemeManagerStatusValid ->
  SchemeManager_Valid manager = false ->
  ParseSchemeManagerFolder w dir manager c = (c', r) ->
  exists m',
    SchemeManagers c' = <[SchemeManager_Identifier manager := m']> (SchemeManagers c)
    /\ sameBookkeeping c c'
    /\ (r = Done None <-> Status_ m' = SchemeManagerStatusValid)
    /\ (Status_ m' = SchemeManagerStatusValid <-> SchemeManager_Valid m' = true)
    /\ (forall e, r = Done (Some e) ->
          exists cause,
            e = SchemeManagerError (SchemeManager_Identifier m') (Status_ m') cause).
Proof. apply ParseSchemeManagerFolder_report. Qed.

Lemma ParseSchemeManagerFolder_reports_witness :
  exists m',
    SchemeManagers (@ParseSchemeManagerFolder brokenLibraries brokenWorld "/conf/irma-demo"
                      (NewSchemeManager "irma-demo") demoConf).1 =
      <["irma-demo" := m']> ∅
    /\ Status_ m' <> SchemeManagerStatusValid
    /\ SchemeManager_Valid m' = false.
Proof.
  destruct (@ParseSchemeManagerFolder brokenLibraries brokenWorld "/conf/irma-demo"
              (NewSchemeManager "irma-demo") demoConf) as [c' r] eqn:Hrun.
  destruct (ParseSchemeManagerFolder_reports brokenLibraries brokenWorld "/conf/irma-demo"
              (NewSchemeManager "irma-demo") demoConf c' r
              ltac:(discriminate) eq_refl Hrun)
    as (m' & HM & _ & Hok & Hflag & _).
  assert (r <> Done None) as Hr.
  { apply (f_equal snd) in Hrun. vm_compute in Hrun. subst r. discriminate. }
  exists m'. split; [exact HM|].
  assert (Status_ m' <> SchemeManagerStatusValid) as Hstatus
    by (intros Hv; apply Hr, Hok, Hv).
  split; [exact Hstatus|].
  destruct (SchemeManager_Valid m'); [|reflexivity].
  destruct Hstatus. apply Hflag. reflexivity.
Defined.

(** X16.  What [ParseFolder] leaves behind.  When it returns nil, the
    configuration is initialized, no scheme manager is disabled, and every
    scheme manager has the status Valid and the flag Valid.  When it
    returns an error on a configuration that was not initialized and the
    configuration is initialized afterwards, the error is the
    [SchemeManagerError] of a scheme, which is listed among the disabled
    scheme managers. *)
Theorem ParseFolder_result (L : Libraries) (c c' : Configuration) (w w' : World)
    (r : option goerror) :
  ParseFolder (c, w) = ((c', w'), Done r) ->
  (r = None ->
   initialized c' = true
   /\ DisabledSchemeManagers c' = ∅
   /\ forall id m, SchemeManagers c' !! id = Some m ->
                   Status_ m = SchemeManagerStatusValid /\ SchemeManager_Valid m = true)
  /\ (forall e, r = Some e -> initialized c = false -> initialized c' = true ->
        (exists id, DisabledSchemeManagers c' !! id = Some e)
        /\ exists a b cause, e = SchemeManagerError a b cause).
Proof.
  intros Hrun. destruct (ParseFolder_parsed c c' w w' r Hrun) as [Hnone Hsome]. split.
  - intros Hr. destruct (Hnone Hr) as [Hinit (Hflags & Hall & _)].
    destruct (Hall eq_refl) as [Hempty Hvalid].
    split; [exact Hinit|]. split; [exact Hempty|]. intros id m Hm.
    split; [exact (Hvalid id m Hm)|]. apply (Hflags id m Hm), (Hvalid id m Hm).
  - intros e He Hfalse Htrue. destruct (Hsome e He Hfalse Htrue) as (_ & _ & Hlisted).
    exact (Hlisted e eq_refl).
Qed.

Lemma ParseFolder_result_witness :
  initialized loadedConf = true
  /\ DisabledSchemeManagers loadedConf = ∅
  /\ forall id m, SchemeManagers loadedConf !! id = Some m ->
                  Status_ m = SchemeManagerStatusValid /\ SchemeManager_Valid m = true.
Proof.
  assert (@ParseFolder demoLibraries (demoConf, demoWorld) =
            ((loadedConf, (@ParseFolder demoLibraries (demoConf, demoWorld)).1.2),
             Done None)) as Hrun by (vm_compute; reflexivity).
  exact (proj1 (ParseFolder_result demoLibraries _ _ _ _ _ Hrun) eq_refl).
Defined.

(** X17.  [ParseFolder] only reads the disk of a configuration that is
    read-only or has no assets: whatever it returns, no file is written,
    removed or renamed. *)
Theorem ParseFolder_leaves_disk (L : Libraries) (c c' : Configuration) (w w' : World)
    (r : outcome (option goerror)) :
  assets c = "" \/ readOnly c = true ->
  ParseFolder (c, w) = ((c', w'), r) ->
  w' = w.
Proof.
  intros Hquiet. unfold ParseFolder. intros Hrun.
  apply action_bind_inv in Hrun as [(s1 & [] & Hclear & Hrun)|(p & [=] & _)].
  injection Hclear as <-. cbn [fst snd] in Hrun.
  apply action_bind_inv in Hrun as [(s2 & [conf w0] & Hget & Hrun)|(p & [=] & _)].
  injection Hget as <- <- <-.
  assert (forall s1 r1,
            (if negb (String.eqb (assets (clear c)) "") then copyFromAssets else mret None)
              (clear c, w) = (s1, r1) -> s1 = (clear c, w)) as Hcopy.
  { intros s1 r1. cbn [assets clear]. destruct Hquiet as [->|Hro].
    - cbn. intros [= <- _]. reflexivity.
    - destruct (negb _); [|intros [= <- _]; reflexivity].
      apply copyFromAssets_readOnly. exact Hro. }
  apply action_bind_inv in Hrun as [(s3 & err & Hstep & Hrun)|(p & Hstep & _)];
    apply Hcopy in Hstep; [subst s3|congruence].
  destruct err as [e|]; [injection Hrun as _ <- _; reflexivity|].
  apply action_bind_inv in Hrun as [([c2 w2] & [mgrerr err] & Hiter & Hrun)
                                   |(p & Hiter & _)];
    unfold liftMethod in Hiter; cbn [fst snd] in Hiter;
    destruct (_ ≫= _) as [c3 r3] in Hiter.
  2: congruence.
  injection Hiter as <- <- _.
  destruct err as [e|]; [injection Hrun as _ <- _; reflexivity|].
  apply action_bind_inv in Hrun as [(s4 & [] & Hset & Hrun)|(p & [=] & _)].
  injection Hset as <-. cbn [fst snd] in Hrun. injection Hrun as _ <- _. reflexivity.
Qed.

Lemma ParseFolder_leaves_disk_witness :
  (@ParseFolder demoLibraries (readOnlyConf, demoWorld)).1.2 = demoWorld.
Proof.
  destruct (@ParseFolder demoLibraries (readOnlyConf, demoWorld)) as [[c' w'] r] eqn:Hrun.
  apply (ParseFolder_leaves_disk demoLibraries readOnlyConf c' demoWorld w' r).
  - right. reflexivity.
  - exact Hrun.
Defined.

(** * Updating a scheme *)

Section Updating.
Context `{Libraries}.

Lemma keepsConf_liftMethod_outcome {A : Type} (f : World -> Configuration -> outcome A) :
  keepsConf (liftMethod (fun w => conf ← getConf; liftOutcome (f w conf))).
Proof. intros c w c' w' r [= <- _ _]. reflexivity. Qed.

Lemma keepsConf_GetBytes (transport url : string) : keepsConf (GetBytes transport url).
Proof. unfold GetBytes. apply keepsConf_liftWorld. Qed.

Lemma keepsConf_GetSignedFile (transport url dest : string) (hash : option (list byte)) :
  keepsConf (GetSignedFile transport url dest hash).
Proof.
  unfold GetSignedFile. apply keepsConf_bind; [apply keepsConf_GetBytes|].
  intros [b [e|]]; [apply keepsConf_ret|].
  destruct hash as [h|]; [|apply keepsConf_liftWorld].
  destruct (negb _); [apply keepsConf_ret|apply keepsConf_liftWorld].
Qed.

Lemma keepsConf_DownloadSchemeManagerSignature (manager : SchemeManager) :
  keepsConf (DownloadSchemeManagerSignature manager).
Proof.
  unfold DownloadSchemeManagerSignature.
  apply keepsConf_bind; [apply keepsConf_getState|]. intros [conf w].
  destruct (readOnly conf); [apply keepsConf_ret|].
  apply keepsConf_bind; [apply keepsConf_GetSignedFile|]. intros [e|];
    [apply keepsConf_ret|].
  apply keepsConf_bind; [apply keepsConf_GetSignedFile|]. intros [e|];
    [apply keepsConf_ret|].
  apply (keepsConf_liftMethod_outcome
           (fun w conf => VerifySignature w conf (SchemeManager_Identifier manager))).
Qed.

Lemma keepsConf_updateFiles (manager : SchemeManager) (transport : string)
    (entries : list (string * list byte)) (downloaded : option IrmaIdentifierSet) :
  keepsConf (updateFiles manager transport entries downloaded).
Proof.
  revert downloaded.
  induction entries as [|[filename newHash] rest IH]; intros downloaded;
    cbn [updateFiles]; [apply keepsConf_ret|].
  apply keepsConf_bind; [apply keepsConf_getState|]. intros [conf w].
  destruct (PathExists w _) as [have [e|]]; [apply keepsConf_ret|].
  destruct (_ && _); [apply IH|].
  apply keepsConf_bind; [apply keepsConf_liftWorld|]. intros [e|]; [apply keepsConf_ret|].
  apply keepsConf_bind; [apply keepsConf_liftOutcome|]. intros stripped.
  apply keepsConf_bind; [apply keepsConf_GetSignedFile|]. intros [e|];
    [apply keepsConf_ret|].
  destruct downloaded as [set|]; apply IH.
Qed.

Lemma UpdateSchemeManager_managers (id : string) (downloaded : option IrmaIdentifierSet)
    (c c' : Configuration) (w w' : World)
    (r : outcome (option IrmaIdentifierSet * option goerror)) :
  UpdateSchemeManager id downloaded (c, w) = ((c', w'), r) ->
  SchemeManagers c' = SchemeManagers c
  \/ exists d newIndex,
       r = Done (d, None)
       /\ SchemeManagers c' = alter (fun m => setIndex m newIndex) id (SchemeManagers c).
Proof.
  unfold UpdateSchemeManager. intros Hrun.
  apply action_bind_inv in Hrun as [(s1 & [conf w0] & Hget & Hrun)|(p & [=] & _)].
  injection Hget as <- <- <-.
  destruct (readOnly c); [left; injection Hrun as <- _ _; reflexivity|].
  destruct (SchemeManagers c !! id) as [manager|];
    [|left; injection Hrun as <- _ _; reflexivity].
  apply action_bind_inv in Hrun as [([c1 w1] & [bts err] & Hstep & Hrun)|(p & Hstep & _)];
    apply keepsConf_GetBytes in Hstep; subst; [|left; reflexivity].
  destruct err as [e|]; [left; injection Hrun as <- _ _; reflexivity|].
  destruct (parseTimestamp bts) as [timestamp|e];
    [|left; injection Hrun as <- _ _; reflexivity].
  destruct (negb _); [left; injection Hrun as <- _ _; reflexivity|].
  apply action_bind_inv in Hrun as [([c2 w2] & err & Hstep & Hrun)|(p & Hstep & _)];
    apply keepsConf_DownloadSchemeManagerSignature in Hstep; subst; [|left; reflexivity].
  destruct err as [e|]; [left; injection Hrun as <- _ _; reflexivity|].
  apply action_bind_inv in Hrun as [([c3 w3] & [newIndex err] & Hstep & Hrun)
                                   |(p & Hstep & _)];
    unfold liftMethod in Hstep; cbn [fst snd] in Hstep;
    destruct (parseIndex w2 _ c) as [c4 r4] eqn:Hindex;
    apply framed_parseIndex in Hindex as [HM _].
  2: { left. congruence. }
  injection Hstep as <- <- _.
  destruct err as [e|]; [left; injection Hrun as <- _ _; exact HM|].
  apply action_bind_inv in Hrun as [([c5 w5] & [d err] & Hstep & Hrun)|(p & Hstep & _)];
    apply keepsConf_updateFiles in Hstep; subst; [|left; exact HM].
  destruct err as [e|]; [left; injection Hrun as <- _ _; exact HM|].
  apply action_bind_inv in Hrun as [(s6 & [] & Hstep & Hrun)|(p & [=] & _)].
  injection Hstep as <-. injection Hrun as <- _ <-. cbn [fst SchemeManagers setSchemeManagers].
  right. exists d, newIndex. split; [reflexivity|]. rewrite HM. reflexivity.
Qed.

End Updating.

(** X18.  [UpdateSchemeManager] changes the scheme managers in memory only
    when it succeeds, and then only the index of the scheme manager that is
    updated: when it returns an error or panics, all scheme managers with
    their indices are as before, whatever has been written to the disk.
    For a scheme manager that is not known it returns an error without any
    request to the network. *)
Theorem UpdateSchemeManager_index_on_error (L : Libraries) (id : string)
    (downloaded : option IrmaIdentifierSet) (c c' : Configuration) (w w' : World)
    (r : outcome (option IrmaIdentifierSet * option goerror)) :
  UpdateSchemeManager id downloaded (c, w) = ((c', w'), r) ->
  ((forall d, r <> Done (d, None)) -> SchemeManagers c' = SchemeManagers c)
  /\ (forall k, k <> id -> SchemeManagers c' !! k = SchemeManagers c !! k)
  /\ (readOnly c = false -> SchemeManagers c !! id = None ->
      c' = c /\ w' = w
      /\ r = Done (downloaded,
                   Some (Errorf ("Cannot update unknown scheme manager " +:+ id)))).
Proof.
  intros Hrun. split; [|split].
  - intros Herr.
    destruct (UpdateSchemeManager_managers id downloaded c c' w w' r Hrun)
      as [Hsame|(d & newIndex & -> & _)]; [exact Hsame|].
    destruct (Herr d eq_refl).
  - intros k Hk.
    destruct (UpdateSchemeManager_managers id downloaded c c' w w' r Hrun)
      as [->|(d & newIndex & _ & ->)]; [reflexivity|].
    apply lookup_alter_ne. congruence.
  - intros Hro Hnone. unfold UpdateSchemeManager in Hrun.
    cbv beta iota zeta delta [mbind action_bind getState] in Hrun.
    rewrite Hro, Hnone in Hrun. injection Hrun as <- <- <-. auto.
Qed.

Lemma UpdateSchemeManager_index_on_error_witness :
  (@UpdateSchemeManager demoLibraries "pbdf" None (loadedConf, mirrorWorld)).1
    = (loadedConf, mirrorWorld)
  /\ (@UpdateSchemeManager demoLibraries "pbdf" None (loadedConf, mirrorWorld)).2
     = Done (None, Some (Errorf "Cannot update unknown scheme manager pbdf")).
Proof.
  destruct (@UpdateSchemeManager demoLibraries "pbdf" None (loadedConf, mirrorWorld))
    as [[c' w'] r] eqn:Hrun.
  destruct (proj2 (proj2 (UpdateSchemeManager_index_on_error demoLibraries "pbdf" None
                            loadedConf c' mirrorWorld w' r Hrun)))
    as (-> & -> & ->); [vm_compute; reflexivity..|].
  split; reflexivity.
Defined.

(** * Public keys *)



(** * Restoring broken schemes *)

Section RestoringLemmas.
Context `{Libraries}.

Lemma iterateDirs_related {S : Type} (R : Configuration -> Configuration -> Prop)
    (w : World) (handler : string -> S -> method (S * option goerror))
    (dirs : list string) (s : S) (c c' : Configuration)
    (r : outcome (S * option goerror)) :
  (forall c, R c c) -> (forall c1 c2 c3, R c1 c2 -> R c2 c3 -> R c1 c3) ->
  (forall dir s c c' r, handler dir s c = (c', r) -> R c c') ->
  iterateDirs w handler dirs s c = (c', r) -> R c c'.
Proof.
  intros Hrefl Htrans Hhandler. revert s c.
  induction dirs as [|dir rest IH]; intros s c; simpl.
  - intros [= <- _]. apply Hrefl.
  - destruct (Stat w dir) as [[content|]|]; [apply IH| |intros [= <- _]; apply Hrefl].
    destruct (HasSuffix dir "/.git"); [apply IH|].
    unfold mbind, method_bind.
    destruct (handler dir s c) as [c1 [[s1 [e|]]|p]] eqn:Hdir;
      pose proof (Hhandler _ _ _ _ _ Hdir) as H1.
    + intros [= <- _]. exact H1.
    + intros Hrest. exact (Htrans _ _ _ H1 (IH _ _ Hrest)).
    + intros [= <- _]. exact H1.
Qed.

Lemma parseManagerDir_sameMode (w : World) (dir : string) (mgrerr : option goerror)
    (c c' : Configuration) (r : outcome (option goerror * option goerror)) :
  parseManagerDir w dir mgrerr c = (c', r) -> sameMode c c'.
Proof.
  unfold parseManagerDir.
  cbv beta iota zeta delta [mbind method_bind mret method_ret managerAt modify].
  destruct (ParseSchemeManagerFolder w dir _ c) as [c1 rp] eqn:Hparse.
  apply quiet_ParseSchemeManagerFolder in Hparse as (_ & _ & Hro & Hassets & _).
  destruct rp as [[e|]|p]; [destruct e| |]; intros [= <- _]; split; assumption.
Qed.

Lemma ParseFolder_sameMode (c c' : Configuration) (w w' : World)
    (r : outcome (option goerror)) :
  ParseFolder (c, w) = ((c', w'), r) -> sameMode c c'.
Proof.
  unfold ParseFolder. intros Hrun.
  apply action_bind_inv in Hrun as [(s1 & [] & Hclear & Hrun)|(p & [=] & _)].
  injection Hclear as <-. cbn [fst snd] in Hrun.
  apply action_bind_inv in Hrun as [(s2 & [conf w0] & Hget & Hrun)|(p & [=] & _)].
  injection Hget as <- <- <-.
  assert (forall c1 w1 r1,
            (if negb (String.eqb (assets (clear c)) "") then copyFromAssets else mret None)
              (clear c, w) = ((c1, w1), r1) -> c1 = clear c) as Hcopy.
  { intros c1 w1 r1. destruct (negb _).
    - apply keepsConf_copyFromAssets.
    - apply keepsConf_ret. }
  apply action_bind_inv in Hrun as [([c1 w1] & err & Hstep & Hrun)|(p & Hstep & _)];
    apply Hcopy in Hstep; [subst c1|subst c'; split; reflexivity].
  destruct err as [e|]; [injection Hrun as <- _ _; split; reflexivity|].
  assert (forall dirs c2 r2,
            iterateDirs w1 (parseManagerDir w1) dirs None (clear c)
              = (c2, r2) -> sameMode c c2) as Hiter.
  { intros dirs c2 r2. apply (iterateDirs_related (fun a b => sameMode a b)).
    - intros a. split; reflexivity.
    - intros a b d [A1 A2] [B1 B2]. split; congruence.
    - intros dir s a b r0. apply parseManagerDir_sameMode. }
  apply action_bind_inv in Hrun as [([c2 w2] & [mgrerr err] & Hstep & Hrun)
                                   |(p & Hstep & _)];
    unfold liftMethod in Hstep; cbn [fst snd] in Hstep;
    unfold mbind, method_bind, getConf, iterateSubfolders in Hstep;
    destruct (iterateDirs w1 _ _ _ _) as [c3 r3] eqn:Hdirs;
    apply Hiter in Hdirs.
  2: { injection Hstep as <- _ _. exact Hdirs. }
  injection Hstep as <- _ _.
  destruct err as [e|]; [injection Hrun as <- _ _; exact Hdirs|].
  apply action_bind_inv in Hrun as [(s4 & [] & Hset & Hrun)|(p & [=] & _)].
  injection Hset as <-. injection Hrun as <- _ _. exact Hdirs.
Qed.

Lemma ParseOrRestoreFolder_early (c : Configuration) (w : World)
    (s : Configuration * World) (r : outcome (option goerror)) :
  ParseFolder (c, w) = (s, r) ->
  assets c = "" \/ readOnly c = true
  \/ (forall a b cause, r <> Done (Some (SchemeManagerError a b cause))) ->
  ParseOrRestoreFolder (c, w) = (s, r).
Proof.
  intros Hparse Hcase. unfold ParseOrRestoreFolder.
  cbv beta iota zeta delta [mbind action_bind mret action_ret getState].
  rewrite Hparse. destruct r as [[e|]|p]; try reflexivity.
  destruct e; try reflexivity.
  destruct s as [c' w'].
  destruct (ParseFolder_sameMode _ _ _ _ _ Hparse) as [Hassets Hro].
  rewrite Hassets, Hro.
  destruct Hcase as [->|[->|Hother]].
  - reflexivity.
  - rewrite orb_true_r. reflexivity.
  - destruct (Hother _ _ _ eq_refl).
Qed.

End RestoringLemmas.

(** X20.  [ParseOrRestoreFolder] restores only with assets and never on a
    read-only configuration: for a configuration without assets or a
    read-only one, and whenever [ParseFolder] returns nil or an error that
    is no [SchemeManagerError], it does and returns what [ParseFolder] does
    and returns. *)
Theorem ParseOrRestoreFolder_is_ParseFolder (L : Libraries) (c : Configuration)
    (w : World) :
  (assets c = "" \/ readOnly c = true ->
   ParseOrRestoreFolder (c, w) = ParseFolder (c, w))
  /\ ((forall a b cause,
         (ParseFolder (c, w)).2 <> Done (Some (SchemeManagerError a b cause))) ->
      ParseOrRestoreFolder (c, w) = ParseFolder (c, w)).
Proof.
  destruct (ParseFolder (c, w)) as [s r] eqn:Hparse. split.
  - intros [Hassets|Hro]; apply (ParseOrRestoreFolder_early c w s r Hparse); auto.
  - intros Hother. apply (ParseOrRestoreFolder_early c w s r Hparse). auto.
Qed.

Lemma ParseOrRestoreFolder_is_ParseFolder_witness :
  @ParseOrRestoreFolder brokenLibraries (demoConf, brokenWorld) =
    @ParseFolder brokenLibraries (demoConf, brokenWorld).
Proof.
  apply (proj1 (ParseOrRestoreFolder_is_ParseFolder brokenLibraries demoConf brokenWorld)).
  left. reflexivity.
Defined.

(** * The signature of the index *)





(** X22.  A directory counts as part of the scheme exactly when some path of
    the index starts with its name, as a string: [dirInScheme] compares
    prefixes of characters, not path elements. *)
Theorem dirInScheme_prefix (index : SchemeManagerIndex) (dir : string) :
  dirInScheme index dir = true <->
  exists path hash rest, index !! path = Some hash /\ path = dir +:+ rest.
Proof.
  unfold dirInScheme, HasPrefix. rewrite existsb_exists. split.
  - intros [[path hash] [Hin Hprefix]]. cbn [fst] in Hprefix.
    apply list_elem_of_In, elem_of_map_to_list in Hin.
    apply prefix_append in Hprefix as [rest ->]. eauto.
  - intros (path & hash & rest & Hlookup & ->). exists (dir +:+ rest, hash).
    split; [apply list_elem_of_In, elem_of_map_to_list; exact Hlookup|].
    apply prefix_append. eauto.
Qed.

Lemma dirInScheme_prefix_witness :
  dirInScheme {[ "irma-demo/MijnOverheid/description.xml" := bytes "h" ]}
    "irma-demo/Mijn" = true.
Proof.
  apply (proj2 (dirInScheme_prefix _ "irma-demo/Mijn")).
  exists "irma-demo/MijnOverheid/description.xml", (bytes "h"),
    "Overheid/description.xml".
  split; vm_compute; reflexivity.
Defined.
